(** * salt.utils.odict: the backported [OrderedDict] and [DefaultOrderedDict]

    A shallow embedding of [src/salt/utils/odict.py].  Python objects live
    in an explicit store: every link of the circular doubly linked list is
    a three element list [[PREV, NEXT, KEY]] addressed by its identity, and
    every dictionary instance is an object holding the inherited [dict],
    the private attributes [__root] and [__map] and, for the subclass,
    [default_factory].  Methods are state passing functions over that store
    which either return, raise, or do not finish. *)

From stdpp Require Import gmap strings list fin_maps pretty.

Set Default Proof Using "Type".
#[local] Set Warnings "-clear-no-such-hyp".

(** ** Python values of the embedding *)

(** Identities of list objects used as links, and of dictionary instances. *)
Abbreviation loc := nat.
Abbreviation ref := nat.

Inductive exn_type := KeyError | TypeError | AttributeError.

Inductive cls := OrderedDict | DefaultOrderedDict.

Global Instance exn_type_eq_dec : EqDecision exn_type.
Proof. solve_decision. Defined.

Global Instance cls_eq_dec : EqDecision cls.
Proof. solve_decision. Defined.

Section odict.

(** Keys are hashable objects, values are arbitrary objects compared with
    [==]; [callable] is the type of function objects and [call] runs one
    of them against the part [W] of the program state that the dictionary
    never touches. *)
Context {K : Type} {K_eq : EqDecision K} {K_count : Countable K}.
Context {V : Type} {V_eq : EqDecision V}.
Context {W : Type} {callable : Type}.
Variable call : callable → W → V * W.

(** A link [[PREV, NEXT, KEY]]; the sentinel carries [None] as its key. *)
Record Link := mkLink { PREV : loc; NEXT : loc; KEY : option K }.

(** The objects that reach the constructors and [update] as arguments:
    [None], a function object, a dictionary instance, or a list of
    key/value pairs. *)
Inductive pyval :=
| PyNone
| PyCallable (f : callable)
| PyOD (r : ref)
| PyPairs (l : list (K * V)).

(** An instance.  [ob_dict] is the inherited dict; [ob_root], [ob_map] and
    [default_factory] are the instance attributes [__root], [__map] and
    [default_factory], [None] while the attribute is not set; [ob_vars]
    holds any further instance attributes. *)
Record Object := mkObject {
  ob_class : cls;
  ob_dict : gmap K V;
  ob_root : option loc;
  ob_map : option (gmap K loc);
  default_factory : option pyval;
  ob_vars : gmap string V
}.

Record Store := mkStore {
  links : gmap loc Link;
  objs : gmap ref Object;
  world : W
}.

(** An exception instance: its class and its single argument, a key or a
    message. *)
Record exn := Exn { exn_class : exn_type; exn_arg : K + string }.

(** A call returns, raises, gets stuck on a store no Python run produces
    (a missing object, a sentinel reached as an element), or is cut off by
    the bound on loop iterations. *)
Inductive outcome (A : Type) :=
| Return (a : A) (σ : Store)
| Raise (e : exn) (σ : Store)
| Stuck
| OutOfFuel.
Global Arguments Return {A} a σ.
Global Arguments Raise {A} e σ.
Global Arguments Stuck {A}.
Global Arguments OutOfFuel {A}.

Definition M (A : Type) : Type := Store → outcome A.

Definition ret {A} (a : A) : M A := λ σ, Return a σ.

Definition bind {A B} (m : M A) (f : A → M B) : M B := λ σ,
  match m σ with
  | Return a σ' => f a σ'
  | Raise e σ' => Raise e σ'
  | Stuck => Stuck
  | OutOfFuel => OutOfFuel
  end.

Definition raise {A} (e : exn) : M A := λ σ, Raise e σ.

(** [try: m except cl: h] *)
Definition try_except {A} (m : M A) (cl : exn_type) (h : M A) : M A := λ σ,
  match m σ with
  | Raise e σ' => if decide (exn_class e = cl) then h σ' else Raise e σ'
  | r => r
  end.

Global Instance M_ret : MRet M := @ret.
Global Instance M_bind : MBind M := λ A B f m, bind m f.

(** ** Store primitives *)

Definition get_obj (r : ref) : M Object := λ σ,
  match objs σ !! r with Some o => Return o σ | None => Stuck end.

Definition put_obj (r : ref) (o : Object) : M unit := λ σ,
  Return tt (mkStore (links σ) (<[r:=o]> (objs σ)) (world σ)).

Definition read_link (l : loc) : M Link := λ σ,
  match links σ !! l with Some lk => Return lk σ | None => Stuck end.

Definition write_link (l : loc) (lk : Link) : M unit := λ σ,
  Return tt (mkStore (<[l:=lk]> (links σ)) (objs σ) (world σ)).

(** [l[0] = p] and [l[1] = n] on a link [l]. *)
Definition set_PREV (l p : loc) : M unit :=
  lk ← read_link l; write_link l (mkLink p (NEXT lk) (KEY lk)).

Definition set_NEXT (l n : loc) : M unit :=
  lk ← read_link l; write_link l (mkLink (PREV lk) n (KEY lk)).

(** The list display [[p, n, k]] creates a new list object. *)
Definition new_link (lk : Link) : M loc := λ σ,
  let l := fresh (dom (links σ)) in
  Return l (mkStore (<[l:=lk]> (links σ)) (objs σ) (world σ)).

(** [root = []; root[:] = [root, root, None]]: a new list that refers to
    itself. *)
Definition new_sentinel : M loc := λ σ,
  let l := fresh (dom (links σ)) in
  Return l (mkStore (<[l:=mkLink l l None]> (links σ)) (objs σ) (world σ)).

(** [cls.__new__]: an empty dict instance without instance attributes. *)
Definition new_object (c : cls) : M ref := λ σ,
  let r := fresh (dom (objs σ)) in
  Return r (mkStore (links σ)
                    (<[r:=mkObject c ∅ None None None ∅]> (objs σ)) (world σ)).

(** Attribute reads; a missing attribute raises [AttributeError]. *)
Definition get_root (self : ref) : M loc :=
  o ← get_obj self;
  match ob_root o with
  | Some r => ret r
  | None => raise (Exn AttributeError (inr "_OrderedDict__root"))
  end.

Definition get_map (self : ref) : M (gmap K loc) :=
  o ← get_obj self;
  match ob_map o with
  | Some m => ret m
  | None => raise (Exn AttributeError (inr "_OrderedDict__map"))
  end.

Definition get_default_factory (self : ref) : M pyval :=
  o ← get_obj self;
  match default_factory o with
  | Some f => ret f
  | None => raise (Exn AttributeError (inr "default_factory"))
  end.

(** Attribute writes. *)
Definition set_root (self : ref) (r : loc) : M unit :=
  o ← get_obj self;
  put_obj self (mkObject (ob_class o) (ob_dict o) (Some r) (ob_map o)
                         (default_factory o) (ob_vars o)).

Definition set_map (self : ref) (m : gmap K loc) : M unit :=
  o ← get_obj self;
  put_obj self (mkObject (ob_class o) (ob_dict o) (ob_root o) (Some m)
                         (default_factory o) (ob_vars o)).

Definition set_default_factory (self : ref) (f : pyval) : M unit :=
  o ← get_obj self;
  put_obj self (mkObject (ob_class o) (ob_dict o) (ob_root o) (ob_map o)
                         (Some f) (ob_vars o)).

(** Calling a function object. *)
Definition call_callable (f : callable) : M V := λ σ,
  let '(v, w) := call f (world σ) in
  Return v (mkStore (links σ) (objs σ) w).

(** The inherited [dict] methods used by the two classes. *)
Definition dict___contains__ (self : ref) (key : K) : M bool :=
  o ← get_obj self; ret (bool_decide (is_Some (ob_dict o !! key))).

Definition dict___len__ (self : ref) : M nat :=
  o ← get_obj self; ret (size (ob_dict o)).

Definition dict___setitem__ (self : ref) (key : K) (value : V) : M unit :=
  o ← get_obj self;
  put_obj self (mkObject (ob_class o) (<[key:=value]> (ob_dict o)) (ob_root o)
                         (ob_map o) (default_factory o) (ob_vars o)).

Definition dict___delitem__ (self : ref) (key : K) : M unit :=
  o ← get_obj self;
  match ob_dict o !! key with
  | Some _ =>
      put_obj self (mkObject (ob_class o) (delete key (ob_dict o)) (ob_root o)
                             (ob_map o) (default_factory o) (ob_vars o))
  | None => raise (Exn KeyError (inl key))
  end.

(** [dict.pop(self, key)], called without a default. *)
Definition dict_pop (self : ref) (key : K) : M V :=
  o ← get_obj self;
  match ob_dict o !! key with
  | Some v =>
      put_obj self (mkObject (ob_class o) (delete key (ob_dict o)) (ob_root o)
                             (ob_map o) (default_factory o) (ob_vars o));;
      ret v
  | None => raise (Exn KeyError (inl key))
  end.

(** ** [OrderedDict.__setitem__], [__delitem__], [__iter__] *)

(** [__setitem__], lines 96-104.  The chained assignment evaluates the new
    list first and then assigns its targets from left to right. *)
Definition OrderedDict___setitem__ (self : ref) (key : K) (value : V) : M unit :=
  present ← dict___contains__ self key;
  (if (present : bool) return M unit then ret tt
   else
     root ← get_root self;
     rt ← read_link root;
     let last := PREV rt in
     n ← new_link (mkLink last root (Some key));
     set_NEXT last n;;
     set_PREV root n;;
     m ← get_map self;
     set_map self (<[key:=n]> m));;
  dict___setitem__ self key value.

(** [__delitem__], lines 106-113. *)
Definition OrderedDict___delitem__ (self : ref) (key : K) : M unit :=
  dict___delitem__ self key;;
  m ← get_map self;
  match m !! key with
  | None => raise (Exn KeyError (inl key))
  | Some l =>
      set_map self (delete key m);;
      lk ← read_link l;
      let link_prev := PREV lk in
      let link_next := NEXT lk in
      set_NEXT link_prev link_next;;
      set_PREV link_next link_prev
  end.

(** The generator of [__iter__], lines 115-121, driven by a consumer that
    runs [body] on every key it is handed: [curr[2]] is read, [body] runs,
    and only then [curr = curr[1]] is read.  [fuel] bounds the number of
    tests of the loop condition. *)
Fixpoint iter_from {A} (fuel : nat) (root curr : loc) (body : K → M A)
    : M (list A) :=
  match fuel with
  | 0 => λ _, OutOfFuel
  | S fuel' =>
      if decide (curr = root) then ret []
      else
        lk ← read_link curr;
        match KEY lk with
        | None => λ _, Stuck
        | Some key =>
            x ← body key;
            lk' ← read_link curr;
            xs ← iter_from fuel' root (NEXT lk') body;
            ret (x :: xs)
        end
  end.

Definition OrderedDict___iter__ {A} (fuel : nat) (self : ref) (body : K → M A)
    : M (list A) :=
  root ← get_root self;
  rt ← read_link root;
  iter_from fuel root (NEXT rt) body.

(** ** [DefaultOrderedDict.__missing__], [__getitem__] and the dispatch of
    [self[key]] *)

(** [__missing__], lines 339-343. *)
Definition DefaultOrderedDict___missing__ (self : ref) (key : K) : M V :=
  f ← get_default_factory self;
  match f with
  | PyNone => raise (Exn KeyError (inl key))
  | PyCallable g =>
      value ← call_callable g;
      OrderedDict___setitem__ self key value;;
      ret value
  | _ => raise (Exn TypeError (inr "object is not callable"))
  end.

(** [dict.__getitem__], which [OrderedDict] inherits: on a missing key an
    instance of a subclass that defines [__missing__] has that method
    called. *)
Definition OrderedDict___getitem__ (self : ref) (key : K) : M V :=
  o ← get_obj self;
  match ob_dict o !! key with
  | Some v => ret v
  | None =>
      match ob_class o with
      | OrderedDict => raise (Exn KeyError (inl key))
      | DefaultOrderedDict => DefaultOrderedDict___missing__ self key
      end
  end.

(** [__getitem__], lines 333-337. *)
Definition DefaultOrderedDict___getitem__ (self : ref) (key : K) : M V :=
  try_except (OrderedDict___getitem__ self key) KeyError
             (DefaultOrderedDict___missing__ self key).

(** [self[key]]: the method of [type(self)]. *)
Definition getitem (self : ref) (key : K) : M V :=
  o ← get_obj self;
  match ob_class o with
  | OrderedDict => OrderedDict___getitem__ self key
  | DefaultOrderedDict => DefaultOrderedDict___getitem__ self key
  end.

(** ** The order-aware methods of [OrderedDict] *)

(** [popitem], lines 143-164. *)
Definition OrderedDict_popitem (self : ref) (last : bool) : M (K * V) :=
  n ← dict___len__ self;
  if decide (n = 0) then raise (Exn KeyError (inr "dictionary is empty"))
  else
    root ← get_root self;
    link ← (if last return M loc then
              rt ← read_link root;
              let link := PREV rt in
              lk ← read_link link;
              let link_prev := PREV lk in
              set_NEXT link_prev root;;
              set_PREV root link_prev;;
              ret link
            else
              rt ← read_link root;
              let link := NEXT rt in
              lk ← read_link link;
              let link_next := NEXT lk in
              set_NEXT root link_next;;
              set_PREV link_next root;;
              ret link);
    lk ← read_link link;
    match KEY lk with
    | None => λ _, Stuck
    | Some key =>
        m ← get_map self;
        match m !! key with
        | None => raise (Exn KeyError (inl key))
        | Some _ =>
            set_map self (delete key m);;
            value ← dict_pop self key;
            ret (key, value)
        end
    end.

(** [keys], [values], [items], lines 168-178. *)
Definition OrderedDict_keys (fuel : nat) (self : ref) : M (list K) :=
  OrderedDict___iter__ fuel self (λ key, ret key).

Definition OrderedDict_values (fuel : nat) (self : ref) : M (list V) :=
  OrderedDict___iter__ fuel self (λ key, getitem self key).

Definition OrderedDict_items (fuel : nat) (self : ref) : M (list (K * V)) :=
  OrderedDict___iter__ fuel self (λ key, v ← getitem self key; ret (key, v)).

(** [for key, value in other: self[key] = value] over a list of pairs. *)
Fixpoint setitems (self : ref) (l : list (K * V)) : M unit :=
  match l with
  | [] => ret tt
  | (key, value) :: l' =>
      OrderedDict___setitem__ self key value;; setitems self l'
  end.

(** [update], lines 194-225, called as a method with positional arguments
    [args] after [self] and no keyword arguments. *)
Definition OrderedDict_update (fuel : nat) (self : ref) (args : list pyval)
    : M unit :=
  if decide (2 < S (length args)) then
    raise (Exn TypeError
             (inr ("update() takes at most 2 positional arguments ("
                   +:+ pretty (S (length args)) +:+ " given)")))
  else
    match default (PyPairs []) (head args) with
    | PyOD other =>
        OrderedDict___iter__ fuel other
          (λ key, v ← getitem other key; OrderedDict___setitem__ self key v);;
        ret tt
    | PyPairs l => setitems self l
    | _ => raise (Exn TypeError (inr "object is not iterable"))
    end.

(** [__init__], lines 71-94.  [warn_until] only emits the deprecation
    warning. *)
Definition OrderedDict___init__ (fuel : nat) (self : ref) (args : list pyval)
    : M unit :=
  if decide (1 < length args) then
    raise (Exn TypeError
             (inr ("expected at most 1 arguments, got " +:+ pretty (length args))))
  else
    try_except (get_root self;; ret tt) AttributeError
      (root ← new_sentinel;
       set_root self root;;
       set_map self ∅);;
    OrderedDict_update fuel self args.

(** [pop], lines 233-244; [default = None] stands for the marker object. *)
Definition OrderedDict_pop (self : ref) (key : K) (default : option V) : M V :=
  present ← dict___contains__ self key;
  if (present : bool) then
    result ← getitem self key;
    OrderedDict___delitem__ self key;;
    ret result
  else
    match default with
    | None => raise (Exn KeyError (inl key))
    | Some d => ret d
    end.

(** [setdefault], lines 246-251. *)
Definition OrderedDict_setdefault (self : ref) (key : K) (default : V) : M V :=
  present ← dict___contains__ self key;
  if (present : bool) then getitem self key
  else OrderedDict___setitem__ self key default;; ret default.

(** ** [DefaultOrderedDict.__init__] and instance creation *)

Definition is_callable (x : pyval) : bool :=
  match x with PyCallable _ => true | _ => false end.

Definition is_none (x : pyval) : bool :=
  match x with PyNone => true | _ => false end.

(** [__init__], lines 327-331. *)
Definition DefaultOrderedDict___init__ (fuel : nat) (self : ref)
    (args : list pyval) : M unit :=
  let default_factory := default PyNone (head args) in
  let a := tail args in
  if negb (is_none default_factory) && negb (is_callable default_factory) then
    raise (Exn TypeError (inr "first argument must be callable"))
  else
    OrderedDict___init__ fuel self a;;
    set_default_factory self default_factory.

(** Calling the class [c] on [args]: [__new__] followed by the [__init__] of [c]. *)
Definition construct (fuel : nat) (c : cls) (args : list pyval) : M ref :=
  self ← new_object c;
  match c with
  | OrderedDict => OrderedDict___init__ fuel self args
  | DefaultOrderedDict => DefaultOrderedDict___init__ fuel self args
  end;;
  ret self.

(** ** Pickling, copying, comparing *)

(** The value of [__reduce__]: the callable, its arguments, the optional
    state and the optional sequence of dict items. *)
Record reduce_value := mkReduce {
  rv_callable : cls;
  rv_args : list pyval;
  rv_state : option (gmap string V);
  rv_dictitems : option (list (K * V))
}.

(** [OrderedDict.__reduce__], lines 268-276.  [vars(OrderedDict())] builds
    a throw-away instance whose two attributes are removed from the copy
    of [vars(self)], which leaves [ob_vars]; an instance of the subclass
    does not reach this method, its class overrides it. *)
Definition OrderedDict___reduce__ (fuel : nat) (self : ref) : M reduce_value :=
  items ← OrderedDict___iter__ fuel self
             (λ k, v ← getitem self k; ret (k, v));
  o ← get_obj self;
  let inst_dict := ob_vars o in
  construct fuel OrderedDict [];;
  if decide (inst_dict = ∅) then
    ret (mkReduce (ob_class o) [PyPairs items] None None)
  else
    ret (mkReduce (ob_class o) [PyPairs items] (Some inst_dict) None).

(** [DefaultOrderedDict.__reduce__], lines 345-350. *)
Definition DefaultOrderedDict___reduce__ (fuel : nat) (self : ref)
    : M reduce_value :=
  f ← get_default_factory self;
  let args := if is_none f then [] else [f] in
  items ← OrderedDict_items fuel self;
  o ← get_obj self;
  ret (mkReduce (ob_class o) args None (Some items)).

(** How the unpickler rebuilds an object from a reduce value: call the
    callable on the arguments, update the instance [__dict__] with the
    state, and store the dict items one by one with [obj[k] = v]. *)
Definition reconstruct (fuel : nat) (rv : reduce_value) : M ref :=
  obj ← construct fuel (rv_callable rv) (rv_args rv);
  match rv_state rv with
  | None => ret tt
  | Some st =>
      o ← get_obj obj;
      put_obj obj (mkObject (ob_class o) (ob_dict o) (ob_root o) (ob_map o)
                            (default_factory o) (st ∪ ob_vars o))
  end;;
  match rv_dictitems rv with
  | None => ret tt
  | Some l => setitems obj l
  end;;
  ret obj.

(** [OrderedDict.copy], lines 278-280. *)
Definition OrderedDict_copy (fuel : nat) (self : ref) : M ref :=
  o ← get_obj self;
  construct fuel (ob_class o) [PyOD self].

(** [DefaultOrderedDict.__copy__] and [copy], lines 352-356. *)
Definition DefaultOrderedDict___copy__ (fuel : nat) (self : ref) : M ref :=
  o ← get_obj self;
  f ← get_default_factory self;
  construct fuel (ob_class o) [f; PyOD self].

Definition DefaultOrderedDict_copy (fuel : nat) (self : ref) : M ref :=
  DefaultOrderedDict___copy__ fuel self.

(** The right operand of [==]: another ordered dictionary or a plain
    [dict]. *)
Inductive eq_operand :=
| OtherOD (r : ref)
| OtherDict (d : gmap K V).

(** [__eq__], lines 293-300. *)
Definition OrderedDict___eq__ (fuel : nat) (self : ref) (other : eq_operand)
    : M bool :=
  match other with
  | OtherOD r =>
      n ← dict___len__ self;
      n' ← dict___len__ r;
      if decide (n = n') then
        xs ← OrderedDict_items fuel self;
        ys ← OrderedDict_items fuel r;
        ret (bool_decide (xs = ys))
      else ret false
  | OtherDict d =>
      o ← get_obj self;
      ret (bool_decide (ob_dict o = d))
  end.

Definition OrderedDict___ne__ (fuel : nat) (self : ref) (other : eq_operand)
    : M bool :=
  b ← OrderedDict___eq__ fuel self other; ret (negb b).

(** [self.__reduce__()]: the method of [type(self)]. *)
Definition reduce (fuel : nat) (self : ref) : M reduce_value :=
  o ← get_obj self;
  match ob_class o with
  | OrderedDict => OrderedDict___reduce__ fuel self
  | DefaultOrderedDict => DefaultOrderedDict___reduce__ fuel self
  end.

(** The pairs a reduce value carries. *)
Definition rv_pairs (rv : reduce_value) : list (K * V) :=
  match rv_dictitems rv with
  | Some l => l
  | None =>
      match rv_args rv with
      | [PyPairs l] => l
      | _ => []
      end
  end.

(** ** Further methods of [OrderedDict] *)

(** The generator of [__reversed__], lines 123-129, driven like the one of
    [__iter__]: it follows [curr[0]]. *)
Fixpoint iter_back {A} (fuel : nat) (root curr : loc) (body : K → M A)
    : M (list A) :=
  match fuel with
  | 0 => λ _, OutOfFuel
  | S fuel' =>
      if decide (curr = root) then ret []
      else
        lk ← read_link curr;
        match KEY lk with
        | None => λ _, Stuck
        | Some key =>
            x ← body key;
            lk' ← read_link curr;
            xs ← iter_back fuel' root (PREV lk') body;
            ret (x :: xs)
        end
  end.

Definition OrderedDict___reversed__ {A} (fuel : nat) (self : ref)
    (body : K → M A) : M (list A) :=
  root ← get_root self;
  rt ← read_link root;
  iter_back fuel root (PREV rt) body.

(** [list(reversed(self))] *)
Definition reversed_keys (fuel : nat) (self : ref) : M (list K) :=
  OrderedDict___reversed__ fuel self (λ key, ret key).

(** [del node[:]] on every list of [nodes]: the list object stays but
    holds no link any more, which the store records by dropping it. *)
Definition del_links (nodes : list loc) : M unit := λ σ,
  Return tt (mkStore (foldr delete (links σ) nodes) (objs σ) (world σ)).

(** [dict.clear(self)] *)
Definition dict_clear (self : ref) : M unit :=
  o ← get_obj self;
  put_obj self (mkObject (ob_class o) ∅ (ob_root o) (ob_map o)
                         (default_factory o) (ob_vars o)).

(** [clear], lines 131-141. *)
Definition OrderedDict_clear (self : ref) : M unit :=
  try_except
    (m ← get_map self;
     del_links (map_to_list m).*2;;
     root ← get_root self;
     write_link root (mkLink root root None);;
     set_map self ∅)
    AttributeError (ret tt);;
  dict_clear self.

(** [fromkeys], lines 282-291, called on the class [c]: [d = cls()] and
    then [d[key] = value] for every key of the iterable. *)
Definition OrderedDict_fromkeys (fuel : nat) (c : cls) (iterable : list K)
    (value : V) : M ref :=
  d ← construct fuel c [];
  setitems d ((λ key, (key, value)) <$> iterable);;
  ret d.

(** ** The representation invariant

    The ghost list [nv] of an instance lists, in insertion order, the
    identity of every link together with the key it carries and the value
    the inherited dict holds for that key. *)

Definition hd_loc (nv : list (loc * (K * V))) (e : loc) : loc :=
  match nv with [] => e | x :: _ => x.1 end.

Fixpoint last_loc (nv : list (loc * (K * V))) (p : loc) : loc :=
  match nv with [] => p | x :: rest => last_loc rest x.1 end.

(** The links of [nv] are chained: the first one points back to [prev],
    the last one points on to [e]. *)
Fixpoint seg (h : gmap loc Link) (prev : loc) (nv : list (loc * (K * V)))
    (e : loc) : Prop :=
  match nv with
  | [] => True
  | x :: rest =>
      h !! x.1 = Some (mkLink prev (hd_loc rest e) (Some x.2.1))
      ∧ seg h x.1 rest e
  end.

(** Invariants I1 and I2 of the data model for the instance [self]. *)
Record od_at (σ : Store) (self : ref) (o : Object) (root : loc)
    (nv : list (loc * (K * V))) : Prop := mk_od_at {
  od_obj : objs σ !! self = Some o;
  od_root : ob_root o = Some root;
  od_sentinel :
    links σ !! root = Some (mkLink (last_loc nv root) (hd_loc nv root) None);
  od_seg : seg (links σ) root nv root;
  od_locs : NoDup (root :: nv.*1);
  od_keys : NoDup nv.*2.*1;
  od_map : ∃ m, ob_map o = Some m
                ∧ ∀ k n, m !! k = Some n ↔ ∃ v, (n, (k, v)) ∈ nv;
  od_dict : ∀ k v, ob_dict o !! k = Some v ↔ (k, v) ∈ nv.*2
}.

(** A [DefaultOrderedDict] holds [None] or a function object as factory. *)
Definition factory_ok (o : Object) : Prop :=
  match ob_class o with
  | OrderedDict => True
  | DefaultOrderedDict =>
      ∃ f, default_factory o = Some f ∧ (is_none f || is_callable f) = true
  end.

(** [self] is a well-formed instance whose items, in insertion order, are
    [kvs]. *)
Definition represents (σ : Store) (self : ref) (kvs : list (K * V)) : Prop :=
  ∃ o root nv, od_at σ self o root nv ∧ factory_ok o ∧ nv.*2 = kvs.

(** What a call on [self] with footprint [F] leaves alone. *)
Record modifies (σ σ' : Store) (self : ref) (F : list loc) : Prop := mk_modifies {
  mod_objs : ∀ r, r ≠ self → r ∈ dom (objs σ) → objs σ' !! r = objs σ !! r;
  mod_links : ∀ l, l ∉ F → l ∈ dom (links σ) → links σ' !! l = links σ !! l;
  mod_dom_links : dom (links σ) ⊆ dom (links σ');
  mod_dom_objs : dom (objs σ) ⊆ dom (objs σ')
}.

(** Assignment in an insertion-ordered list of pairs: overwrite in place,
    or append. *)
Fixpoint alist_set (kvs : list (K * V)) (k : K) (v : V) : list (K * V) :=
  match kvs with
  | [] => [(k, v)]
  | x :: rest =>
      if decide (x.1 = k) then (k, v) :: rest else x :: alist_set rest k v
  end.

Definition alist_update (kvs l : list (K * V)) : list (K * V) :=
  foldl (λ acc x, alist_set acc x.1 x.2) kvs l.

Definition alist_remove (kvs : list (K * V)) (k : K) : list (K * V) :=
  filter (λ x, x.1 ≠ k) kvs.

Definition nv_set (nv : list (loc * (K * V))) (k : K) (v : V)
    : list (loc * (K * V)) :=
  (λ x, if decide (x.2.1 = k) then (x.1, (k, v)) else x) <$> nv.

(** What the initializer argument list [a] of [__init__] contributes: the
    pairs [src], taken from nothing, from a list of pairs, or from a
    well-formed instance that [fuel] suffices to traverse. *)
Definition init_arg (σ : Store) (fuel : nat) (a : list pyval)
    (src : list (K * V)) : Prop :=
  (a = [] ∧ src = [])
  ∨ a = [PyPairs src]
  ∨ ∃ other oo ro nvo,
      a = [PyOD other] ∧ od_at σ other oo ro nvo ∧ nvo.*2 = src
      ∧ length nvo < fuel.

(** [self] is a [DefaultOrderedDict] whose factory attribute holds [f]. *)
Definition is_default (σ : Store) (self : ref) (f : pyval) : Prop :=
  ∃ o, objs σ !! self = Some o ∧ ob_class o = DefaultOrderedDict
       ∧ default_factory o = Some f.

(** [self] is an [OrderedDict] proper whose further instance attributes
    are [vars]. *)
Definition is_plain (σ : Store) (self : ref) (vars : gmap string V) : Prop :=
  ∃ o, objs σ !! self = Some o ∧ ob_class o = OrderedDict ∧ ob_vars o = vars.

(** The failure of [popitem] on [self] and the failure of [pop] on a
    missing key are exceptions of different classes. *)
Definition empty_pop_kind_distinct (σ : Store) (self : ref) : Prop :=
  ∀ (last : bool) (k : K) e e' τ τ',
    OrderedDict_popitem self last σ = Raise e τ →
    OrderedDict_pop self k None σ = Raise e' τ' →
    exn_class e ≠ exn_class e'.

(** The store an outcome ends in, [d] when there is none. *)
Definition final_store {A} (r : outcome A) (d : Store) : Store :=
  match r with
  | Return _ σ | Raise _ σ => σ
  | Stuck | OutOfFuel => d
  end.

(** The attributes that the dictionary methods never assign. *)
Definition same_attrs (o o' : Object) : Prop :=
  ob_class o' = ob_class o ∧ default_factory o' = default_factory o
  ∧ ob_vars o' = ob_vars o ∧ ob_root o' = ob_root o.

(** Two distinct well-formed instances of one store, with items [la] and
    [lb], that share no link. *)
Definition two_instances (σ : Store) (a : ref) (la : list (K * V)) (b : ref)
    (lb : list (K * V)) : Prop :=
  ∃ oa ra nva ob rb nvb,
    od_at σ a oa ra nva ∧ factory_ok oa ∧ nva.*2 = la
    ∧ od_at σ b ob rb nvb ∧ factory_ok ob ∧ nvb.*2 = lb
    ∧ a ≠ b
    ∧ ∀ l, l ∈ ra :: nva.*1 → l ∉ rb :: nvb.*1.

(** * Properties *)

(** ** Lists of links *)

Lemma hd_loc_app l1 l2 e : hd_loc (l1 ++ l2) e = hd_loc l1 (hd_loc l2 e).
Proof. by destruct l1. Qed.

Lemma last_loc_app l1 l2 p : last_loc (l1 ++ l2) p = last_loc l2 (last_loc l1 p).
Proof. revert p. induction l1 as [|x l1 IH]; intros p; simpl; auto. Qed.

Lemma hd_loc_elem nv e : hd_loc nv e = e ∨ hd_loc nv e ∈ nv.*1.
Proof. destruct nv as [|x nv]; simpl; [by left | right; set_solver]. Qed.

Lemma last_loc_elem nv p : last_loc nv p = p ∨ last_loc nv p ∈ nv.*1.
Proof.
  revert p. induction nv as [|x nv IH]; intros p; simpl; [by left|].
  right. destruct (IH x.1) as [-> | Hin]; set_solver.
Qed.

Lemma seg_app h p l1 l2 e :
  seg h p (l1 ++ l2) e ↔ seg h p l1 (hd_loc l2 e) ∧ seg h (last_loc l1 p) l2 e.
Proof.
  revert p. induction l1 as [|x l1 IH]; intros p; simpl; [tauto|].
  rewrite IH, hd_loc_app. tauto.
Qed.

Lemma seg_frame h h' p nv e :
  (∀ n, n ∈ nv.*1 → h' !! n = h !! n) → seg h p nv e → seg h' p nv e.
Proof.
  revert p. induction nv as [|x nv IH]; intros p Hag; simpl; [done|].
  intros [Hx Hs]. split.
  - rewrite Hag; [done | set_solver].
  - apply IH; [|done]. intros n Hn. apply Hag. set_solver.
Qed.

Lemma seg_lookup h p l1 x l2 e :
  seg h p (l1 ++ x :: l2) e →
  h !! x.1 = Some (mkLink (last_loc l1 p) (hd_loc l2 e) (Some x.2.1)).
Proof. rewrite seg_app. simpl. tauto. Qed.

Lemma seg_dom h p nv e n : seg h p nv e → n ∈ nv.*1 → n ∈ dom h.
Proof.
  revert p. induction nv as [|x nv IH]; intros p; simpl; [set_solver|].
  intros [Hx Hs] Hn. apply elem_of_cons in Hn as [-> | Hn].
  - apply elem_of_dom. eauto.
  - eauto.
Qed.

(** [seg] does not look at the values. *)
Lemma seg_nv_set h p nv e k v : seg h p (nv_set nv k v) e ↔ seg h p nv e.
Proof.
  revert p. induction nv as [|x nv IH]; intros p; simpl; [done|].
  rewrite IH.
  assert (hd_loc (nv_set nv k v) e = hd_loc nv e) as ->.
  { destruct nv as [|y nv']; simpl; [done|]. by case_decide. }
  case_decide; simpl; subst; tauto.
Qed.

(** ** Running the primitives *)

Ltac unfold_prims :=
  unfold dict___contains__, dict___len__, dict___setitem__, dict___delitem__,
    dict_pop, get_root, get_map, get_default_factory, set_root, set_map,
    set_default_factory, set_PREV, set_NEXT, new_link, new_sentinel,
    new_object, call_callable, get_obj, put_obj, read_link, write_link,
    try_except, mbind, M_bind, bind, mret, M_ret, ret, raise.

Lemma fresh_link σ : links σ !! fresh (dom (links σ)) = None.
Proof. apply not_elem_of_dom, is_fresh. Qed.

Lemma fresh_obj σ : objs σ !! fresh (dom (objs σ)) = None.
Proof. apply not_elem_of_dom, is_fresh. Qed.

Lemma od_at_dom σ self o root nv l :
  od_at σ self o root nv → l ∈ root :: nv.*1 → l ∈ dom (links σ).
Proof.
  intros Hod [-> | Hl]%elem_of_cons.
  - apply elem_of_dom. rewrite (od_sentinel _ _ _ _ _ Hod). eauto.
  - eapply seg_dom; [apply Hod | done].
Qed.

Lemma od_at_frame σ σ' self F r o root nv :
  od_at σ r o root nv → modifies σ σ' self F → r ≠ self →
  (∀ l, l ∈ root :: nv.*1 → l ∉ F) →
  od_at σ' r o root nv.
Proof.
  intros Hod Hmod Hne Hsep.
  assert (∀ l, l ∈ root :: nv.*1 → links σ' !! l = links σ !! l) as Hag.
  { intros l Hl. apply Hmod; [by apply Hsep | by eapply od_at_dom]. }
  destruct Hod as [Ho Hr Hs Hseg Hl Hk Hm Hd]. split; try done.
  - rewrite (mod_objs _ _ _ _ Hmod); [done..|]. apply elem_of_dom; eauto.
  - rewrite Hag; [done | set_solver].
  - eapply seg_frame; [|done]. intros n Hn. apply Hag. set_solver.
Qed.

Lemma od_at_absent σ self o root nv k :
  od_at σ self o root nv → k ∉ nv.*2.*1 → ob_dict o !! k = None.
Proof.
  intros Hod Hk. destruct (ob_dict o !! k) as [v|] eqn:E; [|done].
  apply (od_dict _ _ _ _ _ Hod) in E. destruct Hk.
  apply list_elem_of_fmap. by exists (k, v).
Qed.

Lemma od_at_present σ self o root nv k :
  od_at σ self o root nv → k ∈ nv.*2.*1 → ∃ v, ob_dict o !! k = Some v.
Proof.
  intros Hod ([k' v] & -> & Hin)%list_elem_of_fmap. exists v.
  by apply (od_dict _ _ _ _ _ Hod).
Qed.

(** ** [__setitem__] *)

Lemma snoc_case {A} (l : list A) : l = [] ∨ ∃ l' x, l = l' ++ [x].
Proof.
  induction l as [|x l _] using rev_ind; [by left | right; eauto].
Qed.

Lemma setitem_new σ self o root nv k v :
  od_at σ self o root nv → k ∉ nv.*2.*1 →
  ∃ σ' o',
    OrderedDict___setitem__ self k v σ = Return tt σ'
    ∧ od_at σ' self o' root (nv ++ [(fresh (dom (links σ)), (k, v))])
    ∧ same_attrs o o'
    ∧ ob_dict o' = <[k:=v]> (ob_dict o)
    ∧ modifies σ σ' self (root :: nv.*1)
    ∧ world σ' = world σ.
Proof.
  intros Hod Hk. pose proof (od_at_absent _ _ _ _ _ _ Hod Hk) as Hnone.
  pose proof (fresh_link σ) as Hfresh.
  assert (∀ l, l ∈ root :: nv.*1 → l ≠ fresh (dom (links σ))) as Hnew.
  { intros l Hl ->. apply (od_at_dom _ _ _ _ _ _ Hod) in Hl.
    by apply is_fresh in Hl. }
  destruct Hod as [Ho Hr Hs Hseg Hl Hkeys (m & Hm & Hmap) Hd].
  unfold OrderedDict___setitem__. unfold_prims. simpl.
  rewrite Ho. simpl. rewrite Hnone. simpl. rewrite Ho, Hr, Hs. simpl.
  remember (fresh (dom (links σ))) as n eqn:Hn. clear Hn.
  assert (root ≠ n) as Hrn by (apply Hnew; clear; set_solver).
  assert (NoDup (root :: (nv ++ [(n, (k, v))]).*1)) as Hl'.
  { rewrite fmap_app. simpl. rewrite app_comm_cons. apply NoDup_app.
    split; [done|]. split; [|apply NoDup_singleton].
    intros l Hin ->%list_elem_of_singleton. by apply Hnew in Hin. }
  assert (NoDup (nv ++ [(n, (k, v))]).*2.*1) as Hkeys'.
  { rewrite !fmap_app. simpl. apply NoDup_app.
    split; [done|]. split; [|apply NoDup_singleton].
    by intros l Hin ->%list_elem_of_singleton. }
  assert (∀ k' n', <[k:=n]> m !! k' = Some n'
                   ↔ ∃ v', (n', (k', v')) ∈ nv ++ [(n, (k, v))]) as Hmap'.
  { intros k' n'. rewrite lookup_insert. case_decide as Hkk; subst.
    - split; [intros [= <-]; exists v; clear; set_solver|].
      intros (v' & [Hin | Hin%list_elem_of_singleton]%elem_of_app);
        [|congruence].
      destruct Hk. apply list_elem_of_fmap. exists (k', v'). split; [done|].
      apply list_elem_of_fmap. by exists (n', (k', v')).
    - rewrite Hmap. split; intros (v' & Hin); exists v';
        [clear -Hin; set_solver|].
      apply elem_of_app in Hin as [Hin | Hin%list_elem_of_singleton];
        [done | congruence]. }
  assert (∀ k' v', <[k:=v]> (ob_dict o) !! k' = Some v'
                   ↔ (k', v') ∈ (nv ++ [(n, (k, v))]).*2) as Hd'.
  { intros k' v'. rewrite fmap_app, elem_of_app. simpl.
    rewrite list_elem_of_singleton, lookup_insert. case_decide as Hkk; subst.
    - split; [intros [= <-]; by right|]. intros [Hin | [= ->]]; [|done].
      destruct Hk. apply list_elem_of_fmap. by exists (k', v').
    - rewrite Hd. split; [by left|]. intros [Hin | [= -> ->]]; done. }
  destruct (snoc_case nv) as [-> | (l & x & ->)]; simpl.
  - rewrite lookup_insert_ne, Hs by done. simpl.
    rewrite lookup_insert_eq. simpl. rewrite Ho, Hm. simpl. rewrite Ho. simpl.
    rewrite lookup_insert_eq. simpl.
    eexists _, (mkObject (ob_class o) (<[k:=v]> (ob_dict o)) (ob_root o)
                  (Some (<[k:=n]> m)) (default_factory o) (ob_vars o)).
    split; [reflexivity|]. split; [|split; [|split; [|split]]]; simpl.
    all: try done.
    + split; simpl; eauto.
      * by rewrite lookup_insert_eq.
      * by rewrite lookup_insert_eq.
      * split; [|done]. rewrite lookup_insert_ne, lookup_insert_ne by done.
        by rewrite lookup_insert_eq.
    + split; simpl.
      * intros r Hr' _. by rewrite !lookup_insert_ne.
      * intros l' Hl'' Hdom. rewrite !lookup_insert_ne; [done|..].
        all: intros <-; first [by apply not_elem_of_dom in Hfresh
                              | apply Hl''; clear; set_solver].
      * rewrite !dom_insert_L. clear; set_solver.
      * rewrite !dom_insert_L. clear; set_solver.
  - rewrite last_loc_app in *. simpl in *.
    assert (x.1 ≠ n) as Hxn
      by (apply Hnew; rewrite fmap_app; clear; set_solver).
    assert (x.1 ≠ root) as Hxr.
    { intros Hx. apply NoDup_cons in Hl as [Hl _]. destruct Hl.
      rewrite fmap_app, <-Hx. clear; set_solver. }
    pose proof (seg_lookup _ _ _ _ _ _ Hseg) as Hx. simpl in Hx.
    rewrite lookup_insert_ne, Hx by done. simpl.
    rewrite lookup_insert_ne, lookup_insert_ne, Hs by done. simpl.
    rewrite Ho, Hm. simpl. rewrite Ho. simpl.
    rewrite lookup_insert_eq. simpl.
    eexists _, (mkObject (ob_class o) (<[k:=v]> (ob_dict o)) (ob_root o)
                  (Some (<[k:=n]> m)) (default_factory o) (ob_vars o)).
    split; [reflexivity|]. split; [|split; [|split; [|split]]]; simpl.
    all: try done.
    + split; simpl; eauto.
      * by rewrite lookup_insert_eq.
      * rewrite lookup_insert_eq, !last_loc_app, !hd_loc_app. simpl.
        by destruct l.
      * apply seg_app. simpl. rewrite last_loc_app. simpl.
        rewrite (lookup_insert_ne _ root) by done.
        rewrite (lookup_insert_ne _ x.1) by done.
        rewrite lookup_insert_eq. split; [|done].
        apply seg_app. simpl. rewrite lookup_insert_ne by done.
        rewrite lookup_insert_eq. split; [|done].
        apply seg_app in Hseg as [Hseg _]. simpl in Hseg.
        eapply seg_frame; [|done]. intros n' Hn'.
        rewrite fmap_app in Hl. simpl in Hl.
        assert (n' ≠ root ∧ n' ≠ x.1) as [? ?].
        { apply NoDup_cons in Hl as [Hl1 Hl2].
          apply NoDup_app in Hl2 as (_ & Hl2 & _).
          split; intros ->; [apply Hl1; clear -Hn'; set_solver|].
          apply (Hl2 x.1); [done|]. clear; set_solver. }
        assert (n' ≠ n)
          by (apply Hnew; rewrite fmap_app; clear -Hn'; set_solver).
        by rewrite !lookup_insert_ne.
    + split; simpl.
      * intros r Hr' _. by rewrite !lookup_insert_ne.
      * intros l' Hl'' Hdom. rewrite fmap_app in Hl''. simpl in Hl''.
        rewrite !lookup_insert_ne; [done|..].
        all: intros <-; first [by apply not_elem_of_dom in Hfresh
                              | apply Hl''; clear; set_solver].
      * rewrite !dom_insert_L. clear; set_solver.
      * rewrite !dom_insert_L. clear; set_solver.
Qed.

Lemma nv_set_locs nv k v : (nv_set nv k v).*1 = nv.*1.
Proof.
  unfold nv_set. rewrite <-list_fmap_compose. apply list_fmap_ext.
  intros i x _. simpl. by case_decide.
Qed.

Lemma nv_set_keys nv k v : (nv_set nv k v).*2.*1 = nv.*2.*1.
Proof.
  unfold nv_set. rewrite <-!list_fmap_compose. apply list_fmap_ext.
  intros i x _. simpl. by case_decide.
Qed.

Lemma hd_loc_locs nv nv' e : nv'.*1 = nv.*1 → hd_loc nv' e = hd_loc nv e.
Proof. destruct nv, nv'; simpl; congruence. Qed.

Lemma last_loc_locs nv nv' p : nv'.*1 = nv.*1 → last_loc nv' p = last_loc nv p.
Proof.
  revert nv' p. induction nv as [|x nv IH]; intros [|y nv'] p; simpl; try done.
  intros [= -> Heq]. by apply IH.
Qed.

Lemma elem_of_nv_set nv k v n k' v' :
  (n, (k', v')) ∈ nv_set nv k v ↔
  (k' = k ∧ v' = v ∧ ∃ v0, (n, (k, v0)) ∈ nv) ∨ (k' ≠ k ∧ (n, (k', v')) ∈ nv).
Proof.
  unfold nv_set. rewrite list_elem_of_fmap. split.
  - intros ([n0 [k0 v0]] & Heq & Hin). simpl in Heq. case_decide; simplify_eq.
    + left. eauto.
    + right. eauto.
  - intros [(-> & -> & v0 & Hin) | (Hne & Hin)].
    + exists (n, (k, v0)). simpl. by rewrite decide_True.
    + exists (n, (k', v')). simpl. by rewrite decide_False.
Qed.

Lemma alist_set_absent kvs k v : k ∉ kvs.*1 → alist_set kvs k v = kvs ++ [(k, v)].
Proof.
  induction kvs as [|x kvs IH]; simpl; [done|]. intros Hk.
  apply not_elem_of_cons in Hk as [Hne Hk].
  rewrite decide_False by done. by rewrite IH.
Qed.

Lemma alist_set_present nv k v :
  NoDup nv.*2.*1 → k ∈ nv.*2.*1 → alist_set nv.*2 k v = (nv_set nv k v).*2.
Proof.
  induction nv as [|x nv IH]; simpl; [by intros _ ?%elem_of_nil|].
  intros [Hx Hnd]%NoDup_cons Hin. case_decide as Hk; simpl.
  - f_equal. subst k. clear IH Hin. induction nv as [|y nv IH]; simpl; [done|].
    simpl in Hx. apply not_elem_of_cons in Hx as [Hne Hx].
    apply NoDup_cons in Hnd as [_ Hnd].
    rewrite decide_False by done. f_equal. by apply IH.
  - f_equal. apply IH; [done|].
    apply elem_of_cons in Hin as [Heq | Hin]; [by destruct Hk | done].
Qed.

Lemma setitem_old σ self o root nv k v :
  od_at σ self o root nv → k ∈ nv.*2.*1 →
  ∃ σ' o',
    OrderedDict___setitem__ self k v σ = Return tt σ'
    ∧ od_at σ' self o' root (nv_set nv k v)
    ∧ same_attrs o o'
    ∧ ob_dict o' = <[k:=v]> (ob_dict o)
    ∧ modifies σ σ' self (root :: nv.*1)
    ∧ world σ' = world σ
    ∧ links σ' = links σ.
Proof.
  intros Hod Hk. destruct (od_at_present _ _ _ _ _ _ Hod Hk) as [v0 Hv0].
  destruct Hod as [Ho Hr Hs Hseg Hl Hkeys (m & Hm & Hmap) Hd].
  unfold OrderedDict___setitem__. unfold_prims. simpl.
  rewrite Ho. simpl. rewrite Hv0. simpl. rewrite Ho. simpl.
  eexists _, (mkObject (ob_class o) (<[k:=v]> (ob_dict o)) (ob_root o)
                (ob_map o) (default_factory o) (ob_vars o)).
  split; [reflexivity|]. split; [|split; [|split; [|split; [|split]]]]; simpl.
  all: try done.
  - split; simpl; try done.
    + by rewrite lookup_insert_eq.
    + by rewrite (hd_loc_locs nv), (last_loc_locs nv) by apply nv_set_locs.
    + by apply seg_nv_set.
    + by rewrite nv_set_locs.
    + by rewrite nv_set_keys.
    + exists m. split; [done|]. intros k' n'. rewrite Hmap.
      split; intros (v' & Hin).
      * destruct (decide (k' = k)) as [-> | Hne].
        -- exists v. apply elem_of_nv_set. left. eauto.
        -- exists v'. apply elem_of_nv_set. by right.
      * apply elem_of_nv_set in Hin as [(-> & -> & Hin) | (_ & Hin)]; eauto.
    + intros k' v'. rewrite lookup_insert, list_elem_of_fmap.
      case_decide as Hkk; subst.
      * split.
        -- intros [= <-].
           apply Hd, list_elem_of_fmap in Hv0 as ([n0 [k0 v1]] & [= <- <-] & Hin).
           exists (n0, (k', v)). split; [done|]. apply elem_of_nv_set.
           left. eauto.
        -- intros ([n0 [k0 v1]] & [= <- <-] & Hin).
           apply elem_of_nv_set in Hin as [(_ & -> & _) | (Hne & _)]; done.
      * rewrite Hd, list_elem_of_fmap. split.
        -- intros ([n0 [k0 v1]] & [= <- <-] & Hin).
           exists (n0, (k', v')). split; [done|]. apply elem_of_nv_set. by right.
        -- intros ([n0 [k0 v1]] & [= <- <-] & Hin).
           apply elem_of_nv_set in Hin as [(-> & _) | (_ & Hin)]; [done|].
           by exists (n0, (k', v')).
  - split; simpl; try done.
    + intros r Hne _. by rewrite lookup_insert_ne.
    + rewrite dom_insert_L. clear; set_solver.
Qed.

(** The effect of [self[k] = v] on a well-formed instance. *)
Lemma setitem_spec σ self o root nv k v :
  od_at σ self o root nv →
  ∃ σ' o' nv',
    OrderedDict___setitem__ self k v σ = Return tt σ'
    ∧ od_at σ' self o' root nv'
    ∧ nv'.*2 = alist_set nv.*2 k v
    ∧ same_attrs o o'
    ∧ modifies σ σ' self (root :: nv.*1)
    ∧ world σ' = world σ
    ∧ (∀ l, l ∈ nv'.*1 → l ∈ nv.*1 ∨ l ∉ dom (links σ)).
Proof.
  intros Hod. destruct (decide (k ∈ nv.*2.*1)) as [Hin | Hout].
  - destruct (setitem_old _ _ _ _ _ _ v Hod Hin)
      as (σ' & o' & Hrun & Hod' & Hsame & _ & Hmod & Hw & _).
    exists σ', o', (nv_set nv k v). split_and!; try done.
    + symmetry. apply alist_set_present; [apply Hod | done].
    + intros l. rewrite nv_set_locs. by left.
  - destruct (setitem_new _ _ _ _ _ _ v Hod Hout)
      as (σ' & o' & Hrun & Hod' & Hsame & _ & Hmod & Hw).
    exists σ', o', (nv ++ [(fresh (dom (links σ)), (k, v))]).
    split_and!; try done.
    + rewrite fmap_app. simpl. by rewrite alist_set_absent.
    + intros l. rewrite fmap_app, elem_of_app. simpl.
      intros [Hl | ->%list_elem_of_singleton]; [by left | right].
      apply is_fresh.
Qed.

(** ** [self[key]] on a present key *)

Lemma getitem_present σ self o root nv k v :
  od_at σ self o root nv → (k, v) ∈ nv.*2 → getitem self k σ = Return v σ.
Proof.
  intros Hod Hin. apply (od_dict _ _ _ _ _ Hod) in Hin.
  pose proof (od_obj _ _ _ _ _ Hod) as Ho.
  unfold getitem, DefaultOrderedDict___getitem__, OrderedDict___getitem__.
  unfold_prims. rewrite Ho. simpl.
  destruct (ob_class o); rewrite Ho; simpl; by rewrite Hin.
Qed.

(** ** The loop of [__iter__] *)

Lemma iter_from_spec {A} (body : K → M A) (root : loc)
    (R : list (loc * (K * V)) → list A → Store → Prop) :
  (∀ x rest acc σ, R (x :: rest) acc σ →
     x.1 ≠ root
     ∧ (∃ lk, links σ !! x.1 = Some lk ∧ KEY lk = Some x.2.1)
     ∧ ∃ a σ', body x.2.1 σ = Return a σ'
         ∧ R rest (acc ++ [a]) σ'
         ∧ ∃ lk', links σ' !! x.1 = Some lk' ∧ NEXT lk' = hd_loc rest root) →
  ∀ nv acc σ fuel, R nv acc σ → length nv < fuel →
    ∃ xs σ', iter_from fuel root (hd_loc nv root) body σ = Return xs σ'
             ∧ R [] (acc ++ xs) σ'.
Proof.
  intros Hstep nv. induction nv as [|x rest IH]; intros acc σ fuel HR Hfuel.
  - destruct fuel as [|fuel]; [simpl in Hfuel; lia|]. simpl.
    rewrite decide_True by done. exists [], σ. by rewrite app_nil_r.
  - destruct fuel as [|fuel]; [simpl in Hfuel; lia|]. simpl in *.
    destruct (Hstep _ _ _ _ HR)
      as (Hne & (lk & Hlk & Hkey) & a & σ1 & Hbody & HR1 & lk' & Hlk' & Hnext).
    rewrite decide_False by done. unfold_prims.
    rewrite Hlk, Hkey, Hbody, Hlk', Hnext.
    destruct (IH (acc ++ [a]) σ1 fuel HR1 ltac:(lia)) as (xs & σ2 & Hrun & HR2).
    rewrite Hrun. exists (a :: xs), σ2. split; [done|].
    by rewrite <-app_assoc in HR2.
Qed.

(** A traversal whose body leaves the store alone visits the links in
    insertion order. *)
Lemma iter_read_only {A} σ self o root nv (body : K → M A)
    (g : loc * (K * V) → A) fuel :
  od_at σ self o root nv →
  (∀ x, x ∈ nv → body x.2.1 σ = Return (g x) σ) →
  length nv < fuel →
  OrderedDict___iter__ fuel self body σ = Return (g <$> nv) σ.
Proof.
  intros Hod Hbody Hfuel.
  destruct Hod as [Ho Hr Hs Hseg Hl Hkeys _ _].
  unfold OrderedDict___iter__. unfold_prims. rewrite Ho, Hr, Hs. simpl.
  set (R := λ (rest : list (loc * (K * V))) (acc : list A) (τ : Store),
              τ = σ ∧ ∃ pre, nv = pre ++ rest ∧ acc = g <$> pre).
  assert (R nv [] σ) as HR by (split; [done | by exists []]).
  destruct (iter_from_spec body root R) with (nv := nv) (acc := @nil A)
    (σ := σ) (fuel := fuel) as (xs & σ' & Hrun & -> & pre & Hpre & Hxs);
    [|done..|].
  - intros x rest acc τ (-> & pre & -> & ->).
    pose proof (seg_lookup _ _ _ _ _ _ Hseg) as Hx. split_and!.
    + intros Heq. apply NoDup_cons in Hl as [Hl _]. apply Hl.
      rewrite fmap_app, <-Heq. clear; set_solver.
    + eauto.
    + exists (g x), σ. split_and!; eauto.
      * apply Hbody. clear; set_solver.
      * split; [done|]. exists (pre ++ [x]). by rewrite <-app_assoc, fmap_app.
  - rewrite Hrun. rewrite app_nil_r in Hpre. simpl in Hxs. by subst.
Qed.

Lemma keys_od_at σ self o root nv fuel :
  od_at σ self o root nv → length nv < fuel →
  OrderedDict_keys fuel self σ = Return nv.*2.*1 σ.
Proof.
  intros Hod Hfuel. unfold OrderedDict_keys.
  rewrite (iter_read_only σ self o root nv _ (λ x, x.2.1) fuel); try done.
  by rewrite <-list_fmap_compose.
Qed.

Lemma items_od_at σ self o root nv fuel :
  od_at σ self o root nv → length nv < fuel →
  OrderedDict_items fuel self σ = Return nv.*2 σ.
Proof.
  intros Hod Hfuel. unfold OrderedDict_items.
  rewrite (iter_read_only σ self o root nv _ (λ x, x.2) fuel); try done.
  intros [n [k v]] Hin. simpl. unfold mbind, M_bind, bind.
  rewrite (getitem_present σ self o root nv k v); [done..|].
  apply list_elem_of_fmap. by exists (n, (k, v)).
Qed.

Lemma values_od_at σ self o root nv fuel :
  od_at σ self o root nv → length nv < fuel →
  OrderedDict_values fuel self σ = Return nv.*2.*2 σ.
Proof.
  intros Hod Hfuel. unfold OrderedDict_values.
  rewrite (iter_read_only σ self o root nv _ (λ x, x.2.2) fuel); try done.
  - by rewrite <-list_fmap_compose.
  - intros [n [k v]] Hin. simpl.
    apply (getitem_present σ self o root nv k v); [done|].
    apply list_elem_of_fmap. by exists (n, (k, v)).
Qed.

Lemma keys_spec σ self kvs fuel :
  represents σ self kvs → length kvs < fuel →
  OrderedDict_keys fuel self σ = Return kvs.*1 σ.
Proof.
  intros (o & root & nv & Hod & _ & <-) Hfuel. rewrite length_fmap in Hfuel.
  by eapply keys_od_at.
Qed.

Lemma items_spec σ self kvs fuel :
  represents σ self kvs → length kvs < fuel →
  OrderedDict_items fuel self σ = Return kvs σ.
Proof.
  intros (o & root & nv & Hod & _ & <-) Hfuel. rewrite length_fmap in Hfuel.
  by eapply items_od_at.
Qed.

Lemma values_spec σ self kvs fuel :
  represents σ self kvs → length kvs < fuel →
  OrderedDict_values fuel self σ = Return kvs.*2 σ.
Proof.
  intros (o & root & nv & Hod & _ & <-) Hfuel. rewrite length_fmap in Hfuel.
  by eapply values_od_at.
Qed.

(** ** Unlinking a link

    [__delitem__] and both branches of [popitem] splice a link out with
    the same two assignments: the predecessor's [NEXT] and the successor's
    [PREV]. *)

Lemma seg_retarget_next h h' prev nv e e' :
  seg h prev nv e → NoDup nv.*1 →
  (∀ n, n ∈ nv.*1 → n ≠ last_loc nv prev → h' !! n = h !! n) →
  (∀ lk, nv ≠ [] → h !! last_loc nv prev = Some lk →
         h' !! last_loc nv prev = Some (mkLink (PREV lk) e' (KEY lk))) →
  seg h' prev nv e'.
Proof.
  intros Hseg Hnd Hag Hlast.
  destruct (snoc_case nv) as [-> | (l & y & ->)]; [done|].
  rewrite last_loc_app in Hag, Hlast. rewrite fmap_app in Hnd, Hag.
  apply seg_app in Hseg as [Hl [Hy _]].
  apply NoDup_app in Hnd as (_ & Hnd & _).
  apply seg_app. split; [|split; [|done]].
  - eapply seg_frame; [|done]. intros n Hn. apply Hag.
    + clear -Hn. set_solver.
    + intros ->. apply (Hnd y.1); [done|]. clear; set_solver.
  - simpl in *. rewrite (Hlast _ ltac:(by destruct l) Hy). done.
Qed.

Lemma seg_retarget_prev h h' prev prev' nv e :
  seg h prev nv e → NoDup nv.*1 →
  (∀ n, n ∈ nv.*1 → n ≠ hd_loc nv e → h' !! n = h !! n) →
  (∀ lk, nv ≠ [] → h !! hd_loc nv e = Some lk →
         h' !! hd_loc nv e = Some (mkLink prev' (NEXT lk) (KEY lk))) →
  seg h' prev' nv e.
Proof.
  intros Hseg Hnd Hag Hhd. destruct nv as [|y rest]; [done|].
  destruct Hseg as [Hy Hrest]. rewrite fmap_cons in Hnd, Hag.
  apply NoDup_cons in Hnd as [Hnd _]. split.
  - pose proof (Hhd _ ltac:(done) Hy) as Hy'. simpl in Hy'. by rewrite Hy'.
  - eapply seg_frame; [|done]. intros n Hn. apply Hag.
    + clear -Hn. set_solver.
    + by intros ->.
Qed.

Lemma last_loc_nonempty nv p p' : nv ≠ [] → last_loc nv p = last_loc nv p'.
Proof. by destruct nv. Qed.

Lemma hd_loc_nonempty nv e e' : nv ≠ [] → hd_loc nv e = hd_loc nv e'.
Proof. by destruct nv. Qed.

Lemma last_loc_in nv p : nv ≠ [] → last_loc nv p ∈ nv.*1.
Proof.
  intros Hne. destruct (snoc_case nv) as [-> | (l & y & ->)]; [done|].
  rewrite last_loc_app, fmap_app. simpl. clear; set_solver.
Qed.

Lemma hd_loc_in nv e : nv ≠ [] → hd_loc nv e ∈ nv.*1.
Proof. destruct nv as [|y nv]; [done|]. intros _. simpl. clear; set_solver. Qed.

Lemma unlink_links h root l1 x l2 :
  h !! root = Some (mkLink (last_loc (l1 ++ x :: l2) root)
                           (hd_loc (l1 ++ x :: l2) root) None) →
  seg h root (l1 ++ x :: l2) root →
  NoDup (root :: (l1 ++ x :: l2).*1) →
  ∃ lkp lkx h2,
    h !! last_loc l1 root = Some lkp
    ∧ <[last_loc l1 root:=mkLink (PREV lkp) (hd_loc l2 root) (KEY lkp)]> h
        !! hd_loc l2 root = Some lkx
    ∧ h2 = <[hd_loc l2 root:=mkLink (last_loc l1 root) (NEXT lkx) (KEY lkx)]>
             (<[last_loc l1 root:=
                  mkLink (PREV lkp) (hd_loc l2 root) (KEY lkp)]> h)
    ∧ h2 !! root = Some (mkLink (last_loc (l1 ++ l2) root)
                                (hd_loc (l1 ++ l2) root) None)
    ∧ seg h2 root (l1 ++ l2) root.
Proof.
  intros Hs Hseg Hnd.
  apply seg_app in Hseg as (Hseg1 & Hx & Hseg2).
  rewrite fmap_app, fmap_cons in Hnd.
  apply NoDup_cons in Hnd as [Hroot Hnd].
  apply NoDup_app in Hnd as (Hnd1 & Hdisj & Hnd2).
  apply NoDup_cons in Hnd2 as [Hx2 Hnd2].
  set (p := last_loc l1 root) in *. set (nx := hd_loc l2 root) in *.
  assert (l1 ≠ [] → p ∈ l1.*1) as Hp1 by apply last_loc_in.
  assert (l2 ≠ [] → nx ∈ l2.*1) as Hn2 by apply hd_loc_in.
  assert (∀ n, n ∈ l1.*1 → n ∈ l2.*1 → False) as Hd12.
  { intros n H1 H2. apply (Hdisj n H1). clear -H2. set_solver. }
  assert (∀ n, n ∈ l1.*1 → n ≠ root) as Hr1.
  { intros n H1 ->. apply Hroot. clear -H1. set_solver. }
  assert (∀ n, n ∈ l2.*1 → n ≠ root) as Hr2.
  { intros n H1 ->. apply Hroot. clear -H1. set_solver. }
  assert (∃ lkp, h !! p = Some lkp
                 ∧ (l1 = [] → lkp = mkLink (last_loc (l1 ++ x :: l2) root)
                                      (hd_loc (l1 ++ x :: l2) root) None))
    as (lkp & Hlkp & Hlkp0).
  { destruct (snoc_case l1) as [-> | (l & y & ->)]; [by eauto|].
    apply seg_app in Hseg1 as [_ [Hy _]].
    subst p. rewrite last_loc_app. simpl. eexists. split; [done|].
    by intros [_ ?]%app_eq_nil. }
  assert (∃ lk0, h !! nx = Some lk0
                 ∧ (l2 = [] → lk0 = mkLink (last_loc (l1 ++ x :: l2) root)
                                      (hd_loc (l1 ++ x :: l2) root) None))
    as (lk0 & Hlk0 & Hlk00).
  { destruct l2 as [|z l2]; [by eauto|]. destruct Hseg2 as [Hz _].
    subst nx. simpl. eexists. split; [done|]. done. }
  assert (seg_goal : ∀ h2, p ≠ nx →
    h2 = <[nx:=mkLink p (NEXT lk0) (KEY lk0)]>
           (<[p:=mkLink (PREV lkp) nx (KEY lkp)]> h) →
    seg h2 root (l1 ++ l2) root).
  { intros h2 Hne ->. apply seg_app. fold p nx. split.
    - eapply seg_retarget_next; [done..| |].
      + intros n Hn Hnp. rewrite !lookup_insert_ne; [done|done|].
        intros <-. destruct (decide (l2 = [])) as [-> | Hl2].
        * by apply (Hr1 root).
        * by apply (Hd12 nx), Hn2.
      + intros lk Hl1 Hlk. fold p in Hlk |- *.
        rewrite lookup_insert_ne, lookup_insert_eq by done. congruence.
    - eapply seg_retarget_prev; [done..| |].
      + intros n Hn Hnn. rewrite !lookup_insert_ne; [done| |done].
        intros <-. destruct (decide (l1 = [])) as [-> | Hl1].
        * by apply (Hr2 root).
        * by apply (Hd12 p); [apply Hp1|].
      + intros lk Hl2 Hlk. fold nx in Hlk |- *.
        rewrite lookup_insert_eq. congruence. }
  assert (p = last_loc l1 root) as Hpdef by done.
  assert (nx = hd_loc l2 root) as Hnxdef by done.
  clearbody p nx.
  destruct (decide (l1 = [])) as [-> | Hl1];
    destruct (decide (l2 = [])) as [-> | Hl2].
  - specialize (Hlkp0 eq_refl). specialize (Hlk00 eq_refl).
    simpl in *. subst lkp lk0 p nx.
    eexists _, _, _. rewrite lookup_insert_eq.
    split_and!; [done..|reflexivity| |done].
    by rewrite lookup_insert_eq.
  - assert (nx ≠ root) as Hnr by (apply Hr2; auto).
    specialize (Hlkp0 eq_refl). simpl in Hpdef. subst p lkp.
    exists (mkLink (last_loc ([] ++ x :: l2) root)
                   (hd_loc ([] ++ x :: l2) root) None), lk0.
    eexists. rewrite lookup_insert_ne by done.
    split_and!; [done..|reflexivity| |by apply seg_goal].
    rewrite lookup_insert_ne, lookup_insert_eq by done. simpl.
    rewrite <-Hnxdef. f_equal. f_equal. by apply last_loc_nonempty.
  - assert (p ≠ root) as Hpr by (apply Hr1; auto).
    specialize (Hlk00 eq_refl). simpl in Hnxdef. subst nx lk0.
    exists lkp, (mkLink (last_loc (l1 ++ [x]) root)
                        (hd_loc (l1 ++ [x]) root) None).
    eexists. rewrite lookup_insert_ne by done.
    split_and!; [done..|reflexivity| |by apply seg_goal].
    rewrite lookup_insert_eq. simpl.
    rewrite !app_nil_r, hd_loc_app, <-Hpdef. f_equal. f_equal.
    by apply hd_loc_nonempty.
  - assert (p ≠ root) as Hpr by (apply Hr1; auto).
    assert (nx ≠ root) as Hnr by (apply Hr2; auto).
    assert (p ≠ nx) as Hne by (intros Heq; apply (Hd12 p); auto; rewrite Heq; auto).
    exists lkp, lk0. eexists. rewrite lookup_insert_ne by done.
    split_and!; [done..|reflexivity| |by apply seg_goal].
    rewrite !lookup_insert_ne, Hs by done.
    rewrite !last_loc_app, !hd_loc_app. simpl. f_equal. f_equal.
    + by apply last_loc_nonempty.
    + by apply hd_loc_nonempty.
Qed.

Lemma od_at_unlinked σ σ' self o o' root l1 x l2 m :
  od_at σ self o root (l1 ++ x :: l2) →
  ob_map o = Some m →
  objs σ' !! self = Some o' →
  ob_root o' = Some root →
  ob_map o' = Some (delete x.2.1 m) →
  ob_dict o' = delete x.2.1 (ob_dict o) →
  links σ' !! root = Some (mkLink (last_loc (l1 ++ l2) root)
                                  (hd_loc (l1 ++ l2) root) None) →
  seg (links σ') root (l1 ++ l2) root →
  od_at σ' self o' root (l1 ++ l2).
Proof.
  intros [Ho Hr Hs Hseg Hl Hkeys (m' & Hm' & Hmap) Hd] Hm Ho' Hr' Hm2 Hd2 Hs' Hseg'.
  assert (m' = m) as -> by congruence.
  rewrite !fmap_app, !fmap_cons in Hkeys. rewrite fmap_app, fmap_cons in Hl.
  assert (∀ n v, (n, (x.2.1, v)) ∈ l1 ++ l2 → False) as Hfresh.
  { intros n v Hin. apply NoDup_app in Hkeys as (_ & Hk1 & [Hk2 _]%NoDup_cons).
    apply elem_of_app in Hin as [Hin | Hin].
    - apply (Hk1 x.2.1); [|clear; set_solver].
      apply list_elem_of_fmap. exists (x.2.1, v). split; [done|].
      apply list_elem_of_fmap. by exists (n, (x.2.1, v)).
    - apply Hk2. apply list_elem_of_fmap. exists (x.2.1, v). split; [done|].
      apply list_elem_of_fmap. by exists (n, (x.2.1, v)). }
  assert (∀ y, y ∈ l1 ++ x :: l2 → y.2.1 ≠ x.2.1 → y ∈ l1 ++ l2) as Hkeep.
  { intros y Hy Hne. clear -Hy Hne. set_solver. }
  split; try done.
  - apply NoDup_cons in Hl as [Hroot Hl]. rewrite fmap_app. apply NoDup_cons.
    split.
    + clear -Hroot. set_solver.
    + apply NoDup_app in Hl as (H1 & H2 & [_ H3]%NoDup_cons).
      apply NoDup_app. split_and!; [done| |done].
      intros n Hn1 Hn2. apply (H2 n Hn1). clear -Hn2. set_solver.
  - rewrite !fmap_app. apply NoDup_app in Hkeys as (H1 & H2 & [_ H3]%NoDup_cons).
    apply NoDup_app. split_and!; [done| |done].
    intros n Hn1 Hn2. apply (H2 n Hn1). clear -Hn2. set_solver.
  - exists (delete x.2.1 m). split; [done|]. intros k n.
    rewrite lookup_delete. case_decide as Hk; subst.
    + split; [done|]. intros (v & Hin). by destruct (Hfresh n v).
    + rewrite Hmap. split; intros (v & Hin); exists v.
      * by apply (Hkeep (n, (k, v))); [|simpl; congruence].
      * clear -Hin. set_solver.
  - intros k v. rewrite Hd2, lookup_delete. case_decide as Hk; subst.
    + split; [done|]. intros ([n [k' v']] & [= <- <-] & Hin)%list_elem_of_fmap.
      by destruct (Hfresh n v).
    + rewrite Hd, !list_elem_of_fmap.
      split; intros ([n [k' v']] & [= <- <-] & Hin); exists (n, (k, v)).
      * split; [done|]. by apply Hkeep; [|simpl; congruence].
      * split; [done|]. clear -Hin. set_solver.
Qed.

Lemma od_at_lookup_dict σ self o root l1 x l2 :
  od_at σ self o root (l1 ++ x :: l2) → ob_dict o !! x.2.1 = Some x.2.2.
Proof.
  intros Hod. apply (od_dict _ _ _ _ _ Hod), list_elem_of_fmap.
  exists x. split; [by destruct x as [? [? ?]] | clear; set_solver].
Qed.

Lemma od_at_lookup_map σ self o root l1 x l2 m :
  od_at σ self o root (l1 ++ x :: l2) → ob_map o = Some m →
  m !! x.2.1 = Some x.1.
Proof.
  intros Hod Hm. destruct (od_map _ _ _ _ _ Hod) as (m' & Hm' & Hmap).
  assert (m' = m) as -> by congruence. apply Hmap. exists x.2.2.
  destruct x as [? [? ?]]. clear; set_solver.
Qed.

Lemma unlink_footprint root l1 (x : loc * (K * V)) l2 :
  last_loc l1 root ∈ root :: (l1 ++ x :: l2).*1
  ∧ hd_loc l2 root ∈ root :: (l1 ++ x :: l2).*1.
Proof.
  rewrite fmap_app, fmap_cons. split.
  - destruct (last_loc_elem l1 root) as [-> | Hin]; clear -Hin || clear;
      set_solver.
  - destruct (hd_loc_elem l2 root) as [-> | Hin]; clear -Hin || clear;
      set_solver.
Qed.

(** ** [__delitem__] *)

Lemma delitem_spec σ self o root l1 x l2 :
  od_at σ self o root (l1 ++ x :: l2) →
  ∃ σ' o',
    OrderedDict___delitem__ self x.2.1 σ = Return tt σ'
    ∧ od_at σ' self o' root (l1 ++ l2)
    ∧ same_attrs o o'
    ∧ modifies σ σ' self (root :: (l1 ++ x :: l2).*1)
    ∧ world σ' = world σ.
Proof.
  intros Hod.
  pose proof (od_at_lookup_dict _ _ _ _ _ _ _ Hod) as Hdx.
  destruct (od_map _ _ _ _ _ Hod) as (m & Hm & _).
  pose proof (od_at_lookup_map _ _ _ _ _ _ _ _ Hod Hm) as Hmx.
  pose proof (seg_lookup _ _ _ _ _ _ (od_seg _ _ _ _ _ Hod)) as Hx.
  destruct (unlink_links _ _ _ _ _ (od_sentinel _ _ _ _ _ Hod)
              (od_seg _ _ _ _ _ Hod) (od_locs _ _ _ _ _ Hod))
    as (lkp & lkx & h2 & Hp & Hnx & -> & Hs2 & Hseg2).
  pose proof (od_obj _ _ _ _ _ Hod) as Ho.
  pose proof (od_root _ _ _ _ _ Hod) as Hr.
  pose proof (unlink_footprint root l1 x l2) as [Hpin Hnin].
  unfold OrderedDict___delitem__. unfold_prims. simpl.
  rewrite Ho. simpl. rewrite Hdx. simpl. rewrite lookup_insert_eq. simpl.
  rewrite Hm, Hmx. simpl. rewrite lookup_insert_eq. simpl.
  rewrite Hx. simpl. rewrite Hp. simpl. rewrite Hnx. simpl.
  eexists _, (mkObject (ob_class o) (delete x.2.1 (ob_dict o)) (ob_root o)
                (Some (delete x.2.1 m)) (default_factory o) (ob_vars o)).
  split; [reflexivity|]. split_and!; try done.
  - eapply od_at_unlinked; try done; simpl.
    by rewrite lookup_insert_eq.
  - split; simpl.
    + intros r Hne _. by rewrite !lookup_insert_ne.
    + intros l Hl _. rewrite !lookup_insert_ne; [done|..].
      all: intros <-; by apply Hl.
    + rewrite !dom_insert_L. clear; set_solver.
    + rewrite !dom_insert_L. clear; set_solver.
Qed.

(** ** [popitem] *)

Lemma unlink_target_other root l1 (x : loc * (K * V)) l2 :
  NoDup (root :: (l1 ++ x :: l2).*1) →
  x.1 ≠ root ∧ x.1 ≠ last_loc l1 root ∧ x.1 ≠ hd_loc l2 root.
Proof.
  rewrite fmap_app, fmap_cons. intros [Hroot Hnd]%NoDup_cons.
  apply NoDup_app in Hnd as (_ & Hdisj & [Hx _]%NoDup_cons).
  assert (x.1 ≠ root) as Hxr by (intros <-; apply Hroot; clear; set_solver).
  split_and!; [done|..].
  - destruct (last_loc_elem l1 root) as [-> | Hin]; [done|].
    intros Heq. apply (Hdisj _ Hin). rewrite <-Heq. clear; set_solver.
  - destruct (hd_loc_elem l2 root) as [-> | Hin]; [done|].
    intros Heq. apply Hx. by rewrite Heq.
Qed.

Lemma popitem_spec σ self o root l1 x l2 (last : bool) :
  od_at σ self o root (l1 ++ x :: l2) →
  (if last then l2 = [] else l1 = []) →
  ∃ σ' o',
    OrderedDict_popitem self last σ = Return x.2 σ'
    ∧ od_at σ' self o' root (l1 ++ l2)
    ∧ same_attrs o o'
    ∧ modifies σ σ' self (root :: (l1 ++ x :: l2).*1)
    ∧ world σ' = world σ.
Proof.
  intros Hod Hend.
  pose proof (od_at_lookup_dict _ _ _ _ _ _ _ Hod) as Hdx.
  destruct (od_map _ _ _ _ _ Hod) as (m & Hm & _).
  pose proof (od_at_lookup_map _ _ _ _ _ _ _ _ Hod Hm) as Hmx.
  pose proof (seg_lookup _ _ _ _ _ _ (od_seg _ _ _ _ _ Hod)) as Hx.
  pose proof (od_sentinel _ _ _ _ _ Hod) as Hs.
  destruct (unlink_links _ _ _ _ _ Hs
              (od_seg _ _ _ _ _ Hod) (od_locs _ _ _ _ _ Hod))
    as (lkp & lkx & h2 & Hp & Hnx & -> & Hs2 & Hseg2).
  pose proof (od_obj _ _ _ _ _ Hod) as Ho.
  pose proof (od_root _ _ _ _ _ Hod) as Hr.
  pose proof (unlink_footprint root l1 x l2) as [Hpin Hnin].
  destruct (unlink_target_other _ _ _ _ (od_locs _ _ _ _ _ Hod))
    as (Hxr & Hxp & Hxn).
  assert (size (ob_dict o) ≠ 0) as Hsz.
  { intros Hz%map_size_empty_iff. by rewrite Hz, lookup_empty in Hdx. }
  assert (OrderedDict_popitem self last σ = Return (x.2.1, x.2.2)
    (mkStore
       (<[hd_loc l2 root:=mkLink (last_loc l1 root) (NEXT lkx) (KEY lkx)]>
          (<[last_loc l1 root:=
               mkLink (PREV lkp) (hd_loc l2 root) (KEY lkp)]> (links σ)))
       (<[self:=mkObject (ob_class o) (delete x.2.1 (ob_dict o)) (ob_root o)
                  (Some (delete x.2.1 m)) (default_factory o) (ob_vars o)]>
          (objs σ))
       (world σ))) as Hrun.
  { unfold OrderedDict_popitem. unfold_prims. simpl.
    rewrite Ho. simpl. rewrite decide_False by done. rewrite Ho, Hr. simpl.
    destruct last; subst; simpl in *; rewrite Hs; simpl.
    - rewrite last_loc_app. simpl. rewrite Hx. simpl. rewrite Hp. simpl.
      rewrite Hnx. simpl. rewrite !lookup_insert_ne, Hx by done. simpl.
      rewrite Ho, Hm, Hmx. simpl. rewrite Ho. simpl.
      rewrite lookup_insert_eq. simpl. rewrite Hdx. simpl.
      by rewrite insert_insert_eq, Hr.
    - rewrite Hx. simpl. rewrite Hs. simpl.
      rewrite Hp in Hs. injection Hs as ->. simpl in Hnx.
      rewrite Hnx. simpl. rewrite !lookup_insert_ne, Hx by done. simpl.
      rewrite Ho, Hm, Hmx. simpl. rewrite Ho. simpl.
      rewrite lookup_insert_eq. simpl. rewrite Hdx. simpl.
      by rewrite insert_insert_eq, Hr. }
  rewrite Hrun.
  eexists _, (mkObject (ob_class o) (delete x.2.1 (ob_dict o)) (ob_root o)
                (Some (delete x.2.1 m)) (default_factory o) (ob_vars o)).
  split; [by destruct x as [? [? ?]]|]. split_and!; try done.
  - eapply od_at_unlinked; try done; simpl.
    by rewrite lookup_insert_eq.
  - split; simpl.
    + intros r Hne _. by rewrite !lookup_insert_ne.
    + intros l Hl _. rewrite !lookup_insert_ne; [done|..].
      all: intros <-; by apply Hl.
    + rewrite !dom_insert_L. clear; set_solver.
    + rewrite !dom_insert_L. clear; set_solver.
Qed.

(** ** Sequences of calls on one instance *)

Lemma modifies_refl σ self F : modifies σ σ self F.
Proof. by split. Qed.

Lemma modifies_trans σ σ1 σ2 self F F' :
  modifies σ σ1 self F → modifies σ1 σ2 self F' →
  (∀ l, l ∈ F' → l ∈ F ∨ l ∉ dom (links σ)) →
  modifies σ σ2 self F.
Proof.
  intros [Ho1 Hl1 Hdl1 Hdo1] [Ho2 Hl2 Hdl2 Hdo2] Hgrow. split.
  - intros r Hne Hr. rewrite Ho2, Ho1; auto.
  - intros l Hl Hdom. rewrite Hl2, Hl1; auto.
    intros Hin. by destruct (Hgrow l Hin).
  - by etrans.
  - by etrans.
Qed.

Lemma same_attrs_refl o : same_attrs o o.
Proof. by repeat split. Qed.

Lemma same_attrs_trans o1 o2 o3 :
  same_attrs o1 o2 → same_attrs o2 o3 → same_attrs o1 o3.
Proof. unfold same_attrs. intros (?&?&?&?) (?&?&?&?). split_and!; congruence. Qed.

Lemma setitems_spec σ self o root nv l :
  od_at σ self o root nv →
  ∃ σ' o' nv',
    setitems self l σ = Return tt σ'
    ∧ od_at σ' self o' root nv'
    ∧ nv'.*2 = alist_update nv.*2 l
    ∧ same_attrs o o'
    ∧ modifies σ σ' self (root :: nv.*1)
    ∧ world σ' = world σ
    ∧ (∀ n, n ∈ nv'.*1 → n ∈ nv.*1 ∨ n ∉ dom (links σ)).
Proof.
  revert σ o nv. induction l as [|[k v] l IH]; intros σ o nv Hod; simpl.
  - exists σ, o, nv.
    split_and!;
      first [done | apply same_attrs_refl | apply modifies_refl | by left].
  - destruct (setitem_spec _ _ _ _ _ k v Hod)
      as (σ1 & o1 & nv1 & Hrun1 & Hod1 & Hkv1 & Hsame1 & Hmod1 & Hw1 & Hgrow1).
    destruct (IH _ _ _ Hod1)
      as (σ2 & o2 & nv2 & Hrun2 & Hod2 & Hkv2 & Hsame2 & Hmod2 & Hw2 & Hgrow2).
    exists σ2, o2, nv2. unfold mbind, M_bind, bind. rewrite Hrun1, Hrun2.
    split_and!; try done.
    + by rewrite Hkv2, Hkv1.
    + by eapply same_attrs_trans.
    + eapply modifies_trans; [done..|].
      intros n [-> | Hn]%elem_of_cons; [left; clear; set_solver|].
      destruct (Hgrow1 n Hn) as [Hin | Hout]; [left | by right].
      clear -Hin. set_solver.
    + congruence.
    + intros n Hn. destruct (Hgrow2 n Hn) as [Hin | Hout]; [by apply Hgrow1|].
      right. intros Hdom. apply Hout. by apply (mod_dom_links _ _ _ _ Hmod1).
Qed.

(** ** [update] *)

Lemma update_pairs_spec σ self o root nv l fuel :
  od_at σ self o root nv →
  ∃ σ' o' nv',
    OrderedDict_update fuel self [PyPairs l] σ = Return tt σ'
    ∧ od_at σ' self o' root nv'
    ∧ nv'.*2 = alist_update nv.*2 l
    ∧ same_attrs o o'
    ∧ modifies σ σ' self (root :: nv.*1)
    ∧ world σ' = world σ
    ∧ (∀ n, n ∈ nv'.*1 → n ∈ nv.*1 ∨ n ∉ dom (links σ)).
Proof.
  intros Hod. unfold OrderedDict_update. simpl.
  try rewrite decide_False by lia. by apply setitems_spec.
Qed.

Lemma update_none_spec σ self o root nv fuel :
  od_at σ self o root nv →
  OrderedDict_update fuel self [] σ = Return tt σ.
Proof. intros Hod. unfold OrderedDict_update. simpl. by try rewrite decide_False by lia. Qed.

Lemma update_od_spec σ self o root nv other oo ro nvo fuel :
  od_at σ self o root nv → od_at σ other oo ro nvo → other ≠ self →
  (∀ l, l ∈ ro :: nvo.*1 → l ∉ root :: nv.*1) →
  length nvo < fuel →
  ∃ σ' o' nv',
    OrderedDict_update fuel self [PyOD other] σ = Return tt σ'
    ∧ od_at σ' self o' root nv'
    ∧ od_at σ' other oo ro nvo
    ∧ nv'.*2 = alist_update nv.*2 nvo.*2
    ∧ same_attrs o o'
    ∧ modifies σ σ' self (root :: nv.*1)
    ∧ world σ' = world σ
    ∧ (∀ n, n ∈ nv'.*1 → n ∈ nv.*1 ∨ n ∉ dom (links σ)).
Proof.
  intros Hod Hoth Hne Hsep Hfuel.
  set (R := λ (rest : list (loc * (K * V))) (acc : list unit) (τ : Store),
    ∃ pre o' nv',
      nvo = pre ++ rest
      ∧ od_at τ self o' root nv'
      ∧ od_at τ other oo ro nvo
      ∧ nv'.*2 = alist_update nv.*2 pre.*2
      ∧ same_attrs o o'
      ∧ modifies σ τ self (root :: nv.*1)
      ∧ world τ = world σ
      ∧ (∀ n, n ∈ nv'.*1 → n ∈ nv.*1 ∨ n ∉ dom (links σ))).
  assert (R nvo [] σ) as HR.
  { exists [], o, nv.
    split_and!;
      first [done | apply same_attrs_refl | apply modifies_refl | by left]. }
  destruct (iter_from_spec
              (λ key, v ← getitem other key; OrderedDict___setitem__ self key v)
              ro R) with (nv := nvo) (acc := @nil unit) (σ := σ) (fuel := fuel)
    as (xs & σ' & Hrun & pre & o' & nv' & Hpre & Hod' & Hoth' & Hkv & Hsame
        & Hmod & Hw & Hgrow); [|done..|].
  - intros x rest acc τ
      (pre & o' & nv' & Hpre & Hod' & Hoth' & Hkv & Hsame & Hmod & Hw & Hgrow).
    pose proof Hoth' as Hoth2. rewrite Hpre in Hoth2.
    pose proof (seg_lookup _ _ _ _ _ _ (od_seg _ _ _ _ _ Hoth2)) as Hx.
    destruct (unlink_target_other _ _ _ _ (od_locs _ _ _ _ _ Hoth2))
      as (Hxr & _ & _).
    split_and!; [done|by eauto|].
    destruct (setitem_spec _ _ _ _ _ x.2.1 x.2.2 Hod')
      as (τ' & o'' & nv'' & Hrun & Hod'' & Hkv' & Hsame' & Hmod' & Hw' & Hgrow').
    assert (∀ l, l ∈ ro :: nvo.*1 → l ∉ root :: nv'.*1) as Hsep'.
    { intros l Hl Hin. apply elem_of_cons in Hin as [-> | Hin].
      - apply (Hsep root Hl). clear; set_solver.
      - destruct (Hgrow l Hin) as [Hin' | Hout].
        + apply (Hsep l Hl). clear -Hin'. set_solver.
        + apply Hout. by eapply od_at_dom. }
    assert (od_at τ' other oo ro nvo) as Hoth''.
    { by eapply od_at_frame. }
    exists tt, τ'. split_and!.
    + unfold mbind, M_bind, bind.
      rewrite (getitem_present τ other oo ro nvo x.2.1 x.2.2); [done..|].
      rewrite Hpre. apply list_elem_of_fmap. exists x.
      split; [by destruct x as [? [? ?]] | clear; set_solver].
    + exists (pre ++ [x]), o'', nv''. rewrite <-app_assoc. split_and!; try done.
      * rewrite Hkv', Hkv, fmap_app. unfold alist_update.
        by rewrite foldl_app.
      * by eapply same_attrs_trans.
      * eapply modifies_trans; [done..|].
        intros n [-> | Hn]%elem_of_cons; [left; clear; set_solver|].
        destruct (Hgrow n Hn) as [Hin | Hout]; [left | by right].
        clear -Hin. set_solver.
      * congruence.
      * intros n Hn. destruct (Hgrow' n Hn) as [Hin | Hout]; [by apply Hgrow|].
        right. intros Hdom. apply Hout. by apply (mod_dom_links _ _ _ _ Hmod).
    + rewrite Hpre in Hoth''.
      pose proof (seg_lookup _ _ _ _ _ _ (od_seg _ _ _ _ _ Hoth'')) as Hx'.
      eauto.
  - rewrite app_nil_r in Hpre. subst pre.
    exists σ', o', nv'. split_and!; try done.
    unfold OrderedDict_update. simpl. try rewrite decide_False by lia.
    unfold OrderedDict___iter__. unfold_prims.
    rewrite (od_obj _ _ _ _ _ Hoth), (od_root _ _ _ _ _ Hoth),
      (od_sentinel _ _ _ _ _ Hoth). simpl.
    unfold mbind, M_bind, bind in Hrun. by rewrite Hrun.
Qed.

(** ** [__init__] on a new instance *)

Lemma init_fresh σ r c fuel a :
  objs σ !! r = Some (mkObject c ∅ None None None ∅) → length a ≤ 1 →
  let l := fresh (dom (links σ)) in
  let o1 := mkObject c ∅ (Some l) (Some ∅) None ∅ in
  let σ1 := mkStore (<[l:=mkLink l l None]> (links σ)) (<[r:=o1]> (objs σ))
                    (world σ) in
  OrderedDict___init__ fuel r a σ = OrderedDict_update fuel r a σ1
  ∧ od_at σ1 r o1 l []
  ∧ modifies σ σ1 r [].
Proof.
  intros Ho Hlen l o1 σ1. split_and!.
  - unfold OrderedDict___init__. rewrite decide_False by lia.
    unfold_prims. simpl. rewrite Ho. simpl. rewrite Ho. simpl.
    rewrite lookup_insert_eq. simpl. by rewrite insert_insert_eq.
  - split; simpl; try done.
    + by rewrite lookup_insert_eq.
    + by rewrite lookup_insert_eq.
    + apply NoDup_singleton.
    + apply NoDup_nil_2.
    + exists ∅. split; [done|]. intros k n. rewrite lookup_empty.
      split; [done|]. by intros (v & ?%elem_of_nil).
    + intros k v. rewrite lookup_empty. split; [done|]. by intros ?%elem_of_nil.
  - split; simpl.
    + intros r' Hne _. by rewrite lookup_insert_ne.
    + intros l' _ Hdom. rewrite lookup_insert_ne; [done|].
      intros <-. by apply is_fresh in Hdom.
    + rewrite dom_insert_L. clear; set_solver.
    + rewrite dom_insert_L. clear; set_solver.
Qed.

Lemma init_spec σ r c fuel a src :
  objs σ !! r = Some (mkObject c ∅ None None None ∅) →
  init_arg σ fuel a src →
  ∃ σ' o' root nv',
    OrderedDict___init__ fuel r a σ = Return tt σ'
    ∧ od_at σ' r o' root nv'
    ∧ nv'.*2 = alist_update [] src
    ∧ ob_class o' = c ∧ default_factory o' = None ∧ ob_vars o' = ∅
    ∧ modifies σ σ' r []
    ∧ world σ' = world σ
    ∧ (∀ l, l ∈ root :: nv'.*1 → l ∉ dom (links σ)).
Proof.
  intros Ho Harg.
  assert (length a ≤ 1) as Hlen.
  { destruct Harg as [[-> _] | [-> | (? & ? & ? & ? & -> & _)]]; simpl; lia. }
  destruct (init_fresh σ r c fuel a Ho Hlen) as (Hrun & Hod1 & Hmod1).
  set (l := fresh (dom (links σ))) in *.
  set (o1 := mkObject c ∅ (Some l) (Some ∅) None ∅) in *.
  set (σ1 := mkStore _ _ _) in *.
  assert (l ∉ dom (links σ)) as Hl by apply is_fresh.
  assert (∃ σ' o' nv',
    OrderedDict_update fuel r a σ1 = Return tt σ'
    ∧ od_at σ' r o' l nv'
    ∧ nv'.*2 = alist_update [] src
    ∧ same_attrs o1 o'
    ∧ modifies σ1 σ' r [l]
    ∧ world σ' = world σ1
    ∧ (∀ n, n ∈ nv'.*1 → n ∈ [] ∨ n ∉ dom (links σ1)))
    as (σ' & o' & nv' & Hupd & Hod' & Hkv & Hsame & Hmod & Hw & Hgrow).
  { destruct Harg as [[-> ->] | [-> | (other & oo & ro & nvo & -> & Hoth & <- & Hfuel)]].
    - exists σ1, o1, []. rewrite (update_none_spec _ _ _ _ _ _ Hod1).
      split_and!;
        first [done | apply same_attrs_refl | apply modifies_refl | by left].
    - apply (update_pairs_spec _ _ _ _ _ src fuel Hod1).
    - assert (other ≠ r) as Hne.
      { intros ->. rewrite (od_obj _ _ _ _ _ Hoth) in Ho. injection Ho as ->.
        by pose proof (od_root _ _ _ _ _ Hoth). }
      assert (od_at σ1 other oo ro nvo) as Hoth1.
      { eapply od_at_frame; [done..|]. intros ? _. apply not_elem_of_nil. }
      destruct (update_od_spec _ _ _ _ _ _ _ _ _ fuel Hod1 Hoth1 Hne)
        as (σ' & o' & nv' & ? & ? & ? & ? & ? & ? & ? & ?); [|done|].
      + intros n Hn ->%list_elem_of_singleton. apply Hl.
        by eapply od_at_dom.
      + exists σ', o', nv'. by split_and!. }
  exists σ', o', l, nv'. rewrite Hrun.
  destruct Hsame as (Hc & Hf & Hv & _).
  split_and!; try done.
  - eapply modifies_trans; [done..|].
    intros n ->%list_elem_of_singleton. by right.
  - intros n [-> | Hn]%elem_of_cons; [done|].
    destruct (Hgrow n Hn) as [?%elem_of_nil | Hout]; [done|].
    intros Hdom. apply Hout. by apply (mod_dom_links _ _ _ _ Hmod1).
Qed.

(** ** Creating instances *)

Lemma new_object_modifies σ c :
  let r := fresh (dom (objs σ)) in
  let σ0 := mkStore (links σ) (<[r:=mkObject c ∅ None None None ∅]> (objs σ))
                    (world σ) in
  modifies σ σ0 r [] ∧ r ∉ dom (objs σ).
Proof.
  intros r σ0. assert (r ∉ dom (objs σ)) as Hr by apply is_fresh.
  split; [|done]. split; simpl; try done.
  - intros r' Hne _. by rewrite lookup_insert_ne.
  - rewrite dom_insert_L. clear; set_solver.
Qed.

Lemma od_at_other σ σ' r other oo ro nvo :
  od_at σ other oo ro nvo → modifies σ σ' r [] → r ∉ dom (objs σ) →
  od_at σ' other oo ro nvo.
Proof.
  intros Hoth Hmod Hr. eapply od_at_frame; [done..| |].
  - intros ->. apply Hr, elem_of_dom. rewrite (od_obj _ _ _ _ _ Hoth). eauto.
  - intros ? _. apply not_elem_of_nil.
Qed.

Lemma init_arg_frame σ σ' r fuel a src :
  init_arg σ fuel a src → modifies σ σ' r [] → r ∉ dom (objs σ) →
  init_arg σ' fuel a src.
Proof.
  intros [Ha | [Ha | (other & oo & ro & nvo & Ha & Hoth & Hsrc & Hfuel)]] Hmod Hr.
  - by left.
  - right. by left.
  - right. right. exists other, oo, ro, nvo. split_and!; try done.
    by eapply od_at_other.
Qed.

Lemma od_at_set_factory σ r o root nv f :
  od_at σ r o root nv →
  od_at (mkStore (links σ)
           (<[r:=mkObject (ob_class o) (ob_dict o) (ob_root o) (ob_map o)
                   (Some f) (ob_vars o)]> (objs σ)) (world σ))
        r (mkObject (ob_class o) (ob_dict o) (ob_root o) (ob_map o)
             (Some f) (ob_vars o)) root nv.
Proof.
  intros [Ho Hr Hs Hseg Hl Hkeys Hm Hd]. split; simpl; try done.
  by rewrite lookup_insert_eq.
Qed.

Lemma construct_spec σ fuel c args src :
  (c = DefaultOrderedDict →
   (is_none (default PyNone (head args))
    || is_callable (default PyNone (head args))) = true) →
  init_arg σ fuel (match c with OrderedDict => args | _ => tail args end) src →
  ∃ σ' o' root nv',
    construct fuel c args σ = Return (fresh (dom (objs σ))) σ'
    ∧ od_at σ' (fresh (dom (objs σ))) o' root nv'
    ∧ nv'.*2 = alist_update [] src
    ∧ ob_class o' = c
    ∧ default_factory o' =
        match c with
        | OrderedDict => None
        | DefaultOrderedDict => Some (default PyNone (head args))
        end
    ∧ ob_vars o' = ∅
    ∧ modifies σ σ' (fresh (dom (objs σ))) []
    ∧ world σ' = world σ
    ∧ (∀ l, l ∈ root :: nv'.*1 → l ∉ dom (links σ)).
Proof.
  intros Hfac Harg.
  destruct (new_object_modifies σ c) as [Hmod0 Hr].
  set (r := fresh (dom (objs σ))) in *.
  set (σ0 := mkStore _ _ _) in Hmod0.
  assert (objs σ0 !! r = Some (mkObject c ∅ None None None ∅)) as Ho0
    by apply lookup_insert_eq.
  destruct (init_spec σ0 r c fuel _ src Ho0
              (init_arg_frame _ _ _ _ _ _ Harg Hmod0 Hr))
    as (σ1 & o1 & root & nv1 & Hrun & Hod1 & Hkv & Hc & Hf & Hv & Hmod1 & Hw
        & Hfp).
  assert (modifies σ σ1 r []) as Hmod.
  { eapply modifies_trans; [done..|]. by intros l ?%elem_of_nil. }
  destruct c.
  - exists σ1, o1, root, nv1. unfold construct. unfold_prims. fold r σ0.
    rewrite Hrun. by split_and!.
  - pose proof (od_at_set_factory _ _ _ _ _ (default PyNone (head args)) Hod1)
      as Hod2.
    eexists _, _, root, nv1. split_and!; [|exact Hod2|try done..].
    + unfold construct, DefaultOrderedDict___init__. unfold_prims. fold r σ0.
      assert (negb (is_none (default PyNone (head args)))
              && negb (is_callable (default PyNone (head args))) = false) as Hb.
      { specialize (Hfac eq_refl). by destruct (default PyNone (head args)). }
      rewrite Hb, Hrun. simpl.
      by rewrite (od_obj _ _ _ _ _ Hod1).
    + destruct Hmod as [Ho Hl Hdl Hdo]. split; simpl; try done.
      * intros r' Hne Hr'. rewrite lookup_insert_ne by done. by apply Ho.
      * rewrite dom_insert_L. clear -Hdo. set_solver.
Qed.

(** ** Insertion-ordered lists of pairs *)

Lemma alist_update_fresh kvs l :
  NoDup (kvs ++ l).*1 → alist_update kvs l = kvs ++ l.
Proof.
  revert kvs. induction l as [|[k v] l IH]; intros kvs Hnd; simpl.
  - by rewrite app_nil_r.
  - unfold alist_update in *. simpl. rewrite alist_set_absent.
    + rewrite IH; rewrite <-app_assoc; [done|]. by simpl.
    + rewrite fmap_app in Hnd. apply NoDup_app in Hnd as (_ & Hnd & _).
      intros Hin. apply (Hnd k Hin). simpl. clear; set_solver.
Qed.

Lemma alist_update_nil l : NoDup l.*1 → alist_update [] l = l.
Proof. intros Hnd. by rewrite alist_update_fresh. Qed.

Lemma alist_remove_absent (l : list (K * V)) k :
  k ∉ l.*1 → alist_remove l k = l.
Proof.
  unfold alist_remove. induction l as [|y l IH]; [done|]. rewrite fmap_cons.
  intros [Hy Hl]%not_elem_of_cons.
  rewrite filter_cons_True by done. by rewrite IH.
Qed.

Lemma alist_remove_split (l1 : list (K * V)) x l2 :
  NoDup (l1 ++ x :: l2).*1 → alist_remove (l1 ++ x :: l2) x.1 = l1 ++ l2.
Proof.
  rewrite fmap_app, fmap_cons. intros (Hd1 & Hdisj & [Hx Hd2]%NoDup_cons)%NoDup_app.
  pose proof (alist_remove_absent l1 x.1) as H1.
  pose proof (alist_remove_absent l2 x.1 Hx) as H2.
  unfold alist_remove in *.
  rewrite filter_app, filter_cons_False by naive_solver.
  rewrite H1, H2; [done|]. intros Hin. apply (Hdisj _ Hin). clear; set_solver.
Qed.

(** ** Instances as insertion-ordered lists of pairs *)

Lemma factory_ok_same o o' : same_attrs o o' → factory_ok o → factory_ok o'.
Proof. unfold factory_ok. intros (-> & -> & _). done. Qed.

Lemma represents_NoDup σ self kvs : represents σ self kvs → NoDup kvs.*1.
Proof. intros (o & root & nv & Hod & _ & <-). apply Hod. Qed.

Lemma represents_lookup σ self kvs k v :
  represents σ self kvs → (k, v) ∈ kvs → getitem self k σ = Return v σ.
Proof.
  intros (o & root & nv & Hod & _ & <-) Hin. by eapply getitem_present.
Qed.

Lemma setitem_represents σ self kvs k v :
  represents σ self kvs →
  ∃ σ', OrderedDict___setitem__ self k v σ = Return tt σ'
        ∧ represents σ' self (alist_set kvs k v)
        ∧ world σ' = world σ.
Proof.
  intros (o & root & nv & Hod & Hfac & <-).
  destruct (setitem_spec _ _ _ _ _ k v Hod)
    as (σ' & o' & nv' & Hrun & Hod' & Hkv & Hsame & _ & Hw & _).
  exists σ'. split_and!; [done| |done].
  exists o', root, nv'. split_and!; [done| |done]. by eapply factory_ok_same.
Qed.

Lemma setitems_represents σ self kvs l :
  represents σ self kvs →
  ∃ σ', setitems self l σ = Return tt σ'
        ∧ represents σ' self (alist_update kvs l)
        ∧ world σ' = world σ.
Proof.
  intros (o & root & nv & Hod & Hfac & <-).
  destruct (setitems_spec _ _ _ _ _ l Hod)
    as (σ' & o' & nv' & Hrun & Hod' & Hkv & Hsame & _ & Hw & _).
  exists σ'. split_and!; [done| |done].
  exists o', root, nv'. split_and!; [done| |done]. by eapply factory_ok_same.
Qed.

Lemma construct_represents σ fuel l :
  ∃ σ', construct fuel OrderedDict [PyPairs l] σ
          = Return (fresh (dom (objs σ))) σ'
        ∧ represents σ' (fresh (dom (objs σ))) (alist_update [] l)
        ∧ world σ' = world σ.
Proof.
  destruct (construct_spec σ fuel OrderedDict [PyPairs l] l)
    as (σ' & o' & root & nv' & Hrun & Hod & Hkv & Hc & _ & _ & _ & Hw & _).
  - done.
  - right. by left.
  - exists σ'. split_and!; [done| |done]. exists o', root, nv'.
    split_and!; [done| |done]. unfold factory_ok. by rewrite Hc.
Qed.

Lemma construct_empty_represents σ fuel :
  ∃ σ', construct fuel OrderedDict [] σ = Return (fresh (dom (objs σ))) σ'
        ∧ represents σ' (fresh (dom (objs σ))) []
        ∧ world σ' = world σ.
Proof.
  destruct (construct_spec σ fuel OrderedDict [] [])
    as (σ' & o' & root & nv' & Hrun & Hod & Hkv & Hc & _ & _ & _ & Hw & _).
  - done.
  - by left.
  - exists σ'. split_and!; [done| |done]. exists o', root, nv'.
    split_and!; [done| |done]. unfold factory_ok. by rewrite Hc.
Qed.

Lemma nv_split (nv : list (loc * (K * V))) l1 x l2 :
  nv.*2 = l1 ++ x :: l2 →
  ∃ n1 y n2, nv = n1 ++ y :: n2 ∧ n1.*2 = l1 ∧ y.2 = x ∧ n2.*2 = l2.
Proof.
  intros (n1 & n2' & -> & Hn2 & ->)%fmap_app_inv.
  symmetry in Hn2. apply fmap_cons_inv in Hn2 as (y & n2 & -> & -> & ->).
  by exists n1, y, n2.
Qed.

Lemma popitem_represents σ self l1 x l2 (last : bool) :
  represents σ self (l1 ++ x :: l2) →
  (if last then l2 = [] else l1 = []) →
  ∃ σ', OrderedDict_popitem self last σ = Return x σ'
        ∧ represents σ' self (l1 ++ l2)
        ∧ world σ' = world σ.
Proof.
  intros (o & root & nv & Hod & Hfac & Hkv) Hend.
  apply nv_split in Hkv as (n1 & y & n2 & -> & <- & <- & <-).
  destruct (popitem_spec _ _ _ _ _ _ _ last Hod)
    as (σ' & o' & Hrun & Hod' & Hsame & _ & Hw).
  { destruct last; by destruct n1, n2. }
  exists σ'. split_and!; [done| |done].
  exists o', root, (n1 ++ n2). split_and!; [done| |by rewrite fmap_app].
  by eapply factory_ok_same.
Qed.

Lemma represents_empty_dict σ self o root nv :
  od_at σ self o root nv → nv = [] → ob_dict o = ∅.
Proof.
  intros Hod ->. apply map_eq. intros k. rewrite lookup_empty.
  destruct (ob_dict o !! k) as [v|] eqn:E; [|done].
  by apply (od_dict _ _ _ _ _ Hod), elem_of_nil in E.
Qed.

Lemma popitem_empty σ self (last : bool) :
  represents σ self [] →
  OrderedDict_popitem self last σ
  = Raise (Exn KeyError (inr "dictionary is empty")) σ.
Proof.
  intros (o & root & nv & Hod & _ & Hkv). apply fmap_nil_inv in Hkv.
  unfold OrderedDict_popitem. unfold_prims.
  rewrite (od_obj _ _ _ _ _ Hod), (represents_empty_dict _ _ _ _ _ Hod Hkv).
  by rewrite map_size_empty.
Qed.

(** ** [pop] *)

Lemma pop_present σ self l1 x l2 default :
  represents σ self (l1 ++ x :: l2) →
  ∃ σ', OrderedDict_pop self x.1 default σ = Return x.2 σ'
        ∧ represents σ' self (l1 ++ l2)
        ∧ world σ' = world σ.
Proof.
  intros (o & root & nv & Hod & Hfac & Hkv).
  apply nv_split in Hkv as (n1 & y & n2 & -> & <- & <- & <-).
  destruct (delitem_spec _ _ _ _ _ _ _ Hod)
    as (σ' & o' & Hrun & Hod' & Hsame & _ & Hw).
  exists σ'. split_and!; [|exists o', root, (n1 ++ n2)|done].
  - unfold OrderedDict_pop. unfold mbind, M_bind, bind.
    unfold dict___contains__. unfold_prims.
    rewrite (od_obj _ _ _ _ _ Hod), (od_at_lookup_dict _ _ _ _ _ _ _ Hod).
    simpl.
    rewrite (getitem_present σ self o root _ y.2.1 y.2.2 Hod), Hrun; [done|].
    apply list_elem_of_fmap. exists y.
    split; [by destruct y as [? [? ?]] | clear; set_solver].
  - split_and!; [done| |by rewrite fmap_app]. by eapply factory_ok_same.
Qed.

Lemma pop_absent σ self kvs k default :
  represents σ self kvs → k ∉ kvs.*1 →
  OrderedDict_pop self k default σ
  = match default with
    | None => Raise (Exn KeyError (inl k)) σ
    | Some d => Return d σ
    end.
Proof.
  intros (o & root & nv & Hod & Hfac & <-) Hk.
  unfold OrderedDict_pop, dict___contains__. unfold_prims.
  rewrite (od_obj _ _ _ _ _ Hod), (od_at_absent _ _ _ _ _ _ Hod Hk). simpl.
  by destruct default.
Qed.

(** ** [DefaultOrderedDict.__getitem__] on a missing key *)

Lemma od_at_world σ self o root nv w :
  od_at σ self o root nv →
  od_at (mkStore (links σ) (objs σ) w) self o root nv.
Proof. by intros [? ? ? ? ? ? ? ?]. Qed.

Lemma getitem_vivify σ self o root nv k g v w :
  od_at σ self o root nv → ob_class o = DefaultOrderedDict →
  default_factory o = Some (PyCallable g) → k ∉ nv.*2.*1 →
  call g (world σ) = (v, w) →
  ∃ σ' o',
    getitem self k σ = Return v σ'
    ∧ od_at σ' self o' root (nv ++ [(fresh (dom (links σ)), (k, v))])
    ∧ same_attrs o o'
    ∧ world σ' = w.
Proof.
  intros Hod Hc Hf Hk Hcall.
  pose proof (od_at_world _ _ _ _ _ w Hod) as Hodw.
  destruct (setitem_new _ _ _ _ _ _ v Hodw Hk)
    as (σ' & o' & Hrun & Hod' & Hsame & _ & _ & Hw).
  exists σ', o'. split_and!; try done.
  unfold getitem, DefaultOrderedDict___getitem__, OrderedDict___getitem__,
    DefaultOrderedDict___missing__.
  unfold get_default_factory, call_callable, get_obj, try_except,
    mbind, M_bind, bind, mret, M_ret, ret, raise.
  rewrite (od_obj _ _ _ _ _ Hod), Hc, (od_obj _ _ _ _ _ Hod),
    (od_at_absent _ _ _ _ _ _ Hod Hk), Hc, (od_obj _ _ _ _ _ Hod), Hf, Hcall.
  by rewrite Hrun.
Qed.

Lemma getitem_no_factory σ self o root nv k :
  od_at σ self o root nv → ob_class o = DefaultOrderedDict →
  default_factory o = Some PyNone → k ∉ nv.*2.*1 →
  getitem self k σ = Raise (Exn KeyError (inl k)) σ.
Proof.
  intros Hod Hc Hf Hk.
  unfold getitem, DefaultOrderedDict___getitem__, OrderedDict___getitem__,
    DefaultOrderedDict___missing__.
  unfold get_default_factory, call_callable, get_obj, try_except,
    mbind, M_bind, bind, mret, M_ret, ret, raise.
  rewrite (od_obj _ _ _ _ _ Hod), Hc, (od_obj _ _ _ _ _ Hod),
    (od_at_absent _ _ _ _ _ _ Hod Hk), Hc, (od_obj _ _ _ _ _ Hod), Hf.
  simpl. by rewrite (od_obj _ _ _ _ _ Hod), Hf.
Qed.

Lemma getitem_absent_plain σ self o root nv k :
  od_at σ self o root nv → ob_class o = OrderedDict → k ∉ nv.*2.*1 →
  getitem self k σ = Raise (Exn KeyError (inl k)) σ.
Proof.
  intros Hod Hc Hk. unfold getitem, OrderedDict___getitem__. unfold_prims.
  rewrite (od_obj _ _ _ _ _ Hod), Hc, (od_obj _ _ _ _ _ Hod),
    (od_at_absent _ _ _ _ _ _ Hod Hk), Hc. done.
Qed.

(** ** [__eq__] *)

Lemma eq_od_spec σ a oa ra nva b ob rb nvb fuel :
  od_at σ a oa ra nva → od_at σ b ob rb nvb →
  length nva < fuel → length nvb < fuel →
  OrderedDict___eq__ fuel a (OtherOD b) σ
  = Return (bool_decide (size (ob_dict oa) = size (ob_dict ob))
            && bool_decide (nva.*2 = nvb.*2)) σ.
Proof.
  intros Ha Hb Hfa Hfb. unfold OrderedDict___eq__, dict___len__.
  unfold get_obj, mbind, M_bind, bind, mret, M_ret, ret.
  rewrite (od_obj _ _ _ _ _ Ha), (od_obj _ _ _ _ _ Hb).
  destruct (decide (size (ob_dict oa) = size (ob_dict ob))) as [Heq | Hne].
  - rewrite (items_od_at _ _ _ _ _ _ Ha Hfa), (items_od_at _ _ _ _ _ _ Hb Hfb).
    by rewrite (bool_decide_eq_true_2 _ Heq).
  - by rewrite (bool_decide_eq_false_2 _ Hne).
Qed.

Lemma eq_dict_spec σ a oa ra nva d fuel :
  od_at σ a oa ra nva →
  OrderedDict___eq__ fuel a (OtherDict d) σ
  = Return (bool_decide (ob_dict oa = d)) σ.
Proof.
  intros Ha. unfold OrderedDict___eq__. unfold_prims.
  by rewrite (od_obj _ _ _ _ _ Ha).
Qed.

Lemma od_at_dict_eq σ a oa ra nva (d : gmap K V) :
  od_at σ a oa ra nva → (∀ k v, d !! k = Some v ↔ (k, v) ∈ nva.*2) →
  ob_dict oa = d.
Proof.
  intros Ha Hd. apply map_eq. intros k. apply option_eq. intros v.
  by rewrite (od_dict _ _ _ _ _ Ha), Hd.
Qed.

(** ** Copies *)

Lemma copy_spec σ self o root nv fuel (default : bool) :
  od_at σ self o root nv → factory_ok o → length nv < fuel →
  ob_class o = (if default then DefaultOrderedDict else OrderedDict) →
  ∃ σ' o' root' nv',
    (if default then DefaultOrderedDict_copy fuel self σ
     else OrderedDict_copy fuel self σ)
    = Return (fresh (dom (objs σ))) σ'
    ∧ od_at σ' (fresh (dom (objs σ))) o' root' nv'
    ∧ nv'.*2 = nv.*2
    ∧ ob_class o' = ob_class o
    ∧ (default = true → default_factory o' = default_factory o)
    ∧ factory_ok o'
    ∧ od_at σ' self o root nv
    ∧ modifies σ σ' (fresh (dom (objs σ))) []
    ∧ world σ' = world σ
    ∧ (∀ l, l ∈ root' :: nv'.*1 → l ∉ dom (links σ)).
Proof.
  intros Hod Hfac Hfuel Hc.
  assert (init_arg σ fuel [PyOD self] nv.*2) as Harg.
  { right. right. by exists self, o, root, nv. }
  assert (∃ f, (default = true → default_factory o = Some f
                  ∧ (is_none f || is_callable f) = true)) as (f & Hf).
  { destruct default.
    - unfold factory_ok in Hfac. rewrite Hc in Hfac.
      destruct Hfac as (f & ? & ?). by exists f.
    - by exists PyNone. }
  destruct (construct_spec σ fuel (ob_class o)
              (if default then [f; PyOD self] else [PyOD self]) nv.*2)
    as (σ' & o' & root' & nv' & Hrun & Hod' & Hkv & Hc' & Hf' & _ & Hmod & Hw
        & Hfp).
  { rewrite Hc. destruct default; [|done]. intros _. by apply Hf. }
  { rewrite Hc. by destruct default. }
  exists σ', o', root', nv'.
  rewrite alist_update_nil in Hkv by apply Hod.
  split_and!; try done.
  - unfold DefaultOrderedDict_copy, DefaultOrderedDict___copy__,
      OrderedDict_copy.
    unfold get_default_factory, get_obj, mbind, M_bind, bind, mret, M_ret, ret.
    rewrite (od_obj _ _ _ _ _ Hod). destruct default; [|done].
    destruct (Hf eq_refl) as [Hfo _]. by rewrite (od_obj _ _ _ _ _ Hod), Hfo.
  - intros ->. rewrite Hf', Hc. simpl. symmetry. by apply Hf.
  - unfold factory_ok. rewrite Hc', Hf', Hc. destruct default; [|done].
    exists f. simpl. split; [done|]. by apply Hf.
  - eapply od_at_other; [done..|]. apply is_fresh.
Qed.

(** ** [__reduce__] and rebuilding *)

Lemma od_at_set_vars σ r o root nv vars :
  od_at σ r o root nv →
  od_at (mkStore (links σ)
           (<[r:=mkObject (ob_class o) (ob_dict o) (ob_root o) (ob_map o)
                   (default_factory o) vars]> (objs σ)) (world σ))
        r (mkObject (ob_class o) (ob_dict o) (ob_root o) (ob_map o)
             (default_factory o) vars) root nv.
Proof.
  intros [Ho Hr Hs Hseg Hl Hkeys Hm Hd]. split; simpl; try done.
  by rewrite lookup_insert_eq.
Qed.

Lemma od_at_put_other σ self o root nv r o' :
  od_at σ self o root nv → r ≠ self →
  od_at (mkStore (links σ) (<[r:=o']> (objs σ)) (world σ)) self o root nv.
Proof.
  intros [Ho Hr Hs Hseg Hl Hkeys Hm Hd] Hne. split; simpl; try done.
  by rewrite lookup_insert_ne.
Qed.

Lemma reduce_plain_spec σ self o root nv fuel :
  od_at σ self o root nv → ob_class o = OrderedDict → length nv < fuel →
  ∃ σ' rv,
    reduce fuel self σ = Return rv σ'
    ∧ rv_callable rv = OrderedDict
    ∧ rv_args rv = [PyPairs nv.*2]
    ∧ rv_dictitems rv = None
    ∧ od_at σ' self o root nv
    ∧ world σ' = world σ.
Proof.
  intros Hod Hc Hfuel.
  destruct (construct_spec σ fuel OrderedDict [] [])
    as (σ' & o' & root' & nv' & Hrun & _ & _ & _ & _ & _ & Hmod & Hw & _);
    [done | by left |].
  assert (od_at σ' self o root nv) as Hod'.
  { eapply od_at_other; [done..|]. apply is_fresh. }
  exists σ'.
  eexists (mkReduce OrderedDict [PyPairs nv.*2]
             (if decide (ob_vars o = ∅) then None else Some (ob_vars o)) None).
  split_and!; try done.
  unfold reduce, OrderedDict___reduce__.
  unfold get_obj, mbind, M_bind, bind, mret, M_ret, ret.
  rewrite (od_obj _ _ _ _ _ Hod), Hc.
  pose proof (items_od_at _ _ _ _ _ _ Hod Hfuel) as Hitems.
  unfold OrderedDict_items, mbind, M_bind, bind, mret, M_ret, ret in Hitems.
  rewrite Hitems, (od_obj _ _ _ _ _ Hod), Hrun, Hc.
  by destruct (decide (ob_vars o = ∅)).
Qed.

Lemma reduce_default_spec σ self o root nv fuel f :
  od_at σ self o root nv → ob_class o = DefaultOrderedDict →
  default_factory o = Some f → length nv < fuel →
  reduce fuel self σ
  = Return (mkReduce DefaultOrderedDict (if is_none f then [] else [f]) None
              (Some nv.*2)) σ.
Proof.
  intros Hod Hc Hf Hfuel. unfold reduce, DefaultOrderedDict___reduce__.
  unfold get_default_factory, get_obj, mbind, M_bind, bind, mret, M_ret, ret.
  rewrite (od_obj _ _ _ _ _ Hod), Hc, (od_obj _ _ _ _ _ Hod), Hf.
  rewrite (items_od_at _ _ _ _ _ _ Hod Hfuel), (od_obj _ _ _ _ _ Hod).
  by rewrite Hc.
Qed.

Lemma reconstruct_spec σ self o root nv fuel rv :
  od_at σ self o root nv → length nv < fuel →
  rv_callable rv = ob_class o →
  match ob_class o with
  | OrderedDict => rv_args rv = [PyPairs nv.*2] ∧ rv_dictitems rv = None
  | DefaultOrderedDict =>
      ∃ f, default_factory o = Some f
           ∧ (is_none f || is_callable f) = true
           ∧ rv_args rv = (if is_none f then [] else [f])
           ∧ rv_state rv = None
           ∧ rv_dictitems rv = Some nv.*2
  end →
  ∃ σ' o' root' nv',
    reconstruct fuel rv σ = Return (fresh (dom (objs σ))) σ'
    ∧ od_at σ' (fresh (dom (objs σ))) o' root' nv'
    ∧ nv'.*2 = nv.*2
    ∧ ob_class o' = ob_class o
    ∧ (ob_class o = DefaultOrderedDict → default_factory o' = default_factory o)
    ∧ od_at σ' self o root nv
    ∧ world σ' = world σ.
Proof.
  intros Hod Hfuel Hcall Hrv.
  pose proof (od_keys _ _ _ _ _ Hod) as Hnd.
  assert (fresh (dom (objs σ)) ≠ self) as Hne.
  { intros Heq. apply (is_fresh (dom (objs σ))). rewrite Heq.
    apply elem_of_dom. rewrite (od_obj _ _ _ _ _ Hod). eauto. }
  destruct (ob_class o) eqn:Hc.
  - destruct Hrv as [Hargs Hitems].
    destruct (construct_spec σ fuel OrderedDict [PyPairs nv.*2] nv.*2)
      as (σ1 & o1 & root1 & nv1 & Hrun & Hod1 & Hkv & Hc1 & _ & _ & Hmod & Hw
          & _); [done | right; by left |].
    rewrite alist_update_nil in Hkv by done.
    assert (od_at σ1 self o root nv) as Hself.
    { eapply od_at_other; [done..|]. apply is_fresh. }
    unfold reconstruct. unfold mbind, M_bind, bind.
    rewrite Hcall, Hargs, Hrun, Hitems.
    destruct (rv_state rv) as [st|].
    + pose proof (od_at_set_vars _ _ _ _ _ (st ∪ ob_vars o1) Hod1) as Hod2.
      eexists _, _, root1, nv1. unfold_prims.
      rewrite (od_obj _ _ _ _ _ Hod1).
      split_and!; [reflexivity|exact Hod2|done|done|done| |done].
      by apply od_at_put_other.
    + exists σ1, o1, root1, nv1. by split_and!.
  - destruct Hrv as (f & Hf & Hfok & Hargs & Hstate & Hitems).
    destruct (construct_spec σ fuel DefaultOrderedDict
                (if is_none f then [] else [f]) [])
      as (σ1 & o1 & root1 & nv1 & Hrun & Hod1 & Hkv & Hc1 & Hf1 & _ & Hmod & Hw
          & Hfp).
    { intros _. by destruct f. }
    { left. by destruct (is_none f). }
    assert (od_at σ1 self o root nv) as Hself.
    { eapply od_at_other; [done..|]. apply is_fresh. }
    destruct (setitems_spec _ _ _ _ _ nv.*2 Hod1)
      as (σ2 & o2 & nv2 & Hrun2 & Hod2 & Hkv2 & Hsame & Hmod2 & Hw2 & _).
    exists σ2, o2, root1, nv2.
    unfold reconstruct. unfold mbind, M_bind, bind.
    rewrite Hcall, Hargs, Hrun, Hstate, Hitems. unfold mret, M_ret, ret.
    rewrite Hrun2. destruct Hsame as (Hc2 & Hf2 & _).
    split_and!; try done.
    + rewrite Hkv2, Hkv. by apply alist_update_nil.
    + congruence.
    + intros _. rewrite Hf2, Hf1, Hf. by destruct f.
    + eapply od_at_frame; [done..|].
      intros l Hl Hin. apply (Hfp l Hin). by eapply od_at_dom.
    + congruence.
Qed.

Lemma elem_of_alist_set kvs k v : (k, v) ∈ alist_set kvs k v.
Proof.
  induction kvs as [|x kvs IH]; simpl; [clear; set_solver|].
  case_decide; [clear; set_solver | clear -IH; set_solver].
Qed.

Lemma alist_set_keys kvs k v :
  k ∈ kvs.*1 → (alist_set kvs k v).*1 = kvs.*1.
Proof.
  induction kvs as [|x kvs IH]; simpl; [by intros ?%elem_of_nil|].
  intros Hin. case_decide as Hx; simpl; [by rewrite Hx|].
  f_equal. apply IH. apply elem_of_cons in Hin as [-> | Hin]; done.
Qed.

Lemma alist_set_length kvs k v :
  k ∈ kvs.*1 → length (alist_set kvs k v) = length kvs.
Proof.
  intros Hin. by rewrite <-(length_fmap fst), alist_set_keys, length_fmap.
Qed.

Lemma construct_pairs_frame σ fuel l other kvs :
  represents σ other kvs →
  ∃ σ', construct fuel OrderedDict [PyPairs l] σ
          = Return (fresh (dom (objs σ))) σ'
        ∧ represents σ' (fresh (dom (objs σ))) (alist_update [] l)
        ∧ represents σ' other kvs
        ∧ fresh (dom (objs σ)) ≠ other.
Proof.
  intros (oo & ro & nvo & Hoth & Hfac & <-).
  destruct (construct_spec σ fuel OrderedDict [PyPairs l] l)
    as (σ' & o' & root & nv' & Hrun & Hod & Hkv & Hc & _ & _ & Hmod & Hw & _).
  - done.
  - right. by left.
  - exists σ'. split_and!; [done| | |].
    + exists o', root, nv'. split_and!; [done| |done].
      unfold factory_ok. by rewrite Hc.
    + exists oo, ro, nvo. split_and!; [|done..].
      eapply od_at_other; [done..|]. apply is_fresh.
    + intros Heq. apply (is_fresh (dom (objs σ))). rewrite Heq.
      apply elem_of_dom. rewrite (od_obj _ _ _ _ _ Hoth). eauto.
Qed.

Lemma construct_default_represents σ fuel f l :
  (is_none f || is_callable f) = true →
  ∃ σ', construct fuel DefaultOrderedDict [f; PyPairs l] σ
          = Return (fresh (dom (objs σ))) σ'
        ∧ represents σ' (fresh (dom (objs σ))) (alist_update [] l)
        ∧ is_default σ' (fresh (dom (objs σ))) f
        ∧ world σ' = world σ.
Proof.
  intros Hf.
  destruct (construct_spec σ fuel DefaultOrderedDict [f; PyPairs l] l)
    as (σ' & o' & root & nv' & Hrun & Hod & Hkv & Hc & Hf' & _ & _ & Hw & _).
  - done.
  - right. by left.
  - exists σ'. split_and!; [done| | |done].
    + exists o', root, nv'. split_and!; [done| |done].
      unfold factory_ok. rewrite Hc. by exists f.
    + exists o'. by rewrite (od_obj _ _ _ _ _ Hod).
Qed.

(** * The claims *)

(** C1. Order preservation: on an initially empty map, a sequence of
    assignments to distinct keys [k1..kn], with no deletion in between,
    makes [keys()] return exactly [[k1,...,kn]], in that order. *)
Theorem keys_after_distinct_sets σ self kvs fuel :
  represents σ self [] → NoDup kvs.*1 → length kvs < fuel →
  ∃ σ', setitems self kvs σ = Return tt σ'
        ∧ OrderedDict_keys fuel self σ' = Return kvs.*1 σ'.
Proof.
  intros Hrep Hnd Hfuel.
  destruct (setitems_represents _ _ _ kvs Hrep) as (σ' & Hrun & Hrep' & _).
  rewrite alist_update_nil in Hrep' by done.
  exists σ'. split; [done|]. by apply keys_spec.
Qed.

(** C2. Assigning to a key that is already present overwrites its value,
    so that a following lookup returns the new value, and leaves [keys()]
    as it was. *)
Theorem setitem_existing_keeps_position σ self kvs k v2 fuel :
  represents σ self kvs → k ∈ kvs.*1 → length kvs < fuel →
  ∃ σ' ks,
    OrderedDict___setitem__ self k v2 σ = Return tt σ'
    ∧ getitem self k σ' = Return v2 σ'
    ∧ OrderedDict_keys fuel self σ = Return ks σ
    ∧ OrderedDict_keys fuel self σ' = Return ks σ'
    ∧ ks = kvs.*1.
Proof.
  intros Hrep Hin Hfuel.
  destruct (setitem_represents _ _ _ k v2 Hrep) as (σ' & Hrun & Hrep' & _).
  exists σ', kvs.*1. split_and!; try done.
  - eapply represents_lookup; [done|]. apply elem_of_alist_set.
  - by apply keys_spec.
  - rewrite <-(alist_set_keys kvs k v2) by done. apply keys_spec; [done|].
    by rewrite alist_set_length.
Qed.

(** C10. The three views agree: [items()] is the element-wise pairing of
    [keys()] with [values()], and the three lists have the same length. *)
Theorem items_zip_keys_values σ self kvs fuel :
  represents σ self kvs → length kvs < fuel →
  ∃ ks vs its,
    OrderedDict_keys fuel self σ = Return ks σ
    ∧ OrderedDict_values fuel self σ = Return vs σ
    ∧ OrderedDict_items fuel self σ = Return its σ
    ∧ its = zip ks vs
    ∧ length ks = length its ∧ length vs = length its
    ∧ ∀ i k v, ks !! i = Some k → vs !! i = Some v → its !! i = Some (k, v).
Proof.
  intros Hrep Hfuel. exists kvs.*1, kvs.*2, kvs.
  rewrite (keys_spec _ _ _ _ Hrep Hfuel), (values_spec _ _ _ _ Hrep Hfuel),
    (items_spec _ _ _ _ Hrep Hfuel), !length_fmap.
  split_and!; try done.
  - symmetry. apply zip_fst_snd.
  - intros i k v. rewrite !list_lookup_fmap.
    destruct (kvs !! i) as [[? ?]|]; simpl; congruence.
Qed.

Lemma is_default_object σ self f o root nv :
  is_default σ self f → od_at σ self o root nv →
  ob_class o = DefaultOrderedDict ∧ default_factory o = Some f.
Proof.
  intros (o' & Ho' & Hc & Hf) Hod. rewrite (od_obj _ _ _ _ _ Hod) in Ho'.
  by injection Ho' as <-.
Qed.

(** C3. Lookup in a [DefaultOrderedDict]: a present key yields the stored
    value and leaves the store as it is; an absent key with a factory runs
    the factory once, stores its result as a new entry at the tail of the
    insertion sequence and returns it; an absent key without a factory
    raises [KeyError] and leaves the store as it is. *)
Theorem default_getitem_contract σ self kvs f k fuel :
  represents σ self kvs → is_default σ self f → S (length kvs) < fuel →
  (∀ v, (k, v) ∈ kvs → getitem self k σ = Return v σ)
  ∧ (∀ g, k ∉ kvs.*1 → f = PyCallable g →
       ∃ σ', getitem self k σ = Return (call g (world σ)).1 σ'
             ∧ world σ' = (call g (world σ)).2
             ∧ represents σ' self (kvs ++ [(k, (call g (world σ)).1)])
             ∧ OrderedDict_keys fuel self σ' = Return (kvs.*1 ++ [k]) σ')
  ∧ (k ∉ kvs.*1 → f = PyNone →
       getitem self k σ = Raise (Exn KeyError (inl k)) σ).
Proof.
  intros Hrep Hdef Hfuel. split_and!.
  - intros v Hin. by eapply represents_lookup.
  - intros g Hk ->. destruct Hrep as (o & root & nv & Hod & Hfac & <-).
    destruct (is_default_object _ _ _ _ _ _ Hdef Hod) as [Hc Hf].
    destruct (call g (world σ)) as [v w] eqn:Hcall.
    destruct (getitem_vivify _ _ _ _ _ _ _ _ _ Hod Hc Hf Hk Hcall)
      as (σ' & o' & Hrun & Hod' & Hsame & Hw).
    assert (represents σ' self (nv.*2 ++ [(k, v)])) as Hrep'.
    { eexists o', root, _. split_and!; [done| |by rewrite fmap_app].
      by eapply factory_ok_same. }
    exists σ'. simpl. split_and!; try done.
    rewrite (keys_spec _ _ _ _ Hrep'); [by rewrite fmap_app|].
    rewrite length_app. simpl. lia.
  - intros Hk ->. destruct Hrep as (o & root & nv & Hod & Hfac & <-).
    destruct (is_default_object _ _ _ _ _ _ Hdef Hod) as [Hc Hf].
    by eapply getitem_no_factory.
Qed.

(** C4. Equality is sensitive to order between two ordered dictionaries
    and insensitive to it against a plain mapping: two instances with the
    same bindings in different insertion orders compare unequal, and each
    compares equal to the plain mapping with those bindings. *)
Theorem eq_order_sensitivity σ a b la lb (d : gmap K V) fuel :
  represents σ a la → represents σ b lb →
  la ≡ₚ lb → la ≠ lb →
  (∀ k v, d !! k = Some v ↔ (k, v) ∈ la) →
  length la < fuel →
  OrderedDict___eq__ fuel a (OtherOD b) σ = Return false σ
  ∧ OrderedDict___eq__ fuel b (OtherOD a) σ = Return false σ
  ∧ OrderedDict___eq__ fuel a (OtherDict d) σ = Return true σ
  ∧ OrderedDict___eq__ fuel b (OtherDict d) σ = Return true σ.
Proof.
  intros (oa & ra & nva & Ha & _ & <-) (ob & rb & nvb & Hb & _ & <-)
    Hperm Hne Hd Hfuel.
  assert (length nvb < fuel) as Hfuel'.
  { rewrite <-(length_fmap snd), <-Hperm. done. }
  rewrite length_fmap in Hfuel.
  assert (ob_dict oa = d) as Hda by by eapply od_at_dict_eq.
  assert (ob_dict ob = d) as Hdb.
  { eapply od_at_dict_eq; [done|]. intros k v. by rewrite Hd, Hperm. }
  rewrite (eq_od_spec _ _ _ _ _ _ _ _ _ _ Ha Hb Hfuel Hfuel'),
    (eq_od_spec _ _ _ _ _ _ _ _ _ _ Hb Ha Hfuel' Hfuel),
    (eq_dict_spec _ _ _ _ _ d fuel Ha), (eq_dict_spec _ _ _ _ _ d fuel Hb).
  rewrite Hda, Hdb, !bool_decide_eq_true_2 by done.
  rewrite (bool_decide_eq_false_2 (nva.*2 = nvb.*2)) by done.
  rewrite (bool_decide_eq_false_2 (nvb.*2 = nva.*2)) by congruence.
  rewrite (bool_decide_eq_true_2 (d = d)) by done.
  by split_and!.
Qed.

(** C5. On a non-empty map [popitem(last=True)] removes and returns the
    pair of the most recently inserted key and [popitem(last=False)] the
    pair of the earliest inserted key; the remaining keys keep their
    relative order. *)
Theorem popitem_last_first σ self l1 x l2 (last : bool) fuel :
  represents σ self (l1 ++ x :: l2) →
  (if last then l2 = [] else l1 = []) →
  length (l1 ++ l2) < fuel →
  ∃ σ', OrderedDict_popitem self last σ = Return x σ'
        ∧ represents σ' self (l1 ++ l2)
        ∧ OrderedDict_keys fuel self σ' = Return (l1 ++ l2).*1 σ'.
Proof.
  intros Hrep Hend Hfuel.
  destruct (popitem_represents _ _ _ _ _ _ Hrep Hend) as (σ' & Hrun & Hrep' & _).
  exists σ'. split_and!; try done. by apply keys_spec.
Qed.

(** C6, as the code has it. [popitem] on an empty map raises [KeyError],
    the exception class that also reports a missing key, with the message
    "dictionary is empty", and leaves the store as it is. *)
Theorem popitem_empty_KeyError σ self (last : bool) :
  represents σ self [] →
  OrderedDict_popitem self last σ
  = Raise (Exn KeyError (inr "dictionary is empty")) σ.
Proof. apply popitem_empty. Qed.

(** C7. [pop(key[, default])] raises [KeyError] exactly when the key is
    absent and no default is given; with an absent key and a default it
    returns the default and leaves the store as it is; with a present key
    it removes the entry and its link and returns the stored value. *)
Theorem pop_key_contract σ self kvs k default :
  represents σ self kvs →
  ((∃ e τ, OrderedDict_pop self k default σ = Raise e τ)
   ↔ (default = None ∧ k ∉ kvs.*1))
  ∧ (k ∉ kvs.*1 → default = None →
       OrderedDict_pop self k default σ = Raise (Exn KeyError (inl k)) σ)
  ∧ (∀ d, k ∉ kvs.*1 → default = Some d →
       OrderedDict_pop self k default σ = Return d σ)
  ∧ (∀ v, (k, v) ∈ kvs →
       ∃ σ', OrderedDict_pop self k default σ = Return v σ'
             ∧ represents σ' self (alist_remove kvs k)
             ∧ k ∉ (alist_remove kvs k).*1).
Proof.
  intros Hrep.
  assert (∀ v, (k, v) ∈ kvs →
            ∃ σ', OrderedDict_pop self k default σ = Return v σ'
                  ∧ represents σ' self (alist_remove kvs k)
                  ∧ k ∉ (alist_remove kvs k).*1) as Hpresent.
  { intros v Hin. apply list_elem_of_split in Hin as (l1 & l2 & ->).
    destruct (pop_present _ _ _ _ _ default Hrep) as (σ' & Hrun & Hrep' & _).
    pose proof (represents_NoDup _ _ _ Hrep) as Hnd.
    pose proof (alist_remove_split l1 (k, v) l2 Hnd) as Hrem.
    simpl in Hrem, Hrun. rewrite Hrem.
    exists σ'. split_and!; try done.
    rewrite fmap_app, fmap_cons in Hnd.
    apply NoDup_app in Hnd as (_ & Hdisj & [Hx _]%NoDup_cons).
    rewrite fmap_app. intros [H1 | H2]%elem_of_app; [|done].
    apply (Hdisj _ H1). clear; set_solver. }
  split_and!; try done.
  - split.
    + intros (e & τ & Hrun). destruct (decide (k ∈ kvs.*1)) as [Hin | Hout].
      * apply list_elem_of_fmap in Hin as ([k' v] & -> & Hin).
        destruct (Hpresent v Hin) as (σ' & Hrun' & _). congruence.
      * rewrite (pop_absent _ _ _ _ default Hrep Hout) in Hrun.
        by destruct default.
    + intros [-> Hout]. rewrite (pop_absent _ _ _ _ None Hrep Hout). eauto.
  - intros Hout ->. by rewrite (pop_absent _ _ _ _ None Hrep Hout).
  - intros d Hout ->. by rewrite (pop_absent _ _ _ _ (Some d) Hrep Hout).
Qed.

(** C8. Round trip through [__reduce__]: the reduce value carries the
    pairs of the instance in insertion order, and the instance rebuilt
    from it holds the same pairs in the same order. *)
Theorem reduce_reconstruct_roundtrip σ self kvs fuel :
  represents σ self kvs → length kvs < fuel →
  ∃ rv σ1 obj σ2,
    reduce fuel self σ = Return rv σ1
    ∧ rv_pairs rv = kvs
    ∧ reconstruct fuel rv σ1 = Return obj σ2
    ∧ obj ≠ self
    ∧ represents σ2 obj kvs
    ∧ OrderedDict_items fuel obj σ2 = Return kvs σ2
    ∧ OrderedDict_keys fuel obj σ2 = Return kvs.*1 σ2
    ∧ OrderedDict_items fuel self σ = Return kvs σ.
Proof.
  intros Hrep Hfuel. pose proof (items_spec _ _ _ _ Hrep Hfuel) as Hitems.
  destruct Hrep as (o & root & nv & Hod & Hfac & <-).
  rewrite length_fmap in Hfuel.
  assert (∃ rv σ1, reduce fuel self σ = Return rv σ1
                   ∧ rv_pairs rv = nv.*2
                   ∧ od_at σ1 self o root nv
                   ∧ rv_callable rv = ob_class o
                   ∧ match ob_class o with
                     | OrderedDict =>
                         rv_args rv = [PyPairs nv.*2] ∧ rv_dictitems rv = None
                     | DefaultOrderedDict =>
                         ∃ f, default_factory o = Some f
                              ∧ (is_none f || is_callable f) = true
                              ∧ rv_args rv = (if is_none f then [] else [f])
                              ∧ rv_state rv = None
                              ∧ rv_dictitems rv = Some nv.*2
                     end)
    as (rv & σ1 & Hred & Hpairs & Hod1 & Hcall & Hrv).
  { unfold factory_ok in Hfac. destruct (ob_class o) eqn:Hc.
    - destruct (reduce_plain_spec _ _ _ _ _ _ Hod Hc Hfuel)
        as (σ1 & rv & Hred & Hcall & Hargs & Hit & Hod1 & _).
      exists rv, σ1. split_and!; try done.
      unfold rv_pairs. by rewrite Hit, Hargs.
    - destruct Hfac as (f & Hf & Hfok).
      eexists _, σ. split_and!;
        [by apply (reduce_default_spec _ _ _ _ _ _ f Hod Hc Hf)|done..|].
      exists f. by split_and!. }
  destruct (reconstruct_spec _ _ _ _ _ _ rv Hod1 Hfuel Hcall Hrv)
    as (σ2 & o2 & root2 & nv2 & Hrec & Hod2 & Hkv & Hc2 & Hf2 & _ & _).
  assert (represents σ2 (fresh (dom (objs σ1))) nv.*2) as Hrep2.
  { exists o2, root2, nv2. split_and!; try done.
    unfold factory_ok in *. rewrite Hc2.
    destruct (ob_class o); [done|]. by rewrite Hf2. }
  assert (length nv.*2 < fuel) as Hfuel2 by by rewrite length_fmap.
  exists rv, σ1, (fresh (dom (objs σ1))), σ2. split_and!; try done.
  - intros Heq. apply (is_fresh (dom (objs σ1))). rewrite Heq.
    apply elem_of_dom. rewrite (od_obj _ _ _ _ _ Hod1). eauto.
  - by apply items_spec.
  - by apply keys_spec.
Qed.

(** C9. [copy()] of a [DefaultOrderedDict] returns a new instance with the
    same factory object and the same pairs in the same order; assigning in
    the copy afterwards changes neither the original's object nor what its
    [keys()], [items()] and lookups return. *)
Theorem default_copy_independent σ self kvs f fuel :
  represents σ self kvs → is_default σ self f → length kvs < fuel →
  ∃ c σ',
    DefaultOrderedDict_copy fuel self σ = Return c σ'
    ∧ c ≠ self ∧ objs σ !! c = None
    ∧ is_default σ' c f
    ∧ represents σ' c kvs
    ∧ represents σ' self kvs
    ∧ objs σ' !! self = objs σ !! self
    ∧ ∀ x v, ∃ σ'',
        OrderedDict___setitem__ c x v σ' = Return tt σ''
        ∧ represents σ'' c (alist_set kvs x v)
        ∧ objs σ'' !! self = objs σ !! self
        ∧ represents σ'' self kvs
        ∧ OrderedDict_keys fuel self σ'' = Return kvs.*1 σ''
        ∧ OrderedDict_items fuel self σ'' = Return kvs σ''
        ∧ ∀ k w, (k, w) ∈ kvs → getitem self k σ'' = Return w σ''.
Proof.
  intros (o & root & nv & Hod & Hfac & <-) Hdef Hfuel.
  destruct (is_default_object _ _ _ _ _ _ Hdef Hod) as [Hc Hf].
  assert (length nv < fuel) as Hfuel' by by rewrite length_fmap in Hfuel.
  destruct (copy_spec _ _ _ _ _ fuel true Hod Hfac Hfuel' Hc)
    as (σ' & o' & root' & nv' & Hrun & Hod' & Hkv & Hc' & Hf' & Hfac' & Hself
        & Hmod & Hw & Hfp).
  set (c := fresh (dom (objs σ))) in *.
  assert (c ∉ dom (objs σ)) as Hc_new by apply is_fresh.
  assert (self ∈ dom (objs σ)) as Hself_dom.
  { apply elem_of_dom. rewrite (od_obj _ _ _ _ _ Hod). eauto. }
  assert (c ≠ self) as Hne by (intros Heq; by rewrite Heq in Hc_new).
  assert (objs σ' !! self = objs σ !! self) as Hsame_obj.
  { by apply (mod_objs _ _ _ _ Hmod). }
  exists c, σ'. split_and!; try done.
  - by apply not_elem_of_dom.
  - exists o'. rewrite (od_obj _ _ _ _ _ Hod'). split_and!; [done|congruence|].
    rewrite Hf' by done. done.
  - exists o', root', nv'. by split_and!.
  - exists o, root, nv. by split_and!.
  - intros x v.
    destruct (setitem_spec _ _ _ _ _ x v Hod')
      as (σ'' & o'' & nv'' & Hset & Hod'' & Hkv'' & Hsame & Hmod' & _ & _).
    assert (od_at σ'' self o root nv) as Hself''.
    { eapply od_at_frame; [done..| |]; [done|].
      intros l Hl Hin. apply (Hfp l Hin). by eapply od_at_dom. }
    assert (represents σ'' self nv.*2) as Hrep''.
    { exists o, root, nv. by split_and!. }
    exists σ''. split_and!; try done.
    + exists o'', root', nv''. split_and!; [done| |by rewrite Hkv'', Hkv].
      by eapply factory_ok_same.
    + rewrite <-Hsame_obj. apply (mod_objs _ _ _ _ Hmod'); [done|].
      apply (mod_dom_objs _ _ _ _ Hmod). done.
    + by apply keys_spec.
    + by apply items_spec.
    + intros k w Hin. by eapply represents_lookup.
Qed.

(** * Further properties of the methods *)

(** ** Size, membership, lookup *)

Lemma od_at_dict_list σ self o root nv :
  od_at σ self o root nv → ob_dict o = list_to_map nv.*2.
Proof.
  intros Hod. eapply od_at_dict_eq; [done|]. intros k v. symmetry.
  apply elem_of_list_to_map, Hod.
Qed.

(** [len(self)] is the number of keys that [keys()] returns, and
    [key in self] holds exactly for those keys. *)
Theorem len_contains_agree_with_keys σ self kvs k fuel :
  represents σ self kvs → length kvs < fuel →
  ∃ ks, OrderedDict_keys fuel self σ = Return ks σ
        ∧ dict___len__ self σ = Return (length ks) σ
        ∧ dict___contains__ self k σ = Return (bool_decide (k ∈ ks)) σ.
Proof.
  intros Hrep Hfuel. exists kvs.*1.
  split; [by apply keys_spec|].
  destruct Hrep as (o & root & nv & Hod & _ & <-).
  unfold dict___len__, dict___contains__. unfold_prims.
  rewrite (od_obj _ _ _ _ _ Hod). split.
  - rewrite (od_at_dict_list _ _ _ _ _ Hod), map_size_list_to_map by apply Hod.
    by rewrite !length_fmap.
  - f_equal. apply bool_decide_ext. split.
    + intros [v Hv]. apply (od_dict _ _ _ _ _ Hod) in Hv.
      apply list_elem_of_fmap. by exists (k, v).
    + intros Hin. by eapply od_at_present.
Qed.

(** On an [OrderedDict] proper, [self[key]] returns the stored value of a
    present key and raises [KeyError(key)] for an absent one; neither
    changes the store. *)
Theorem plain_getitem_contract σ self kvs k :
  represents σ self kvs →
  (∃ o, objs σ !! self = Some o ∧ ob_class o = OrderedDict) →
  (∀ v, (k, v) ∈ kvs → getitem self k σ = Return v σ)
  ∧ (k ∉ kvs.*1 → getitem self k σ = Raise (Exn KeyError (inl k)) σ).
Proof.
  intros Hrep (o' & Ho' & Hc). split.
  - intros v Hin. by eapply represents_lookup.
  - intros Hk. destruct Hrep as (o & root & nv & Hod & _ & <-).
    rewrite (od_obj _ _ _ _ _ Hod) in Ho'. injection Ho' as <-.
    by eapply getitem_absent_plain.
Qed.

(** ** Assignment and deletion *)

(** Assigning to an absent key appends the pair at the tail and touches
    nothing else. *)
Theorem setitem_absent_appends σ self kvs k v fuel :
  represents σ self kvs → k ∉ kvs.*1 → S (length kvs) < fuel →
  ∃ σ', OrderedDict___setitem__ self k v σ = Return tt σ'
        ∧ represents σ' self (kvs ++ [(k, v)])
        ∧ OrderedDict_items fuel self σ' = Return (kvs ++ [(k, v)]) σ'
        ∧ world σ' = world σ.
Proof.
  intros Hrep Hk Hfuel.
  destruct (setitem_represents _ _ _ k v Hrep) as (σ' & Hrun & Hrep' & Hw).
  rewrite alist_set_absent in Hrep' by done.
  exists σ'. split_and!; try done. apply items_spec; [done|].
  rewrite length_app. simpl. lia.
Qed.

Lemma delitem_represents σ self l1 x l2 :
  represents σ self (l1 ++ x :: l2) →
  ∃ σ', OrderedDict___delitem__ self x.1 σ = Return tt σ'
        ∧ represents σ' self (l1 ++ l2)
        ∧ world σ' = world σ.
Proof.
  intros (o & root & nv & Hod & Hfac & Hkv).
  apply nv_split in Hkv as (n1 & y & n2 & -> & <- & <- & <-).
  destruct (delitem_spec _ _ _ _ _ _ _ Hod)
    as (σ' & o' & Hrun & Hod' & Hsame & _ & Hw).
  exists σ'. split_and!; [done| |done].
  exists o', root, (n1 ++ n2). split_and!; [done| |by rewrite fmap_app].
  by eapply factory_ok_same.
Qed.

(** [del self[key]] on a present key removes that entry and keeps the
    other entries in their order. *)
Theorem delitem_present_removes σ self kvs k v fuel :
  represents σ self kvs → (k, v) ∈ kvs → length kvs < fuel →
  ∃ σ', OrderedDict___delitem__ self k σ = Return tt σ'
        ∧ represents σ' self (alist_remove kvs k)
        ∧ OrderedDict_items fuel self σ' = Return (alist_remove kvs k) σ'
        ∧ dict___contains__ self k σ' = Return false σ'.
Proof.
  intros Hrep Hin Hfuel. pose proof (represents_NoDup _ _ _ Hrep) as Hnd.
  apply list_elem_of_split in Hin as (l1 & l2 & ->).
  destruct (delitem_represents _ _ _ _ _ Hrep) as (σ' & Hrun & Hrep' & _).
  pose proof (alist_remove_split l1 (k, v) l2 Hnd) as Hrem.
  simpl in Hrem, Hrun. rewrite Hrem.
  exists σ'. split_and!; try done.
  - apply items_spec; [done|]. rewrite length_app in *. simpl in Hfuel. lia.
  - destruct Hrep' as (o & root & nv & Hod & _ & Hkv).
    unfold dict___contains__. unfold_prims. rewrite (od_obj _ _ _ _ _ Hod).
    rewrite (od_at_absent _ _ _ _ _ k Hod); [done|]. rewrite Hkv.
    rewrite fmap_app, fmap_cons in Hnd.
    apply NoDup_app in Hnd as (_ & Hdisj & [Hx _]%NoDup_cons).
    rewrite fmap_app. intros [H1 | H2]%elem_of_app; [|done].
    apply (Hdisj _ H1). clear; set_solver.
Qed.

(** [del self[key]] on an absent key raises [KeyError(key)] before
    anything is changed. *)
Theorem delitem_absent_KeyError σ self kvs k :
  represents σ self kvs → k ∉ kvs.*1 →
  OrderedDict___delitem__ self k σ = Raise (Exn KeyError (inl k)) σ.
Proof.
  intros (o & root & nv & Hod & _ & <-) Hk.
  unfold OrderedDict___delitem__. unfold_prims.
  by rewrite (od_obj _ _ _ _ _ Hod), (od_at_absent _ _ _ _ _ _ Hod Hk).
Qed.

(** Deleting a key and assigning to it again moves it to the tail. *)
Theorem delete_then_set_moves_to_tail σ self l1 x l2 v fuel :
  represents σ self (l1 ++ x :: l2) → S (length (l1 ++ l2)) < fuel →
  ∃ σ', (OrderedDict___delitem__ self x.1;;
         OrderedDict___setitem__ self x.1 v) σ = Return tt σ'
        ∧ represents σ' self (l1 ++ l2 ++ [(x.1, v)])
        ∧ OrderedDict_keys fuel self σ'
          = Return ((l1 ++ l2).*1 ++ [x.1]) σ'.
Proof.
  intros Hrep Hfuel. pose proof (represents_NoDup _ _ _ Hrep) as Hnd.
  destruct (delitem_represents _ _ _ _ _ Hrep) as (σ1 & Hrun1 & Hrep1 & _).
  assert (x.1 ∉ (l1 ++ l2).*1) as Hout.
  { rewrite fmap_app, fmap_cons in Hnd.
    apply NoDup_app in Hnd as (_ & Hdisj & [Hx _]%NoDup_cons).
    rewrite fmap_app. intros [H1 | H2]%elem_of_app; [|done].
    apply (Hdisj _ H1). clear; set_solver. }
  destruct (setitem_represents _ _ _ x.1 v Hrep1) as (σ2 & Hrun2 & Hrep2 & _).
  rewrite alist_set_absent in Hrep2 by done.
  exists σ2. unfold mbind, M_bind, bind. rewrite Hrun1, Hrun2.
  rewrite <-app_assoc in Hrep2. split_and!; try done.
  rewrite (keys_spec _ _ _ _ Hrep2).
  - by rewrite app_assoc, fmap_app.
  - rewrite app_assoc, length_app. simpl. lia.
Qed.

(** [setdefault(key, default)] returns the stored value of a present key
    and changes nothing; for an absent key it appends [(key, default)] at
    the tail and returns [default]. *)
Theorem setdefault_contract σ self kvs k d :
  represents σ self kvs →
  (∀ v, (k, v) ∈ kvs → OrderedDict_setdefault self k d σ = Return v σ)
  ∧ (k ∉ kvs.*1 →
     ∃ σ', OrderedDict_setdefault self k d σ = Return d σ'
           ∧ represents σ' self (kvs ++ [(k, d)])).
Proof.
  intros Hrep. split.
  - intros v Hin. pose proof (represents_lookup _ _ _ _ _ Hrep Hin) as Hget.
    destruct Hrep as (o & root & nv & Hod & _ & <-).
    unfold OrderedDict_setdefault, dict___contains__. unfold_prims.
    rewrite (od_obj _ _ _ _ _ Hod).
    apply (od_dict _ _ _ _ _ Hod) in Hin. by rewrite Hin.
  - intros Hk.
    destruct (setitem_represents _ _ _ k d Hrep) as (σ' & Hrun & Hrep' & _).
    rewrite alist_set_absent in Hrep' by done. exists σ'. split; [|done].
    destruct Hrep as (o & root & nv & Hod & _ & <-).
    unfold OrderedDict_setdefault, dict___contains__.
    unfold get_obj, mbind, M_bind, bind, mret, M_ret, ret.
    rewrite (od_obj _ _ _ _ _ Hod), (od_at_absent _ _ _ _ _ _ Hod Hk).
    simpl. by rewrite Hrun.
Qed.

(** ** [update], [fromkeys], the constructor *)

Lemma alist_set_keys_absent kvs k v :
  k ∉ kvs.*1 → (alist_set kvs k v).*1 = kvs.*1 ++ [k].
Proof. intros Hk. by rewrite alist_set_absent, fmap_app. Qed.


Lemma elem_of_alist_set_inv kvs k v k' v' :
  (k', v') ∈ alist_set kvs k v → (k', v') = (k, v) ∨ (k', v') ∈ kvs.
Proof.
  induction kvs as [|x kvs IH]; simpl.
  - intros ->%list_elem_of_singleton. by left.
  - case_decide.
    + intros [-> | Hin]%elem_of_cons; [by left | right].
      clear -Hin. set_solver.
    + intros [-> | Hin]%elem_of_cons; [right; clear; set_solver|].
      destruct (IH Hin) as [? | Hin']; [by left | right].
      clear -Hin'. set_solver.
Qed.

Lemma alist_update_keys kvs l :
  ∃ new, (alist_update kvs l).*1 = kvs.*1 ++ new
         ∧ ∀ k, k ∈ new ↔ (k ∈ l.*1 ∧ k ∉ kvs.*1).
Proof.
  revert kvs. induction l as [|[k v] l IH]; intros kvs.
  - exists []. rewrite app_nil_r. split; [done|]. intros k. split.
    + by intros ?%elem_of_nil.
    + by intros [?%elem_of_nil _].
  - unfold alist_update in *. simpl.
    destruct (IH (alist_set kvs k v)) as (new & Hkeys & Hnew).
    destruct (decide (k ∈ kvs.*1)) as [Hin | Hout].
    + rewrite alist_set_keys in Hkeys, Hnew by done.
      exists new. split; [done|]. intros k'. rewrite Hnew.
      split; intros [H1 H2]; (split; [|done]).
      * clear -H1. set_solver.
      * apply elem_of_cons in H1 as [-> | H1]; done.
    + rewrite alist_set_keys_absent in Hkeys, Hnew by done.
      exists (k :: new). rewrite <-app_assoc in Hkeys. split; [done|].
      intros k'. rewrite elem_of_cons, Hnew, elem_of_cons, elem_of_app.
      rewrite list_elem_of_singleton.
      destruct (decide (k' = k)) as [-> | Hne]; [by intuition|]. by intuition.
Qed.



Lemma alist_update_inv kvs l k v :
  (k, v) ∈ alist_update kvs l → (k, v) ∈ kvs ∨ (k, v) ∈ l.
Proof.
  revert kvs. induction l as [|[k0 v0] l IH]; intros kvs Hin; [by left|].
  unfold alist_update in *. simpl in Hin.
  destruct (IH _ Hin) as [Hin' | Hin']; [|right; clear -Hin'; set_solver].
  destruct (elem_of_alist_set_inv _ _ _ _ _ Hin') as [-> | ?];
    [right; clear; set_solver | by left].
Qed.


(** [OrderedDict(pairs)] for pairs with distinct keys holds exactly those
    pairs, in their order. *)
Theorem constructor_from_pairs σ l fuel :
  NoDup l.*1 → length l < fuel →
  ∃ d σ', construct fuel OrderedDict [PyPairs l] σ = Return d σ'
          ∧ objs σ !! d = None
          ∧ represents σ' d l
          ∧ OrderedDict_items fuel d σ' = Return l σ'.
Proof.
  intros Hnd Hfuel.
  destruct (construct_represents σ fuel l) as (σ' & Hrun & Hrep & _).
  rewrite alist_update_nil in Hrep by done.
  exists (fresh (dom (objs σ))), σ'. split_and!; try done.
  - apply not_elem_of_dom, is_fresh.
  - by apply items_spec.
Qed.

(** [fromkeys(iterable, value)] builds a new instance of the class whose
    keys are those of the iterable, each bound to [value]; for distinct
    keys they appear in the order of the iterable. *)
Theorem fromkeys_contract σ fuel c (iterable : list K) (value : V) :
  ∃ d σ' kvs,
    OrderedDict_fromkeys fuel c iterable value σ = Return d σ'
    ∧ objs σ !! d = None
    ∧ represents σ' d kvs
    ∧ (∀ k, k ∈ kvs.*1 ↔ k ∈ iterable)
    ∧ (∀ k w, (k, w) ∈ kvs → w = value)
    ∧ (NoDup iterable → kvs = (λ k, (k, value)) <$> iterable).
Proof.
  destruct (construct_spec σ fuel c [] [])
    as (σ1 & o1 & root & nv1 & Hrun & Hod & Hkv & Hc & Hf & _ & _ & _ & _).
  { by intros _. }
  { left. by destruct c. }
  assert (represents σ1 (fresh (dom (objs σ))) []) as Hrep1.
  { exists o1, root, nv1. split_and!; [done| |done].
    unfold factory_ok. rewrite Hc, Hf. destruct c; [done|]. by exists PyNone. }
  set (l := (λ k, (k, value)) <$> iterable).
  destruct (setitems_represents _ _ _ l Hrep1) as (σ' & Hrun' & Hrep' & _).
  assert (l.*1 = iterable) as Hl1.
  { unfold l. rewrite <-list_fmap_compose. apply list_fmap_id. }
  exists (fresh (dom (objs σ))), σ', (alist_update [] l). split_and!.
  - unfold OrderedDict_fromkeys, mbind, M_bind, bind. fold l.
    by rewrite Hrun, Hrun'.
  - apply not_elem_of_dom, is_fresh.
  - done.
  - destruct (alist_update_keys [] l) as (new & Hkeys & Hnew).
    intros k. rewrite Hkeys. simpl. rewrite Hnew, Hl1. simpl.
    split; [by intros [? _] | intros ?; split; [done|by intros ?%elem_of_nil]].
  - intros k w [?%elem_of_nil | Hin]%alist_update_inv; [done|].
    unfold l in Hin. apply list_elem_of_fmap in Hin as (k' & [= -> ->] & _).
    done.
  - intros Hnd. apply alist_update_nil. by rewrite Hl1.
Qed.

(** The constructor rejects more than one positional initializer with a
    [TypeError]; no sentinel has been built by then. *)
Theorem constructor_arity_TypeError σ fuel args :
  1 < length args →
  ∃ σ', construct fuel OrderedDict args σ
        = Raise (Exn TypeError
                   (inr ("expected at most 1 arguments, got "
                         +:+ pretty (length args)))) σ'
        ∧ links σ' = links σ
        ∧ ∀ r, r ∈ dom (objs σ) → objs σ' !! r = objs σ !! r.
Proof.
  intros Hlen. eexists. split_and!.
  - unfold construct, OrderedDict___init__, new_object, mbind, M_bind, bind.
    rewrite decide_True by done. unfold raise. reflexivity.
  - done.
  - simpl. intros r Hr. rewrite lookup_insert_ne; [done|].
    intros <-. by apply is_fresh in Hr.
Qed.

(** [DefaultOrderedDict] rejects a first argument that is neither [None]
    nor callable with a [TypeError], before the base class is
    initialised. *)
Theorem default_noncallable_TypeError σ fuel f a :
  is_none f = false → is_callable f = false →
  ∃ σ', construct fuel DefaultOrderedDict (f :: a) σ
        = Raise (Exn TypeError (inr "first argument must be callable")) σ'
        ∧ links σ' = links σ
        ∧ ∀ r, r ∈ dom (objs σ) → objs σ' !! r = objs σ !! r.
Proof.
  intros Hn Hc. eexists. split_and!.
  - unfold construct, DefaultOrderedDict___init__, new_object,
      mbind, M_bind, bind. simpl. rewrite Hn, Hc. simpl. unfold raise.
    reflexivity.
  - done.
  - simpl. intros r Hr. rewrite lookup_insert_ne; [done|].
    intros <-. by apply is_fresh in Hr.
Qed.

(** ** [clear] and [__reversed__] *)

(** [clear()] leaves a well-formed empty instance: [keys()] is empty and
    [len] is zero. *)
Theorem clear_empties σ self kvs fuel :
  represents σ self kvs → 0 < fuel →
  ∃ σ', OrderedDict_clear self σ = Return tt σ'
        ∧ represents σ' self []
        ∧ OrderedDict_keys fuel self σ' = Return [] σ'
        ∧ dict___len__ self σ' = Return 0 σ'
        ∧ world σ' = world σ.
Proof.
  intros (o & root & nv & Hod & Hfac & _) Hfuel.
  destruct Hod as [Ho Hr Hs Hseg Hl Hkeys (m & Hm & Hmap) Hd].
  set (o' := mkObject (ob_class o) ∅ (ob_root o) (Some ∅) (default_factory o)
                      (ob_vars o)).
  assert (∃ σ', OrderedDict_clear self σ = Return tt σ'
                ∧ objs σ' !! self = Some o'
                ∧ links σ' !! root = Some (mkLink root root None)
                ∧ world σ' = world σ) as (σ' & Hrun & Ho' & Hs' & Hw).
  { eexists. split_and!.
    - unfold OrderedDict_clear, dict_clear, del_links. unfold_prims. simpl.
      rewrite Ho, Hm. simpl. rewrite Ho, Hr. simpl.
      rewrite Ho. simpl. rewrite lookup_insert_eq. simpl. reflexivity.
    - simpl. by rewrite lookup_insert_eq.
    - simpl. by rewrite lookup_insert_eq.
    - done. }
  assert (od_at σ' self o' root []) as Hod'.
  { split; simpl; try done.
    - apply NoDup_singleton.
    - apply NoDup_nil_2.
    - exists ∅. split; [done|]. intros k n. rewrite lookup_empty.
      split; [done|]. by intros (v & ?%elem_of_nil).
    - intros k v. rewrite lookup_empty. split; [done|].
      by intros ?%elem_of_nil. }
  assert (represents σ' self []) as Hrep'.
  { exists o', root, []. by split_and!. }
  exists σ'. split_and!; try done.
  - apply (keys_spec _ _ [] _ Hrep'). simpl. lia.
  - unfold dict___len__. unfold_prims. rewrite Ho'. simpl.
    by rewrite map_size_empty.
Qed.

Lemma iter_back_read_only {A} σ self o root nv (body : K → M A)
    (g : loc * (K * V) → A) fuel :
  od_at σ self o root nv →
  (∀ x, x ∈ nv → body x.2.1 σ = Return (g x) σ) →
  ∀ l1 l2, nv = l1 ++ l2 → length l1 < fuel →
    iter_back fuel root (last_loc l1 root) body σ
    = Return (g <$> reverse l1) σ.
Proof.
  intros Hod Hbody l1. revert fuel.
  induction l1 as [|x l1 IH] using rev_ind; intros fuel l2 Hnv Hfuel.
  - destruct fuel as [|fuel]; [simpl in Hfuel; lia|]. simpl.
    by rewrite decide_True.
  - destruct fuel as [|fuel]; [simpl in Hfuel; lia|].
    rewrite length_app in Hfuel. simpl in Hfuel.
    rewrite last_loc_app, reverse_app. simpl.
    rewrite <-app_assoc in Hnv. simpl in Hnv.
    pose proof (od_seg _ _ _ _ _ Hod) as Hseg. rewrite Hnv in Hseg.
    pose proof (seg_lookup _ _ _ _ _ _ Hseg) as Hx.
    pose proof (od_locs _ _ _ _ _ Hod) as Hl. rewrite Hnv in Hl.
    destruct (unlink_target_other _ _ _ _ Hl) as (Hxr & _ & _).
    rewrite decide_False by done. unfold_prims. rewrite Hx. simpl.
    rewrite Hbody by (rewrite Hnv; clear; set_solver).
    rewrite Hx. simpl.
    by rewrite (IH fuel (x :: l2) Hnv ltac:(lia)).
Qed.

(** [reversed(self)] yields the keys in the reverse of the order in which
    [keys()] lists them. *)
Theorem reversed_is_reverse_of_keys σ self kvs fuel :
  represents σ self kvs → length kvs < fuel →
  ∃ ks, OrderedDict_keys fuel self σ = Return ks σ
        ∧ reversed_keys fuel self σ = Return (reverse ks) σ.
Proof.
  intros Hrep Hfuel. exists kvs.*1. split; [by apply keys_spec|].
  destruct Hrep as (o & root & nv & Hod & _ & <-).
  rewrite length_fmap in Hfuel.
  unfold reversed_keys, OrderedDict___reversed__. unfold_prims.
  rewrite (od_obj _ _ _ _ _ Hod), (od_root _ _ _ _ _ Hod),
    (od_sentinel _ _ _ _ _ Hod). simpl.
  replace (reverse nv.*2.*1) with ((λ x : loc * (K * V), x.2.1) <$> reverse nv)
    by (by rewrite <-!fmap_reverse, <-list_fmap_compose).
  apply (iter_back_read_only σ self o root nv (λ key, ret key) (λ x, x.2.1)
           fuel Hod ltac:(done) nv []); [by rewrite app_nil_r | done].
Qed.

(** ** Comparison *)

Lemma od_at_size σ self o root nv :
  od_at σ self o root nv → size (ob_dict o) = length nv.
Proof.
  intros Hod.
  rewrite (od_at_dict_list _ _ _ _ _ Hod), map_size_list_to_map by apply Hod.
  by rewrite length_fmap.
Qed.

Lemma eq_od_represents σ a b la lb fuel :
  represents σ a la → represents σ b lb →
  length la < fuel → length lb < fuel →
  OrderedDict___eq__ fuel a (OtherOD b) σ = Return (bool_decide (la = lb)) σ.
Proof.
  intros (oa & ra & nva & Ha & _ & <-) (ob & rb & nvb & Hb & _ & <-) Hfa Hfb.
  rewrite length_fmap in Hfa, Hfb.
  rewrite (eq_od_spec _ _ _ _ _ _ _ _ _ _ Ha Hb Hfa Hfb).
  rewrite (od_at_size _ _ _ _ _ Ha), (od_at_size _ _ _ _ _ Hb).
  f_equal. destruct (decide (nva.*2 = nvb.*2)) as [Heq | Hne].
  - rewrite (bool_decide_eq_true_2 _ Heq).
    rewrite bool_decide_eq_true_2; [done|].
    by rewrite <-(length_fmap snd nva), Heq, length_fmap.
  - rewrite (bool_decide_eq_false_2 _ Hne). apply andb_false_r.
Qed.

(** Between two instances [==] holds exactly when their items are the
    same list, and [!=] is its negation; in particular an instance equals
    itself. *)
Theorem eq_instances_iff_same_items σ a b la lb fuel :
  represents σ a la → represents σ b lb →
  length la < fuel → length lb < fuel →
  OrderedDict___eq__ fuel a (OtherOD b) σ = Return (bool_decide (la = lb)) σ
  ∧ OrderedDict___ne__ fuel a (OtherOD b) σ
    = Return (bool_decide (la ≠ lb)) σ.
Proof.
  intros Hra Hrb Hfa Hfb.
  pose proof (eq_od_represents _ _ _ _ _ _ Hra Hrb Hfa Hfb) as Heq.
  split; [done|].
  unfold OrderedDict___ne__, mbind, M_bind, bind. rewrite Heq.
  unfold mret, M_ret, ret. f_equal.
  destruct (decide (la = lb)) as [Heq' | Hne].
  - rewrite (bool_decide_eq_true_2 _ Heq').
    by rewrite bool_decide_eq_false_2 by (intros Hn; by apply Hn).
  - rewrite (bool_decide_eq_false_2 _ Hne). by rewrite bool_decide_eq_true_2.
Qed.

(** Against a plain mapping [==] holds exactly when the mapping has the
    bindings of the instance, whatever their order. *)
Theorem eq_plain_iff_same_bindings σ a la (d : gmap K V) fuel :
  represents σ a la →
  ∃ b : bool,
    OrderedDict___eq__ fuel a (OtherDict d) σ = Return b σ
    ∧ (b = true ↔ ∀ k v, d !! k = Some v ↔ (k, v) ∈ la).
Proof.
  intros (oa & ra & nva & Ha & _ & <-).
  exists (bool_decide (ob_dict oa = d)).
  split; [by apply (eq_dict_spec _ _ _ _ _ d fuel Ha)|].
  rewrite bool_decide_eq_true. split.
  - intros <- k v. apply Ha.
  - intros Hd. by eapply od_at_dict_eq.
Qed.

(** ** Two instances in one store *)

Lemma two_instances_sym σ a la b lb :
  two_instances σ a la b lb → two_instances σ b lb a la.
Proof.
  intros (oa & ra & nva & ob & rb & nvb & Ha & Hfa & Hla & Hb & Hfb & Hlb & Hne
          & Hsep).
  exists ob, rb, nvb, oa, ra, nva. split_and!; try done.
  intros l Hl Hin. by apply (Hsep l Hin).
Qed.

Lemma two_instances_represents σ a la b lb :
  two_instances σ a la b lb → represents σ a la ∧ represents σ b lb.
Proof.
  intros (oa & ra & nva & ob & rb & nvb & Ha & Hfa & Hla & Hb & Hfb & Hlb & _).
  split; [by exists oa, ra, nva | by exists ob, rb, nvb].
Qed.

Lemma construct_two_instances σ fuel l other kvs :
  represents σ other kvs →
  ∃ σ', construct fuel OrderedDict [PyPairs l] σ
          = Return (fresh (dom (objs σ))) σ'
        ∧ two_instances σ' (fresh (dom (objs σ))) (alist_update [] l)
            other kvs.
Proof.
  intros (oo & ro & nvo & Hoth & Hfac & <-).
  destruct (construct_spec σ fuel OrderedDict [PyPairs l] l)
    as (σ' & o' & root & nv' & Hrun & Hod & Hkv & Hc & _ & _ & Hmod & Hw & Hfp).
  - done.
  - right. by left.
  - exists σ'. split; [done|].
    exists o', root, nv', oo, ro, nvo. split_and!; try done.
    + unfold factory_ok. by rewrite Hc.
    + eapply od_at_other; [done..|]. apply is_fresh.
    + intros Heq. apply (is_fresh (dom (objs σ))). rewrite Heq.
      apply elem_of_dom. rewrite (od_obj _ _ _ _ _ Hoth). eauto.
    + intros n Hn Hin. apply (Hfp n Hn). by eapply od_at_dom.
Qed.

(** Assigning in one instance leaves every other instance of the store as
    it was: its object, its items and their order. *)
Theorem setitem_leaves_other_instance σ a la b lb k v fuel :
  two_instances σ a la b lb → length lb < fuel →
  ∃ σ', OrderedDict___setitem__ a k v σ = Return tt σ'
        ∧ two_instances σ' a (alist_set la k v) b lb
        ∧ objs σ' !! b = objs σ !! b
        ∧ OrderedDict_items fuel b σ' = Return lb σ'.
Proof.
  intros (oa & ra & nva & ob & rb & nvb & Ha & Hfa & <- & Hb & Hfb & <- & Hne
          & Hsep) Hfuel.
  destruct (setitem_spec _ _ _ _ _ k v Ha)
    as (σ' & oa' & nva' & Hrun & Ha' & Hkv & Hsame & Hmod & _ & Hgrow).
  assert (od_at σ' b ob rb nvb) as Hb'.
  { eapply od_at_frame; [done..| |]; [by intros ->|].
    intros l Hl Hin. by apply (Hsep l Hin). }
  exists σ'. split_and!; try done.
  - exists oa', ra, nva', ob, rb, nvb. split_and!; try done.
    + by eapply factory_ok_same.
    + intros l [-> | Hl]%elem_of_cons.
      * apply Hsep. clear; set_solver.
      * destruct (Hgrow l Hl) as [Hin | Hout].
        -- apply Hsep. clear -Hin. set_solver.
        -- intros Hin. apply Hout. by eapply od_at_dom.
  - apply (mod_objs _ _ _ _ Hmod); [by intros ->|].
    apply elem_of_dom. rewrite (od_obj _ _ _ _ _ Hb). eauto.
  - rewrite length_fmap in Hfuel. by eapply items_od_at.
Qed.

(** Deleting from one instance leaves every other instance of the store
    as it was. *)
Theorem delitem_leaves_other_instance σ a l1 x l2 b lb fuel :
  two_instances σ a (l1 ++ x :: l2) b lb → length lb < fuel →
  ∃ σ', OrderedDict___delitem__ a x.1 σ = Return tt σ'
        ∧ two_instances σ' a (l1 ++ l2) b lb
        ∧ objs σ' !! b = objs σ !! b
        ∧ OrderedDict_items fuel b σ' = Return lb σ'.
Proof.
  intros (oa & ra & nva & ob & rb & nvb & Ha & Hfa & Hla & Hb & Hfb & <- & Hne
          & Hsep) Hfuel.
  apply nv_split in Hla as (n1 & y & n2 & -> & <- & <- & <-).
  destruct (delitem_spec _ _ _ _ _ _ _ Ha)
    as (σ' & oa' & Hrun & Ha' & Hsame & Hmod & _).
  assert (od_at σ' b ob rb nvb) as Hb'.
  { eapply od_at_frame; [done..| |]; [by intros ->|].
    intros l Hl Hin. by apply (Hsep l Hin). }
  exists σ'. split_and!; try done.
  - exists oa', ra, (n1 ++ n2), ob, rb, nvb. split_and!; try done.
    + by eapply factory_ok_same.
    + by rewrite fmap_app.
    + intros l Hl. apply Hsep. rewrite fmap_app, fmap_cons.
      rewrite fmap_app in Hl. clear -Hl. set_solver.
  - apply (mod_objs _ _ _ _ Hmod); [by intros ->|].
    apply elem_of_dom. rewrite (od_obj _ _ _ _ _ Hb). eauto.
  - rewrite length_fmap in Hfuel. by eapply items_od_at.
Qed.


(** [copy()] of an [OrderedDict] proper returns a new instance that
    compares equal to the original and shares no link with it; the
    original is untouched. *)
Theorem plain_copy_equal_and_separate σ self kvs fuel :
  represents σ self kvs →
  (∃ o, objs σ !! self = Some o ∧ ob_class o = OrderedDict) →
  length kvs < fuel →
  ∃ c σ',
    OrderedDict_copy fuel self σ = Return c σ'
    ∧ objs σ !! c = None
    ∧ two_instances σ' c kvs self kvs
    ∧ objs σ' !! self = objs σ !! self
    ∧ OrderedDict___eq__ fuel c (OtherOD self) σ' = Return true σ'.
Proof.
  intros (o & root & nv & Hod & Hfac & <-) (o0 & Ho0 & Hc) Hfuel.
  rewrite (od_obj _ _ _ _ _ Hod) in Ho0. injection Ho0 as <-.
  assert (length nv < fuel) as Hfuel' by by rewrite length_fmap in Hfuel.
  destruct (copy_spec _ _ _ _ _ fuel false Hod Hfac Hfuel' Hc)
    as (σ' & o' & root' & nv' & Hrun & Hod' & Hkv & Hc' & _ & Hfac' & Hself
        & Hmod & Hw & Hfp).
  assert (self ∈ dom (objs σ)) as Hself_dom.
  { apply elem_of_dom. rewrite (od_obj _ _ _ _ _ Hod). eauto. }
  assert (fresh (dom (objs σ)) ≠ self) as Hne.
  { intros Heq. apply (is_fresh (dom (objs σ))). by rewrite Heq. }
  assert (two_instances σ' (fresh (dom (objs σ))) nv.*2 self nv.*2) as Htwo.
  { exists o', root', nv', o, root, nv. split_and!; try done.
    intros l Hl Hin. apply (Hfp l Hl). by eapply od_at_dom. }
  exists (fresh (dom (objs σ))), σ'. split_and!; try done.
  - apply not_elem_of_dom, is_fresh.
  - by apply (mod_objs _ _ _ _ Hmod).
  - destruct (two_instances_represents _ _ _ _ _ Htwo) as [Hr1 Hr2].
    rewrite (eq_od_represents _ _ _ _ _ fuel Hr1 Hr2 Hfuel Hfuel).
    by rewrite bool_decide_eq_true_2.
Qed.

(** ** Composed calls *)

(** The factory runs at most once for a key: the lookup that created the
    entry is followed by lookups that return the same value and change
    nothing, the state of the factory included. *)
Theorem default_second_lookup_no_call σ self kvs g k :
  represents σ self kvs → is_default σ self (PyCallable g) → k ∉ kvs.*1 →
  ∃ σ' v,
    getitem self k σ = Return v σ'
    ∧ v = (call g (world σ)).1
    ∧ getitem self k σ' = Return v σ'.
Proof.
  intros (o & root & nv & Hod & _ & <-) (o0 & Ho0 & Hc & Hf) Hk.
  rewrite (od_obj _ _ _ _ _ Hod) in Ho0. injection Ho0 as <-.
  destruct (call g (world σ)) as [v w] eqn:Hcall.
  destruct (getitem_vivify _ _ _ _ _ _ _ _ _ Hod Hc Hf Hk Hcall)
    as (σ' & o' & Hrun & Hod' & _ & _).
  exists σ', v. split_and!; try done.
  eapply getitem_present; [done|]. rewrite fmap_app. clear; set_solver.
Qed.

(** An entry that was just appended is the one [popitem()] takes, and the
    instance is back to the items it had. *)
Theorem set_then_popitem_restores σ self kvs k v fuel :
  represents σ self kvs → k ∉ kvs.*1 → length kvs < fuel →
  ∃ σ', (OrderedDict___setitem__ self k v;;
         OrderedDict_popitem self true) σ = Return (k, v) σ'
        ∧ represents σ' self kvs
        ∧ OrderedDict_items fuel self σ' = Return kvs σ'.
Proof.
  intros Hrep Hk Hfuel.
  destruct (setitem_represents _ _ _ k v Hrep) as (σ1 & Hrun1 & Hrep1 & _).
  rewrite alist_set_absent in Hrep1 by done.
  destruct (popitem_represents _ _ _ _ _ true Hrep1 eq_refl)
    as (σ2 & Hrun2 & Hrep2 & _).
  rewrite app_nil_r in Hrep2.
  exists σ2. unfold mbind, M_bind, bind. rewrite Hrun1, Hrun2.
  split_and!; try done. by apply items_spec.
Qed.

(** ** Edge cases of [update] and [__init__] *)

(** [update] called with anything but one argument after [self]: with
    none it does nothing, with more it raises a [TypeError] whose count
    includes [self]; the store is unchanged either way. *)
Theorem update_arity_contract σ fuel self args :
  length args ≠ 1 →
  OrderedDict_update fuel self args σ
  = match args with
    | [] => Return tt σ
    | _ => Raise (Exn TypeError
                    (inr ("update() takes at most 2 positional arguments ("
                          +:+ pretty (S (length args)) +:+ " given)"))) σ
    end.
Proof.
  intros Hlen. unfold OrderedDict_update.
  destruct args as [|x [|y args]]; simpl in *; [done | lia | done].
Qed.

(** Calling [__init__] again on an instance keeps its sentinel and its
    entries: the call acts as [update] with the initializer. *)
Theorem reinit_keeps_entries σ self kvs l fuel :
  represents σ self kvs →
  ∃ σ', OrderedDict___init__ fuel self [PyPairs l] σ = Return tt σ'
        ∧ represents σ' self (alist_update kvs l)
        ∧ OrderedDict_update fuel self [PyPairs l] σ = Return tt σ'
        ∧ world σ' = world σ.
Proof.
  intros Hrep.
  destruct (setitems_represents _ _ _ l Hrep) as (σ' & Hrun & Hrep' & Hw).
  destruct Hrep as (o & root & nv & Hod & _ & _).
  assert (OrderedDict_update fuel self [PyPairs l] σ = Return tt σ') as Hup.
  { unfold OrderedDict_update. simpl. by try rewrite decide_False by lia. }
  exists σ'. split_and!; try done.
  unfold OrderedDict___init__. simpl. try rewrite decide_False by lia.
  unfold try_except, get_root, get_obj, mbind, M_bind, bind at 1 2 3.
  rewrite (od_obj _ _ _ _ _ Hod), (od_root _ _ _ _ _ Hod).
  unfold mret, M_ret, ret. exact Hup.
Qed.

(** ** Construction of a [DefaultOrderedDict] *)

(** [DefaultOrderedDict(f, pairs)] for [f] callable or [None] returns a
    new instance that stores [f] as its factory and holds the pairs; the
    factory is not called.  Without arguments the factory is [None]. *)
Theorem default_constructor_contract σ fuel f l :
  (is_none f || is_callable f) = true →
  (∃ d σ', construct fuel DefaultOrderedDict [f; PyPairs l] σ = Return d σ'
           ∧ objs σ !! d = None
           ∧ represents σ' d (alist_update [] l)
           ∧ is_default σ' d f
           ∧ world σ' = world σ)
  ∧ (∃ d σ', construct fuel DefaultOrderedDict [] σ = Return d σ'
             ∧ represents σ' d []
             ∧ is_default σ' d PyNone).
Proof.
  intros Hf. split.
  - destruct (construct_default_represents σ fuel f l Hf)
      as (σ' & Hrun & Hrep & Hdef & Hw).
    exists (fresh (dom (objs σ))), σ'. split_and!; try done.
    apply fresh_obj.
  - destruct (construct_spec σ fuel DefaultOrderedDict [] [])
      as (σ' & o' & root & nv' & Hrun & Hod & Hkv & Hc & Hfac & _);
      [done | by left |].
    exists (fresh (dom (objs σ))), σ'. split_and!; [done| |].
    + exists o', root, nv'. split_and!; [done| |done].
      unfold factory_ok. rewrite Hc, Hfac. by exists PyNone.
    + exists o'. split_and!; [apply Hod | done | done].
Qed.

(** ** Instance attributes in [__reduce__] *)

Lemma reduce_plain_state σ self o root nv fuel :
  od_at σ self o root nv → ob_class o = OrderedDict → length nv < fuel →
  ∃ σ',
    reduce fuel self σ
    = Return (mkReduce OrderedDict [PyPairs nv.*2]
                (if decide (ob_vars o = ∅) then None else Some (ob_vars o))
                None) σ'
    ∧ od_at σ' self o root nv.
Proof.
  intros Hod Hc Hfuel.
  destruct (construct_spec σ fuel OrderedDict [] [])
    as (σ' & o' & root' & nv' & Hrun & _ & _ & _ & _ & _ & Hmod & Hw & _);
    [done | by left |].
  assert (od_at σ' self o root nv) as Hod'.
  { eapply od_at_other; [done..|]. apply is_fresh. }
  exists σ'. split; [|done].
  unfold reduce, OrderedDict___reduce__.
  unfold get_obj, mbind, M_bind, bind, mret, M_ret, ret.
  rewrite (od_obj _ _ _ _ _ Hod), Hc.
  pose proof (items_od_at _ _ _ _ _ _ Hod Hfuel) as Hitems.
  unfold OrderedDict_items, mbind, M_bind, bind, mret, M_ret, ret in Hitems.
  rewrite Hitems, (od_obj _ _ _ _ _ Hod), Hrun, Hc.
  by destruct (decide (ob_vars o = ∅)).
Qed.

(** The reduce value of an [OrderedDict] proper carries the instance
    attributes as state exactly when there are any, and the object rebuilt
    from it has those attributes and the same items. *)
Theorem reduce_keeps_instance_attributes σ self kvs vars fuel :
  represents σ self kvs → is_plain σ self vars → length kvs < fuel →
  ∃ rv σ1 obj σ2,
    reduce fuel self σ = Return rv σ1
    ∧ rv_state rv = (if decide (vars = ∅) then None else Some vars)
    ∧ reconstruct fuel rv σ1 = Return obj σ2
    ∧ obj ≠ self
    ∧ is_plain σ2 obj vars
    ∧ represents σ2 obj kvs.
Proof.
  intros (o & root & nv & Hod & _ & <-) (o0 & Ho & Hc & <-) Hfuel.
  rewrite (od_obj _ _ _ _ _ Hod) in Ho. injection Ho as <-.
  rewrite length_fmap in Hfuel.
  destruct (reduce_plain_state _ _ _ _ _ _ Hod Hc Hfuel) as (σ1 & Hred & Hod1).
  destruct (construct_spec σ1 fuel OrderedDict [PyPairs nv.*2] nv.*2)
    as (σ2 & o1 & root1 & nv1 & Hrun & Hod2 & Hkv & Hc1 & _ & Hvars & _);
    [done | right; by left |].
  rewrite alist_update_nil in Hkv by apply Hod.
  assert (fresh (dom (objs σ1)) ≠ self) as Hne.
  { intros Heq. apply (is_fresh (dom (objs σ1))). rewrite Heq.
    apply elem_of_dom. rewrite (od_obj _ _ _ _ _ Hod1). eauto. }
  destruct (decide (ob_vars o = ∅)) as [Hemp | Hnemp].
  - eexists _, σ1, (fresh (dom (objs σ1))), σ2.
    split_and!; [exact Hred|done| |done| |].
    + unfold reconstruct, mbind, M_bind, bind. simpl. by rewrite Hrun.
    + exists o1. split_and!; [apply Hod2 | done | congruence].
    + exists o1, root1, nv1. split_and!; [done| |done].
      unfold factory_ok. by rewrite Hc1.
  - pose proof (od_at_set_vars _ _ _ _ _ (ob_vars o ∪ ob_vars o1) Hod2) as Hod3.
    eexists _, σ1, (fresh (dom (objs σ1))), _.
    split_and!; [exact Hred|done| |done| |].
    + unfold reconstruct, mbind, M_bind, bind. simpl. rewrite Hrun.
      unfold get_obj, put_obj, mret, M_ret, ret.
      rewrite (od_obj _ _ _ _ _ Hod2). reflexivity.
    + eexists. split_and!; [apply Hod3 | done |].
      simpl. rewrite Hvars. apply (right_id_L ∅ (∪)).
    + eexists _, root1, nv1. split_and!; [exact Hod3| |done].
      unfold factory_ok. simpl. by rewrite Hc1.
Qed.

End odict.

(** * Concrete instances

    String keys, integer values; a function object [f] returns the
    constant [f], and the world counts the calls made. *)

Module Demo.

Definition demo_call (f : Z) (w : nat) : Z * nat := (f, S w).

Definition empty_store : Store (K:=string) (V:=Z) (W:=nat) (callable:=Z) :=
  mkStore ∅ ∅ 0.

Definition abc : list (string * Z) := [("a", 1%Z); ("b", 2%Z); ("c", 3%Z)].

Definition factory7 : pyval (K:=string) (V:=Z) (callable:=Z) := PyCallable 7%Z.

(** [OrderedDict()] *)
Definition store_empty_od : Store :=
  final_store (construct demo_call 8 OrderedDict [] empty_store) empty_store.

(** [OrderedDict([("a", 1), ("b", 2), ("c", 3)])] *)
Definition store_abc : Store :=
  final_store (construct demo_call 8 OrderedDict [PyPairs abc] empty_store)
              empty_store.

(** [DefaultOrderedDict(f, [("a", 1), ("b", 2), ("c", 3)])] *)
Definition store_default (f : pyval) : Store :=
  final_store
    (construct demo_call 8 DefaultOrderedDict [f; PyPairs abc] empty_store)
    empty_store.

(** [OrderedDict([("a", 1), ("b", 2)])] and then
    [OrderedDict([("b", 2), ("a", 1)])] *)
Definition store_ab_ba : Store :=
  final_store
    ((construct demo_call 8 OrderedDict [PyPairs [("a", 1%Z); ("b", 2%Z)]];;
      construct demo_call 8 OrderedDict [PyPairs [("b", 2%Z); ("a", 1%Z)]])
       empty_store)
    empty_store.

(** The value a run returns. *)
Definition result {A} (r : outcome (K:=string) (V:=Z) (W:=nat) (callable:=Z) A)
    : option A :=
  match r with Return a _ => Some a | _ => None end.

Lemma store_empty_od_represents : represents store_empty_od 0 [].
Proof.
  destruct (construct_empty_represents demo_call empty_store 8)
    as (σ' & Hrun & Hrep & _).
  unfold store_empty_od. rewrite Hrun. exact Hrep.
Qed.

Lemma store_abc_represents : represents store_abc 0 abc.
Proof.
  destruct (construct_represents demo_call empty_store 8 abc)
    as (σ' & Hrun & Hrep & _).
  unfold store_abc. rewrite Hrun. exact Hrep.
Qed.

Lemma store_default_represents f :
  (is_none f || is_callable f) = true →
  represents (store_default f) 0 abc ∧ is_default (store_default f) 0 f.
Proof.
  intros Hf.
  destruct (construct_default_represents demo_call empty_store 8 f abc Hf)
    as (σ' & Hrun & Hrep & Hdef & _).
  unfold store_default. rewrite Hrun. split; [exact Hrep | exact Hdef].
Qed.

Lemma store_ab_ba_represents :
  represents store_ab_ba 0 [("a", 1%Z); ("b", 2%Z)]
  ∧ represents store_ab_ba 1 [("b", 2%Z); ("a", 1%Z)].
Proof.
  destruct (construct_represents demo_call empty_store 8
              [("a", 1%Z); ("b", 2%Z)]) as (σ1 & Hrun1 & Hrep1 & _).
  destruct (construct_pairs_frame demo_call σ1 8 [("b", 2%Z); ("a", 1%Z)]
              _ _ Hrep1) as (σ2 & Hrun2 & Hrep2 & Hrep1' & _).
  assert (fresh (dom (objs σ1)) = 1) as Hfresh.
  { vm_compute in Hrun1. injection Hrun1 as <-. by vm_compute. }
  unfold store_ab_ba. unfold mbind, M_bind, bind. rewrite Hrun1, Hrun2.
  rewrite Hfresh in Hrep2. split; [exact Hrep1' | exact Hrep2].
Qed.

Lemma abc_NoDup : NoDup abc.*1.
Proof. apply (bool_decide_unpack (NoDup abc.*1)). by vm_compute. Qed.

Lemma default_factory_7_ok : (is_none factory7 || is_callable factory7) = true.
Proof. reflexivity. Qed.

Lemma keys_after_distinct_sets_witness :
  represents store_empty_od 0 [] ∧ NoDup abc.*1 ∧ length abc < 8
  ∧ ∃ σ', setitems 0 abc store_empty_od = Return tt σ'
          ∧ OrderedDict_keys 8 0 σ' = Return abc.*1 σ'.
Proof.
  split_and!; [exact store_empty_od_represents | exact abc_NoDup
               | simpl; lia |].
  apply (keys_after_distinct_sets store_empty_od 0 abc 8);
    [exact store_empty_od_represents | exact abc_NoDup | simpl; lia].
Defined.

Lemma setitem_existing_keeps_position_witness :
  represents store_abc 0 abc ∧ "b" ∈ abc.*1 ∧ length abc < 8
  ∧ ∃ σ' ks,
      OrderedDict___setitem__ 0 "b" 20%Z store_abc = Return tt σ'
      ∧ getitem demo_call 0 "b" σ' = Return 20%Z σ'
      ∧ OrderedDict_keys 8 0 store_abc = Return ks store_abc
      ∧ OrderedDict_keys 8 0 σ' = Return ks σ'
      ∧ ks = abc.*1.
Proof.
  assert ("b" ∈ abc.*1) as Hb
    by (apply (bool_decide_unpack ("b" ∈ abc.*1)); by vm_compute).
  split_and!; [exact store_abc_represents | exact Hb | simpl; lia |].
  apply (setitem_existing_keeps_position demo_call store_abc 0 abc "b" 20%Z 8);
    [exact store_abc_represents | exact Hb | simpl; lia].
Defined.

Lemma default_getitem_contract_witness :
  represents (store_default factory7) 0 abc
  ∧ is_default (store_default factory7) 0 factory7
  ∧ S (length abc) < 8
  ∧ (∀ v, ("x", v) ∈ abc →
          getitem demo_call 0 "x" (store_default factory7)
          = Return v (store_default factory7))
  ∧ (∀ g, "x" ∉ abc.*1 → factory7 = PyCallable g →
       ∃ σ', getitem demo_call 0 "x" (store_default factory7)
             = Return (demo_call g (world (store_default factory7))).1 σ'
             ∧ world σ'
               = (demo_call g (world (store_default factory7))).2
             ∧ represents σ' 0
                 (abc ++ [("x", (demo_call g
                             (world (store_default factory7))).1)])
             ∧ OrderedDict_keys 8 0 σ' = Return (abc.*1 ++ ["x"]) σ')
  ∧ ("x" ∉ abc.*1 → factory7 = PyNone →
       getitem demo_call 0 "x" (store_default factory7)
       = Raise (Exn KeyError (inl "x")) (store_default factory7)).
Proof.
  destruct (store_default_represents _ default_factory_7_ok) as [Hrep Hdef].
  split; [exact Hrep|]. split; [exact Hdef|]. split; [simpl; lia|].
  apply (default_getitem_contract demo_call (store_default factory7)
           0 abc factory7 "x" 8 Hrep Hdef).
  simpl; lia.
Defined.

Lemma eq_order_sensitivity_witness :
  represents store_ab_ba 0 [("a", 1%Z); ("b", 2%Z)]
  ∧ represents store_ab_ba 1 [("b", 2%Z); ("a", 1%Z)]
  ∧ [("a", 1%Z); ("b", 2%Z)] ≡ₚ [("b", 2%Z); ("a", 1%Z)]
  ∧ [("a", 1%Z); ("b", 2%Z)] ≠ [("b", 2%Z); ("a", 1%Z)]
  ∧ length [("a", 1%Z); ("b", 2%Z)] < 8
  ∧ OrderedDict___eq__ demo_call 8 0 (OtherOD 1) store_ab_ba
    = Return false store_ab_ba
  ∧ OrderedDict___eq__ demo_call 8 1 (OtherOD 0) store_ab_ba
    = Return false store_ab_ba
  ∧ OrderedDict___eq__ demo_call 8 0
      (OtherDict (list_to_map [("a", 1%Z); ("b", 2%Z)])) store_ab_ba
    = Return true store_ab_ba
  ∧ OrderedDict___eq__ demo_call 8 1
      (OtherDict (list_to_map [("a", 1%Z); ("b", 2%Z)])) store_ab_ba
    = Return true store_ab_ba.
Proof.
  destruct store_ab_ba_represents as [Ha Hb].
  assert ([("a", 1%Z); ("b", 2%Z)] ≡ₚ [("b", 2%Z); ("a", 1%Z)]) as Hperm
    by apply perm_swap.
  assert ([("a", 1%Z); ("b", 2%Z)] ≠ [("b", 2%Z); ("a", 1%Z)]) as Hne by done.
  split; [exact Ha|]. split; [exact Hb|]. split; [exact Hperm|].
  split; [exact Hne|]. split; [simpl; lia|].
  apply (eq_order_sensitivity demo_call store_ab_ba 0 1
           [("a", 1%Z); ("b", 2%Z)] [("b", 2%Z); ("a", 1%Z)]
           (list_to_map [("a", 1%Z); ("b", 2%Z)]) 8 Ha Hb Hperm Hne).
  - intros k v. symmetry. apply elem_of_list_to_map.
    apply (bool_decide_unpack (NoDup [("a", 1%Z); ("b", 2%Z)].*1)).
    by vm_compute.
  - simpl; lia.
Defined.

Lemma popitem_last_first_witness :
  represents store_abc 0 ([("a", 1%Z); ("b", 2%Z)] ++ ("c", 3%Z) :: [])
  ∧ (if true then @nil (string * Z) = [] else [("a", 1%Z); ("b", 2%Z)] = [])
  ∧ length ([("a", 1%Z); ("b", 2%Z)] ++ @nil (string * Z)) < 8
  ∧ ∃ σ', OrderedDict_popitem 0 true store_abc = Return ("c", 3%Z) σ'
          ∧ represents σ' 0 ([("a", 1%Z); ("b", 2%Z)] ++ [])
          ∧ OrderedDict_keys 8 0 σ'
            = Return ([("a", 1%Z); ("b", 2%Z)] ++ []).*1 σ'.
Proof.
  split; [exact store_abc_represents|]. split; [reflexivity|].
  split; [simpl; lia|].
  apply (popitem_last_first store_abc 0 [("a", 1%Z); ("b", 2%Z)] ("c", 3%Z)
           [] true 8 store_abc_represents); [reflexivity | simpl; lia].
Defined.

Lemma popitem_empty_KeyError_witness :
  represents store_empty_od 0 []
  ∧ OrderedDict_popitem 0 true store_empty_od
    = Raise (Exn KeyError (inr "dictionary is empty")) store_empty_od.
Proof.
  split; [exact store_empty_od_represents|].
  apply (popitem_empty_KeyError store_empty_od 0 true
           store_empty_od_represents).
Defined.

(** C6 as the claim states it fails on the empty dictionary: the
    exception of [popitem] and the exception of [pop] on a missing key
    have the same class. *)
Lemma empty_pop_same_class_as_missing_key :
  ¬ empty_pop_kind_distinct demo_call store_empty_od 0.
Proof.
  intros Hdistinct.
  apply (Hdistinct true "a"
           (Exn KeyError (inr "dictionary is empty")) (Exn KeyError (inl "a"))
           store_empty_od store_empty_od).
  - by vm_compute.
  - by vm_compute.
  - reflexivity.
Qed.

Lemma pop_key_contract_witness :
  represents store_abc 0 abc
  ∧ ((∃ e τ, OrderedDict_pop demo_call 0 "b" None store_abc = Raise e τ)
     ↔ (@None Z = None ∧ "b" ∉ abc.*1))
  ∧ ("b" ∉ abc.*1 → @None Z = None →
       OrderedDict_pop demo_call 0 "b" None store_abc
       = Raise (Exn KeyError (inl "b")) store_abc)
  ∧ (∀ d, "b" ∉ abc.*1 → None = Some d →
       OrderedDict_pop demo_call 0 "b" None store_abc = Return d store_abc)
  ∧ (∀ v, ("b", v) ∈ abc →
       ∃ σ', OrderedDict_pop demo_call 0 "b" None store_abc = Return v σ'
             ∧ represents σ' 0 (alist_remove abc "b")
             ∧ "b" ∉ (alist_remove abc "b").*1).
Proof.
  split; [exact store_abc_represents|].
  apply (pop_key_contract demo_call store_abc 0 abc "b" None
           store_abc_represents).
Defined.

Lemma reduce_reconstruct_roundtrip_witness :
  represents store_abc 0 abc ∧ length abc < 8
  ∧ ∃ rv σ1 obj σ2,
      reduce demo_call 8 0 store_abc = Return rv σ1
      ∧ rv_pairs rv = abc
      ∧ reconstruct demo_call 8 rv σ1 = Return obj σ2
      ∧ obj ≠ 0
      ∧ represents σ2 obj abc
      ∧ OrderedDict_items demo_call 8 obj σ2 = Return abc σ2
      ∧ OrderedDict_keys 8 obj σ2 = Return abc.*1 σ2
      ∧ OrderedDict_items demo_call 8 0 store_abc = Return abc store_abc.
Proof.
  split; [exact store_abc_represents|]. split; [simpl; lia|].
  apply (reduce_reconstruct_roundtrip demo_call store_abc 0 abc 8
           store_abc_represents).
  simpl; lia.
Defined.

Lemma default_copy_independent_witness :
  represents (store_default factory7) 0 abc
  ∧ is_default (store_default factory7) 0 factory7
  ∧ length abc < 8
  ∧ ∃ c σ',
      DefaultOrderedDict_copy demo_call 8 0 (store_default factory7)
      = Return c σ'
      ∧ c ≠ 0 ∧ objs (store_default factory7) !! c = None
      ∧ is_default σ' c factory7
      ∧ represents σ' c abc
      ∧ represents σ' 0 abc
      ∧ objs σ' !! 0 = objs (store_default factory7) !! 0
      ∧ ∀ x v, ∃ σ'',
          OrderedDict___setitem__ c x v σ' = Return tt σ''
          ∧ represents σ'' c (alist_set abc x v)
          ∧ objs σ'' !! 0 = objs (store_default factory7) !! 0
          ∧ represents σ'' 0 abc
          ∧ OrderedDict_keys 8 0 σ'' = Return abc.*1 σ''
          ∧ OrderedDict_items demo_call 8 0 σ'' = Return abc σ''
          ∧ ∀ k w, (k, w) ∈ abc → getitem demo_call 0 k σ'' = Return w σ''.
Proof.
  destruct (store_default_represents _ default_factory_7_ok) as [Hrep Hdef].
  split; [exact Hrep|]. split; [exact Hdef|]. split; [simpl; lia|].
  apply (default_copy_independent demo_call (store_default factory7)
           0 abc factory7 8 Hrep Hdef).
  simpl; lia.
Defined.

Lemma items_zip_keys_values_witness :
  represents store_abc 0 abc ∧ length abc < 8
  ∧ ∃ ks vs its,
      OrderedDict_keys 8 0 store_abc = Return ks store_abc
      ∧ OrderedDict_values demo_call 8 0 store_abc = Return vs store_abc
      ∧ OrderedDict_items demo_call 8 0 store_abc = Return its store_abc
      ∧ its = zip ks vs
      ∧ length ks = length its ∧ length vs = length its
      ∧ ∀ i k v, ks !! i = Some k → vs !! i = Some v → its !! i = Some (k, v).
Proof.
  split; [exact store_abc_represents|]. split; [simpl; lia|].
  apply (items_zip_keys_values demo_call store_abc 0 abc 8
           store_abc_represents).
  simpl; lia.
Defined.

(** The examples of the specification, run on the embedding. *)

Example pop_last_abc :
  result ((p ← OrderedDict_popitem 0 true;
           ks ← OrderedDict_keys 8 0; mret (p, ks)) store_abc)
  = Some (("c", 3%Z), ["a"; "b"]).
Proof. by vm_compute. Qed.

Example pop_first_abc :
  result ((p ← OrderedDict_popitem 0 false;
           ks ← OrderedDict_keys 8 0; mret (p, ks)) store_abc)
  = Some (("a", 1%Z), ["b"; "c"]).
Proof. by vm_compute. Qed.

Example delete_readd_moves_to_tail :
  result ((OrderedDict___delitem__ 0 "a";;
           OrderedDict___setitem__ 0 "a" 9%Z;;
           OrderedDict_items demo_call 8 0) store_abc)
  = Some [("b", 2%Z); ("c", 3%Z); ("a", 9%Z)].
Proof. by vm_compute. Qed.

Example reinsert_keeps_position :
  result ((OrderedDict___setitem__ 0 "a" 9%Z;;
           OrderedDict_items demo_call 8 0) store_abc)
  = Some [("a", 9%Z); ("b", 2%Z); ("c", 3%Z)].
Proof. by vm_compute. Qed.

Example default_vivifies :
  result ((v ← getitem demo_call 0 "x";
           ks ← OrderedDict_keys 8 0; mret (v, ks)) (store_default factory7))
  = Some (7%Z, ["a"; "b"; "c"; "x"]).
Proof. by vm_compute. Qed.

Example default_without_factory :
  getitem demo_call 0 "z" (store_default PyNone)
  = Raise (Exn KeyError (inl "z")) (store_default PyNone).
Proof. by vm_compute. Qed.

Example copy_then_set :
  result ((c ← DefaultOrderedDict_copy demo_call 8 0;
           OrderedDict___setitem__ c "x" 9%Z;;
           ks ← OrderedDict_keys 8 0;
           kc ← OrderedDict_keys 8 c; mret (ks, kc)) (store_default factory7))
  = Some (["a"; "b"; "c"], ["a"; "b"; "c"; "x"]).
Proof. by vm_compute. Qed.

Example loop_cut_off :
  OrderedDict_keys 3 0 store_abc = OutOfFuel.
Proof. by vm_compute. Qed.

(** ** Instances for the further properties *)

Definition ab : list (string * Z) := [("a", 1%Z); ("b", 2%Z)].
Definition ba : list (string * Z) := [("b", 2%Z); ("a", 1%Z)].

Definition not_a_factory : pyval (K:=string) (V:=Z) (callable:=Z) :=
  PyPairs abc.

Definition tag : gmap string Z := {[ "tag" := 5%Z ]}.

(** [d = OrderedDict([("a", 1), ("b", 2), ("c", 3)]); d.tag = 5] *)
Definition store_tagged : Store :=
  final_store
    ((o ← get_obj 0;
      put_obj 0 (mkObject (ob_class o) (ob_dict o) (ob_root o) (ob_map o)
                          (default_factory o) tag)) store_abc)
    store_abc.

Lemma x_not_in_abc : "x" ∉ abc.*1.
Proof. apply (bool_decide_unpack ("x" ∉ abc.*1)). by vm_compute. Qed.

Lemma b_in_abc : ("b", 2%Z) ∈ abc.
Proof. apply (bool_decide_unpack (("b", 2%Z) ∈ abc)). by vm_compute. Qed.

Lemma store_abc_plain : is_plain store_abc 0 ∅.
Proof. eexists. split_and!; by vm_compute. Qed.

Lemma store_abc_class :
  ∃ o, objs store_abc !! 0 = Some o ∧ ob_class o = OrderedDict.
Proof. eexists. split; by vm_compute. Qed.

Lemma store_ab_ba_two_instances : two_instances store_ab_ba 1 ba 0 ab.
Proof.
  destruct (construct_represents demo_call empty_store 8 ab)
    as (σ1 & Hrun1 & Hrep1 & _).
  destruct (construct_two_instances demo_call σ1 8 ba _ _ Hrep1)
    as (σ2 & Hrun2 & Htwo).
  assert (fresh (dom (objs σ1)) = 1) as Hfresh.
  { vm_compute in Hrun1. injection Hrun1 as <-. by vm_compute. }
  unfold store_ab_ba. unfold mbind, M_bind, bind.
  change [("a", 1%Z); ("b", 2%Z)] with ab.
  change [("b", 2%Z); ("a", 1%Z)] with ba.
  rewrite Hrun1, Hrun2. rewrite Hfresh in Htwo. exact Htwo.
Qed.

Lemma store_tagged_represents :
  represents store_tagged 0 abc ∧ is_plain store_tagged 0 tag.
Proof.
  destruct store_abc_represents as (o & root & nv & Hod & Hfac & Hkv).
  destruct store_abc_plain as (o0 & Ho0 & Hc & _).
  rewrite (od_obj _ _ _ _ _ Hod) in Ho0. injection Ho0 as <-.
  pose proof (od_at_set_vars _ _ _ _ _ tag Hod) as Hod'.
  unfold store_tagged, get_obj, put_obj, mbind, M_bind, bind.
  rewrite (od_obj _ _ _ _ _ Hod). simpl. split.
  - eexists _, root, nv. split_and!; [exact Hod'| |done].
    unfold factory_ok. simpl. by rewrite Hc.
  - eexists. split_and!; [apply Hod' | done | done].
Qed.

Lemma len_contains_agree_with_keys_witness :
  represents store_abc 0 abc ∧ length abc < 8
  ∧ ∃ ks, OrderedDict_keys 8 0 store_abc = Return ks store_abc
          ∧ dict___len__ 0 store_abc = Return (length ks) store_abc
          ∧ dict___contains__ 0 "b" store_abc
            = Return (bool_decide ("b" ∈ ks)) store_abc.
Proof.
  split; [exact store_abc_represents|]. split; [simpl; lia|].
  apply (len_contains_agree_with_keys store_abc 0 abc "b" 8
           store_abc_represents).
  simpl; lia.
Defined.

Lemma plain_getitem_contract_witness :
  represents store_abc 0 abc
  ∧ (∃ o, objs store_abc !! 0 = Some o ∧ ob_class o = OrderedDict)
  ∧ (∀ v, ("x", v) ∈ abc → getitem demo_call 0 "x" store_abc = Return v store_abc)
  ∧ ("x" ∉ abc.*1 →
     getitem demo_call 0 "x" store_abc
     = Raise (Exn KeyError (inl "x")) store_abc).
Proof.
  split; [exact store_abc_represents|]. split; [exact store_abc_class|].
  apply (plain_getitem_contract demo_call store_abc 0 abc "x"
           store_abc_represents store_abc_class).
Defined.

Lemma setitem_absent_appends_witness :
  represents store_abc 0 abc ∧ ("x" ∉ abc.*1) ∧ S (length abc) < 8
  ∧ ∃ σ', OrderedDict___setitem__ 0 "x" 9%Z store_abc = Return tt σ'
          ∧ represents σ' 0 (abc ++ [("x", 9%Z)])
          ∧ OrderedDict_items demo_call 8 0 σ'
            = Return (abc ++ [("x", 9%Z)]) σ'
          ∧ world σ' = world store_abc.
Proof.
  split; [exact store_abc_represents|]. split; [exact x_not_in_abc|].
  split; [simpl; lia|].
  apply (setitem_absent_appends demo_call store_abc 0 abc "x" 9%Z 8
           store_abc_represents x_not_in_abc).
  simpl; lia.
Defined.

Lemma delitem_present_removes_witness :
  represents store_abc 0 abc ∧ ("b", 2%Z) ∈ abc ∧ length abc < 8
  ∧ ∃ σ', OrderedDict___delitem__ 0 "b" store_abc = Return tt σ'
          ∧ represents σ' 0 (alist_remove abc "b")
          ∧ OrderedDict_items demo_call 8 0 σ'
            = Return (alist_remove abc "b") σ'
          ∧ dict___contains__ 0 "b" σ' = Return false σ'.
Proof.
  split; [exact store_abc_represents|]. split; [exact b_in_abc|].
  split; [simpl; lia|].
  apply (delitem_present_removes demo_call store_abc 0 abc "b" 2%Z 8
           store_abc_represents b_in_abc).
  simpl; lia.
Defined.

Lemma delitem_absent_KeyError_witness :
  represents store_abc 0 abc ∧ ("x" ∉ abc.*1)
  ∧ OrderedDict___delitem__ 0 "x" store_abc
    = Raise (Exn KeyError (inl "x")) store_abc.
Proof.
  split; [exact store_abc_represents|]. split; [exact x_not_in_abc|].
  apply (delitem_absent_KeyError store_abc 0 abc "x"
           store_abc_represents x_not_in_abc).
Defined.

Lemma delete_then_set_moves_to_tail_witness :
  represents store_abc 0 ([("a", 1%Z)] ++ ("b", 2%Z) :: [("c", 3%Z)])
  ∧ S (length ([("a", 1%Z)] ++ [("c", 3%Z)])) < 8
  ∧ ∃ σ', (OrderedDict___delitem__ 0 "b";;
           OrderedDict___setitem__ 0 "b" 20%Z) store_abc = Return tt σ'
          ∧ represents σ' 0 ([("a", 1%Z)] ++ [("c", 3%Z)] ++ [("b", 20%Z)])
          ∧ OrderedDict_keys 8 0 σ'
            = Return (([("a", 1%Z)] ++ [("c", 3%Z)]).*1 ++ ["b"]) σ'.
Proof.
  split; [exact store_abc_represents|]. split; [simpl; lia|].
  apply (delete_then_set_moves_to_tail store_abc 0 [("a", 1%Z)] ("b", 2%Z)
           [("c", 3%Z)] 20%Z 8 store_abc_represents).
  simpl; lia.
Defined.

Lemma setdefault_contract_witness :
  represents store_abc 0 abc
  ∧ (∀ v, ("x", v) ∈ abc →
          OrderedDict_setdefault demo_call 0 "x" 0%Z store_abc
          = Return v store_abc)
  ∧ ("x" ∉ abc.*1 →
     ∃ σ', OrderedDict_setdefault demo_call 0 "x" 0%Z store_abc
           = Return 0%Z σ'
           ∧ represents σ' 0 (abc ++ [("x", 0%Z)])).
Proof.
  split; [exact store_abc_represents|].
  apply (setdefault_contract demo_call store_abc 0 abc "x" 0%Z
           store_abc_represents).
Defined.


Lemma constructor_from_pairs_witness :
  NoDup abc.*1 ∧ length abc < 8
  ∧ ∃ d σ', construct demo_call 8 OrderedDict [PyPairs abc] empty_store
            = Return d σ'
            ∧ objs empty_store !! d = None
            ∧ represents σ' d abc
            ∧ OrderedDict_items demo_call 8 d σ' = Return abc σ'.
Proof.
  split; [exact abc_NoDup|]. split; [simpl; lia|].
  apply (constructor_from_pairs demo_call empty_store abc 8 abc_NoDup).
  simpl; lia.
Defined.

Lemma constructor_arity_TypeError_witness :
  1 < length [factory7; factory7]
  ∧ ∃ σ', construct demo_call 8 OrderedDict [factory7; factory7] empty_store
          = Raise (Exn TypeError
                     (inr ("expected at most 1 arguments, got "
                           +:+ pretty (length [factory7; factory7])))) σ'
          ∧ links σ' = links empty_store
          ∧ ∀ r, r ∈ dom (objs empty_store) →
                 objs σ' !! r = objs empty_store !! r.
Proof.
  split; [simpl; lia|].
  apply (constructor_arity_TypeError demo_call empty_store 8
           [factory7; factory7]).
  simpl; lia.
Defined.

Lemma default_noncallable_TypeError_witness :
  is_none not_a_factory = false ∧ is_callable not_a_factory = false
  ∧ ∃ σ', construct demo_call 8 DefaultOrderedDict (not_a_factory :: [])
            empty_store
          = Raise (Exn TypeError (inr "first argument must be callable")) σ'
          ∧ links σ' = links empty_store
          ∧ ∀ r, r ∈ dom (objs empty_store) →
                 objs σ' !! r = objs empty_store !! r.
Proof.
  split; [reflexivity|]. split; [reflexivity|].
  apply (default_noncallable_TypeError demo_call empty_store 8
           not_a_factory []); reflexivity.
Defined.

Lemma clear_empties_witness :
  represents store_abc 0 abc ∧ 0 < 8
  ∧ ∃ σ', OrderedDict_clear 0 store_abc = Return tt σ'
          ∧ represents σ' 0 []
          ∧ OrderedDict_keys 8 0 σ' = Return [] σ'
          ∧ dict___len__ 0 σ' = Return 0 σ'
          ∧ world σ' = world store_abc.
Proof.
  split; [exact store_abc_represents|]. split; [lia|].
  apply (clear_empties store_abc 0 abc 8 store_abc_represents).
  lia.
Defined.

Lemma reversed_is_reverse_of_keys_witness :
  represents store_abc 0 abc ∧ length abc < 8
  ∧ ∃ ks, OrderedDict_keys 8 0 store_abc = Return ks store_abc
          ∧ reversed_keys 8 0 store_abc = Return (reverse ks) store_abc.
Proof.
  split; [exact store_abc_represents|]. split; [simpl; lia|].
  apply (reversed_is_reverse_of_keys store_abc 0 abc 8 store_abc_represents).
  simpl; lia.
Defined.

Lemma eq_instances_iff_same_items_witness :
  represents store_ab_ba 0 ab ∧ represents store_ab_ba 1 ba
  ∧ length ab < 8 ∧ length ba < 8
  ∧ OrderedDict___eq__ demo_call 8 0 (OtherOD 1) store_ab_ba
    = Return (bool_decide (ab = ba)) store_ab_ba
  ∧ OrderedDict___ne__ demo_call 8 0 (OtherOD 1) store_ab_ba
    = Return (bool_decide (ab ≠ ba)) store_ab_ba.
Proof.
  destruct store_ab_ba_represents as [Ha Hb].
  split; [exact Ha|]. split; [exact Hb|]. split; [simpl; lia|].
  split; [simpl; lia|].
  apply (eq_instances_iff_same_items demo_call store_ab_ba 0 1 ab ba 8 Ha Hb);
    simpl; lia.
Defined.

Lemma eq_plain_iff_same_bindings_witness :
  represents store_abc 0 abc
  ∧ ∃ b : bool,
      OrderedDict___eq__ demo_call 8 0 (OtherDict (list_to_map abc)) store_abc
      = Return b store_abc
      ∧ (b = true ↔ ∀ k v, (list_to_map abc : gmap string Z) !! k = Some v
                            ↔ (k, v) ∈ abc).
Proof.
  split; [exact store_abc_represents|].
  apply (eq_plain_iff_same_bindings demo_call store_abc 0 abc
           (list_to_map abc) 8 store_abc_represents).
Defined.

Lemma setitem_leaves_other_instance_witness :
  two_instances store_ab_ba 1 ba 0 ab ∧ length ab < 8
  ∧ ∃ σ', OrderedDict___setitem__ 1 "x" 9%Z store_ab_ba = Return tt σ'
          ∧ two_instances σ' 1 (alist_set ba "x" 9%Z) 0 ab
          ∧ objs σ' !! 0 = objs store_ab_ba !! 0
          ∧ OrderedDict_items demo_call 8 0 σ' = Return ab σ'.
Proof.
  split; [exact store_ab_ba_two_instances|]. split; [simpl; lia|].
  apply (setitem_leaves_other_instance demo_call store_ab_ba 1 ba 0 ab
           "x" 9%Z 8 store_ab_ba_two_instances).
  simpl; lia.
Defined.

Lemma delitem_leaves_other_instance_witness :
  two_instances store_ab_ba 1 ([] ++ ("b", 2%Z) :: [("a", 1%Z)]) 0 ab
  ∧ length ab < 8
  ∧ ∃ σ', OrderedDict___delitem__ 1 "b" store_ab_ba = Return tt σ'
          ∧ two_instances σ' 1 ([] ++ [("a", 1%Z)]) 0 ab
          ∧ objs σ' !! 0 = objs store_ab_ba !! 0
          ∧ OrderedDict_items demo_call 8 0 σ' = Return ab σ'.
Proof.
  split; [exact store_ab_ba_two_instances|]. split; [simpl; lia|].
  apply (delitem_leaves_other_instance demo_call store_ab_ba 1 []
           ("b", 2%Z) [("a", 1%Z)] 0 ab 8 store_ab_ba_two_instances).
  simpl; lia.
Defined.


Lemma plain_copy_equal_and_separate_witness :
  represents store_abc 0 abc
  ∧ (∃ o, objs store_abc !! 0 = Some o ∧ ob_class o = OrderedDict)
  ∧ length abc < 8
  ∧ ∃ c σ',
      OrderedDict_copy demo_call 8 0 store_abc = Return c σ'
      ∧ objs store_abc !! c = None
      ∧ two_instances σ' c abc 0 abc
      ∧ objs σ' !! 0 = objs store_abc !! 0
      ∧ OrderedDict___eq__ demo_call 8 c (OtherOD 0) σ' = Return true σ'.
Proof.
  split; [exact store_abc_represents|]. split; [exact store_abc_class|].
  split; [simpl; lia|].
  apply (plain_copy_equal_and_separate demo_call store_abc 0 abc 8
           store_abc_represents store_abc_class).
  simpl; lia.
Defined.

Lemma default_second_lookup_no_call_witness :
  represents (store_default factory7) 0 abc
  ∧ is_default (store_default factory7) 0 (PyCallable 7%Z)
  ∧ ("x" ∉ abc.*1)
  ∧ ∃ σ' v,
      getitem demo_call 0 "x" (store_default factory7) = Return v σ'
      ∧ v = (demo_call 7%Z (world (store_default factory7))).1
      ∧ getitem demo_call 0 "x" σ' = Return v σ'.
Proof.
  destruct (store_default_represents _ default_factory_7_ok) as [Hrep Hdef].
  split; [exact Hrep|]. split; [exact Hdef|]. split; [exact x_not_in_abc|].
  apply (default_second_lookup_no_call demo_call (store_default factory7)
           0 abc 7%Z "x" Hrep Hdef x_not_in_abc).
Defined.

Lemma set_then_popitem_restores_witness :
  represents store_abc 0 abc ∧ ("x" ∉ abc.*1) ∧ length abc < 8
  ∧ ∃ σ', (OrderedDict___setitem__ 0 "x" 9%Z;;
           OrderedDict_popitem 0 true) store_abc = Return ("x", 9%Z) σ'
          ∧ represents σ' 0 abc
          ∧ OrderedDict_items demo_call 8 0 σ' = Return abc σ'.
Proof.
  split; [exact store_abc_represents|]. split; [exact x_not_in_abc|].
  split; [simpl; lia|].
  apply (set_then_popitem_restores demo_call store_abc 0 abc "x" 9%Z 8
           store_abc_represents x_not_in_abc).
  simpl; lia.
Defined.

Lemma update_arity_contract_witness :
  length [factory7; factory7] ≠ 1
  ∧ OrderedDict_update demo_call 8 0 [factory7; factory7] store_abc
    = Raise (Exn TypeError
               (inr ("update() takes at most 2 positional arguments ("
                     +:+ pretty (S (length [factory7; factory7]))
                     +:+ " given)"))) store_abc.
Proof.
  split; [simpl; lia|].
  apply (update_arity_contract demo_call store_abc 8 0 [factory7; factory7]).
  simpl; lia.
Defined.

Lemma reinit_keeps_entries_witness :
  represents store_abc 0 abc
  ∧ ∃ σ', OrderedDict___init__ demo_call 8 0 [PyPairs [("x", 9%Z)]] store_abc
          = Return tt σ'
          ∧ represents σ' 0 (alist_update abc [("x", 9%Z)])
          ∧ OrderedDict_update demo_call 8 0 [PyPairs [("x", 9%Z)]] store_abc
            = Return tt σ'
          ∧ world σ' = world store_abc.
Proof.
  split; [exact store_abc_represents|].
  apply (reinit_keeps_entries demo_call store_abc 0 abc [("x", 9%Z)] 8
           store_abc_represents).
Defined.

Lemma default_constructor_contract_witness :
  (is_none factory7 || is_callable factory7) = true
  ∧ (∃ d σ', construct demo_call 8 DefaultOrderedDict [factory7; PyPairs abc]
               empty_store = Return d σ'
             ∧ objs empty_store !! d = None
             ∧ represents σ' d (alist_update [] abc)
             ∧ is_default σ' d factory7
             ∧ world σ' = world empty_store)
  ∧ (∃ d σ', construct demo_call 8 DefaultOrderedDict [] empty_store
             = Return d σ'
             ∧ represents σ' d []
             ∧ is_default σ' d PyNone).
Proof.
  split; [exact default_factory_7_ok|].
  apply (default_constructor_contract demo_call empty_store 8 factory7 abc
           default_factory_7_ok).
Defined.

Lemma reduce_keeps_instance_attributes_witness :
  represents store_tagged 0 abc ∧ is_plain store_tagged 0 tag
  ∧ length abc < 8
  ∧ ∃ rv σ1 obj σ2,
      reduce demo_call 8 0 store_tagged = Return rv σ1
      ∧ rv_state rv = (if decide (tag = ∅) then None else Some tag)
      ∧ reconstruct demo_call 8 rv σ1 = Return obj σ2
      ∧ obj ≠ 0
      ∧ is_plain σ2 obj tag
      ∧ represents σ2 obj abc.
Proof.
  destruct store_tagged_represents as [Hrep Hplain].
  split; [exact Hrep|]. split; [exact Hplain|]. split; [simpl; lia|].
  apply (reduce_keeps_instance_attributes demo_call store_tagged 0 abc tag 8
           Hrep Hplain).
  simpl; lia.
Defined.

(** Further runs on the embedding. *)

Example reversed_abc :
  result (reversed_keys 8 0 store_abc) = Some ["c"; "b"; "a"].
Proof. by vm_compute. Qed.

Example clear_then_set :
  result ((OrderedDict_clear 0;;
           OrderedDict___setitem__ 0 "z" 0%Z;;
           OrderedDict_items demo_call 8 0) store_abc)
  = Some [("z", 0%Z)].
Proof. by vm_compute. Qed.

Example fromkeys_repeated_key :
  result ((d ← OrderedDict_fromkeys demo_call 8 OrderedDict ["b"; "a"; "b"] 0%Z;
           OrderedDict_items demo_call 8 d) empty_store)
  = Some [("b", 0%Z); ("a", 0%Z)].
Proof. by vm_compute. Qed.

Example tagged_state :
  (rv ← result (reduce demo_call 8 0 store_tagged); rv_state rv) = Some tag.
Proof. by vm_compute. Qed.

End Demo.
